(** * RangeOfPointers: algorithms over ranges of owning raw pointers

    A shallow embedding of [RangeOfPointers.hpp] (namespace [range_of_ptrs]).

    - A pointer is [None] ([nullptr]) or [Some a] for a heap address [a].
    - The free store is a finite map from addresses to pointee values,
      together with the log of the addresses passed to [delete], in order.
    - An iterator range over a container of pointers is the list of its
      slots; an iterator into it is an index.
    - A computation either returns, propagates a C++ exception, or stops in
      a fault: a failed [assert], or undefined behaviour (dereferencing
      [nullptr], using or deleting a dead object, leaving the range).
    - The pointees are values: copying one, comparing two and applying a
      predicate return normally and change nothing.  The exceptions of the
      model are those of allocation; what the templates do with a pointee
      type whose own operations raise is outside it, and no statement below
      is about that. *)

From stdpp Require Import gmap list sorting.

(** ** Memory model *)

Abbreviation addr := nat (only parsing).
Abbreviation ptr := (option addr).
Abbreviation nullptr := (@None addr).

Inductive fault : Type :=
  | AssertFailed   (* assert(p != nullptr) failed: abort *)
  | NullDeref      (* *p or delete through nullptr target: undefined *)
  | Dangling       (* the object at p is no longer (or not yet) alive *)
  | OutOfRange.    (* an iterator was dereferenced outside its container *)

Global Instance fault_eq_dec : EqDecision fault.
Proof. solve_decision. Defined.

Section Memory.
Context {V : Type}.

Record state : Type := State {
  heap : gmap addr V;     (* the live objects *)
  freed : list addr;      (* every address given to delete, oldest first *)
}.

Inductive outcome (A : Type) : Type :=
  | Ret (a : A) (s : state)
  | Throw (s : state)
  | Fault (f : fault).
Global Arguments Ret {A} a s.
Global Arguments Throw {A} s.
Global Arguments Fault {A} f.

Definition M (A : Type) : Type := state → outcome A.

Definition ret {A} (a : A) : M A := fun s => Ret a s.

Definition bind {A B} (m : M A) (k : A → M B) : M B := fun s =>
  match m s with
  | Ret a s' => k a s'
  | Throw s' => Throw s'
  | Fault f => Fault f
  end.

Definition raise {A} (f : fault) : M A := fun _ => Fault f.

(** [assert(p != nullptr)] *)
Definition assert_nonnull (p : ptr) : M unit :=
  match p with
  | Some _ => ret tt
  | None => raise AssertFailed
  end.

(** reading [*p] *)
Definition load (p : ptr) : M V := fun s =>
  match p with
  | None => Fault NullDeref
  | Some a =>
      match heap s !! a with
      | Some v => Ret v s
      | None => Fault Dangling
      end
  end.

(** writing the object [*p]: copy assignment [*p = v], or destruction
    followed by placement construction of a copy of [v] at [p].  The
    pointee's copy assignment and copy constructor are those of a value:
    they return normally. *)
Definition store (p : ptr) (v : V) : M unit := fun s =>
  match p with
  | None => Fault NullDeref
  | Some a =>
      match heap s !! a with
      | Some _ => Ret tt (State (<[a:=v]> (heap s)) (freed s))
      | None => Fault Dangling
      end
  end.

(** [delete p]: nothing for [nullptr], otherwise the object dies *)
Definition delete_ (p : ptr) : M unit := fun s =>
  match p with
  | None => Ret tt s
  | Some a =>
      match heap s !! a with
      | Some _ => Ret tt (State (delete a (heap s)) (freed s ++ [a]))
      | None => Fault Dangling
      end
  end.

(** reading the slot [*it] of a container *)
Definition slot_get (c : list ptr) (it : nat) : M ptr :=
  match c !! it with
  | Some p => ret p
  | None => raise OutOfRange
  end.

(** writing the slot [*it = p] *)
Definition slot_set (c : list ptr) (it : nat) (p : ptr) : M (list ptr) :=
  if decide (it < length c) then ret (<[it:=p]> c) else raise OutOfRange.

(** The slot an input iterator designates: the slot at an offset of the
    destination container, which is read when the scan reaches it and so
    shows what the algorithm has written there before, or a slot of another
    container, which the algorithm does not write, given by the pointer it
    holds. *)
Inductive slot : Type :=
  | there (i : nat)
  | elsewhere (p : ptr).

(** reading the slot [*first] while the destination container is [out] *)
Definition slot_read (out : list ptr) (x : slot) : M ptr :=
  match x with
  | there i => slot_get out i
  | elsewhere p => ret p
  end.

(** A reference parameter [const T&]: its referent is an object of the free
    store, named by its address, or an object the call cannot reach (a local
    or a temporary of the caller), given by its value. *)
Inductive cref : Type :=
  | outside (v : V)
  | inside (a : addr).

(** reading through the reference *)
Definition deref (r : cref) : M V :=
  match r with
  | outside v => ret v
  | inside a => load (Some a)
  end.

(** The allocator: [alloc h] is the address the next allocation obtains in
    free store [h], or [None] when it fails ([std::bad_alloc]). *)
Variable alloc : gmap addr V → option addr.

(** [new ValueType(v)] *)
Definition new_ (v : V) : M ptr := fun s =>
  match alloc (heap s) with
  | Some a => Ret (Some a) (State (<[a:=v]> (heap s)) (freed s))
  | None => Throw s
  end.

(** Modelled from the spec: the pointee's [Clone()] member is declared in
    [TestObject.hpp], which is not part of the sources; by §4.6 it
    "allocate[s] and return[s] an independently owned heap copy". *)
Definition Clone_ (p : ptr) : M ptr :=
  bind (load p) new_.

End Memory.

Global Arguments state : clear implicits.
Global Arguments cref : clear implicits.

(** a source range that lies in a container of its own, and the source
    range of [n] slots from offset [first] of the destination container *)
Abbreviation apart l := (map elsewhere l).
Abbreviation within first n := (map there (seq first n)).
Global Arguments outside {V} v.
Global Arguments inside {V} a.
Global Arguments outcome : clear implicits.
Global Arguments M : clear implicits.

Declare Scope cpp_scope.
Delimit Scope cpp_scope with cpp.
Notation "x ← m ; k" := (bind m (fun x => k))
  (at level 20, m at level 100, k at level 200, only parsing) : cpp_scope.
Notation "m ;; k" := (bind m (fun _ => k))
  (at level 100, k at level 200, only parsing, right associativity) : cpp_scope.
Open Scope cpp_scope.

(** ** Capabilities of the pointee type *)

(** [operator==] of the pointee type. *)
Class EqualityComparable (V : Type) := equal_to : V → V → bool.
(** [operator<] of the pointee type. *)
Class LessThanComparable (V : Type) := less : V → V → bool.

(** Modelled from the spec: the sample pointee type of the demonstration
    program is declared in [TestObject.hpp], which is not part of the
    sources; by §8 it is an integer wrapped in an object, compared and
    ordered by that integer. *)
Definition TestObject := Z.
Global Instance TestObject_eq : EqualityComparable TestObject := Z.eqb.
Global Instance TestObject_less : LessThanComparable TestObject := Z.ltb.

(** Two allocators to run the algorithms with: one that always succeeds, and
    one that fails once [cap] objects are alive. *)
Definition bump_alloc {V} (h : gmap addr V) : option addr :=
  Some (fresh (dom h)).
Definition bounded_alloc {V} (cap : nat) (h : gmap addr V) : option addr :=
  if decide (size h < cap) then Some (fresh (dom h)) else None.

(** ** Scoped guards *)

(** [raii_ptrs_range_wrapper]: the two iterators are offsets into the
    container [c] they point into. *)
Record raii_ptrs_range_wrapper : Type := RangeWrapper {
  first_ : nat;
  last_ : nat;
}.

Definition range_wrapper_at (dest : nat) : raii_ptrs_range_wrapper :=
  RangeWrapper dest dest.

Definition update_range (g : raii_ptrs_range_wrapper) (first last : nat)
  : raii_ptrs_range_wrapper :=
  RangeWrapper first last.

Definition update_range_cont (g : raii_ptrs_range_wrapper) (cont : list ptr)
  : raii_ptrs_range_wrapper :=
  update_range g 0 (length cont).

(** [Iter release() { first_ = last_; return last_; }] *)
Definition release (g : raii_ptrs_range_wrapper)
  : raii_ptrs_range_wrapper * nat :=
  (RangeWrapper (last_ g) (last_ g), last_ g).

(** [raii_ptrs_container_wrapper]: [pCont_] is the address of a container,
    here the name of the variable that holds it. *)
Record raii_ptrs_container_wrapper : Type := ContainerWrapper {
  pCont_ : option nat;
}.

Definition change_container (g : raii_ptrs_container_wrapper) (container : nat)
  : raii_ptrs_container_wrapper :=
  ContainerWrapper (Some container).

Definition container_release (g : raii_ptrs_container_wrapper)
  : raii_ptrs_container_wrapper :=
  ContainerWrapper None.

Section Guards.
Context {V : Type}.
Local Abbreviation M := (M V).

(** [for (; first_ != last_; ++first_) delete *first_;]
    Every iteration reads a slot of [c], so after [length c] iterations the
    next read is outside the container: [fuel = length c] never cuts a run
    short. *)
Fixpoint range_wrapper_dtor_loop (fuel first_ last_ : nat) (c : list ptr)
  : M unit :=
  if decide (first_ = last_) then ret tt
  else match fuel with
       | 0 => raise OutOfRange
       | S fuel' =>
           p ← slot_get c first_;
           delete_ p;;
           range_wrapper_dtor_loop fuel' (S first_) last_ c
       end.

Definition range_wrapper_dtor (g : raii_ptrs_range_wrapper) (c : list ptr)
  : M unit :=
  range_wrapper_dtor_loop (length c) (first_ g) (last_ g) c.

(** [for (auto p : cont) delete p;] *)
Fixpoint delete_each (cont : list ptr) : M unit :=
  match cont with
  | [] => ret tt
  | p :: cont' => delete_ p;; delete_each cont'
  end.

(** [~raii_ptrs_container_wrapper()]; [conts] gives the current contents of
    the containers in scope. *)
Definition container_wrapper_dtor (g : raii_ptrs_container_wrapper)
    (conts : nat → list ptr) : M unit :=
  match pCont_ g with
  | None => ret tt
  | Some c => delete_each (conts c)
  end.
End Guards.

(** ** The algorithms

    A source range [first, last) is the list [first] of its slots.  A
    destination is the container [out] and the offset [dest] into it; the
    algorithms return the advanced offset and the container.  The copying
    algorithms write no slot, so their source is the list of the pointers
    its slots hold.  The cloning algorithms write destination slots, so
    their source is a list of slot designators, and a source slot that is a
    slot of the destination container is read when its turn comes. *)

Section Algorithms.
Context {V : Type} `{EqualityComparable V}.
Variable alloc : gmap addr V → option addr.
Local Abbreviation M := (M V).

Fixpoint Copy (first : list ptr) (dest : nat) (out : list ptr)
  : M (nat * list ptr) :=
  match first with
  | [] => ret (dest, out)
  | pf :: first' =>
      pd ← slot_get out dest;
      assert_nonnull pd;;
      assert_nonnull pf;;
      v ← load pf;
      store pd v;;
      Copy first' (S dest) out
  end.

(** [src] is the container [first] points into. *)
Fixpoint CopyN_loop (count : nat) (src : list ptr) (first : nat)
    (dest : nat) (out : list ptr) : M (nat * list ptr) :=
  match count with
  | 0 => ret (dest, out)
  | S count' =>
      pd ← slot_get out dest;
      pf ← slot_get src first;
      v ← load pf;
      store pd v;;
      match count' with
      | 0 => ret (S dest, out)
      | S _ => CopyN_loop count' src (S first) (S dest) out
      end
  end.

Definition CopyN (src : list ptr) (first : nat) (count : nat)
    (dest : nat) (out : list ptr) : M (nat * list ptr) :=
  if decide (0 < count) then CopyN_loop count src first dest out
  else ret (dest, out).

(** [rlast] lists the source slots from [last - 1] down to [first]. *)
Fixpoint CopyBackward_loop (rlast : list ptr) (dest : nat) (out : list ptr)
  : M (nat * list ptr) :=
  match rlast with
  | [] => ret (dest, out)
  | pl :: rlast' =>
      match dest with
      | 0 => raise OutOfRange
      | S dest' =>
          pd ← slot_get out dest';
          v ← load pl;
          store pd v;;
          CopyBackward_loop rlast' dest' out
      end
  end.

Definition CopyBackward (first : list ptr) (dest : nat) (out : list ptr)
  : M (nat * list ptr) :=
  CopyBackward_loop (rev first) dest out.

Fixpoint CopyIf (first : list ptr) (dest : nat) (out : list ptr)
    (pred : V → bool) : M (nat * list ptr) :=
  match first with
  | [] => ret (dest, out)
  | pf :: first' =>
      pd ← slot_get out dest;
      assert_nonnull pd;;
      assert_nonnull pf;;
      v ← load pf;
      if pred v then
        store pd v;;
        CopyIf first' (S dest) out pred
      else CopyIf first' dest out pred
  end.

Fixpoint ReplaceCopy (first : list ptr) (dest : nat) (out : list ptr)
  : M (nat * list ptr) :=
  match first with
  | [] => ret (dest, out)
  | pf :: first' =>
      pd ← slot_get out dest;
      assert_nonnull pd;;
      assert_nonnull pf;;
      v ← load pf;
      store pd v;;
      ReplaceCopy first' (S dest) out
  end.

Fixpoint ReplaceCopyIf (first : list ptr) (dest : nat) (out : list ptr)
    (pred : V → bool) : M (nat * list ptr) :=
  match first with
  | [] => ret (dest, out)
  | pf :: first' =>
      pd ← slot_get out dest;
      assert_nonnull pd;;
      assert_nonnull pf;;
      v ← load pf;
      if pred v then
        store pd v;;
        ReplaceCopyIf first' (S dest) out pred
      else ReplaceCopyIf first' (S dest) out pred
  end.

Fixpoint Clone (first : list slot) (dest : nat) (out : list ptr)
  : M (nat * list ptr) :=
  match first with
  | [] => ret (dest, out)
  | x :: first' =>
      pd ← slot_get out dest;
      assert_nonnull pd;;
      pf ← slot_read out x;
      assert_nonnull pf;;
      q ← Clone_ alloc pf;
      out' ← slot_set out dest q;
      Clone first' (S dest) out'
  end.

Fixpoint CloneIf (first : list slot) (dest : nat) (out : list ptr)
    (pred : V → bool) : M (nat * list ptr) :=
  match first with
  | [] => ret (dest, out)
  | x :: first' =>
      pd ← slot_get out dest;
      assert_nonnull pd;;
      pf ← slot_read out x;
      assert_nonnull pf;;
      v ← load pf;
      if pred v then
        q ← Clone_ alloc pf;
        out' ← slot_set out dest q;
        CloneIf first' (S dest) out' pred
      else CloneIf first' dest out pred
  end.

Fixpoint ReplaceClone (first : list slot) (dest : nat) (out : list ptr)
  : M (nat * list ptr) :=
  match first with
  | [] => ret (dest, out)
  | x :: first' =>
      pd ← slot_get out dest;
      assert_nonnull pd;;
      pf ← slot_read out x;
      assert_nonnull pf;;
      delete_ pd;;
      q ← Clone_ alloc pf;
      out' ← slot_set out dest q;
      ReplaceClone first' (S dest) out'
  end.

Fixpoint ReplaceCloneIf (first : list slot) (dest : nat) (out : list ptr)
    (pred : V → bool) : M (nat * list ptr) :=
  match first with
  | [] => ret (dest, out)
  | x :: first' =>
      pd ← slot_get out dest;
      assert_nonnull pd;;
      pf ← slot_read out x;
      assert_nonnull pf;;
      v ← load pf;
      if pred v then
        delete_ pd;;
        q ← Clone_ alloc pf;
        out' ← slot_set out dest q;
        ReplaceCloneIf first' (S dest) out' pred
      else ReplaceCloneIf first' dest out pred
  end.

(** In-place compaction: the range is the container [c], [first] and
    [result] are offsets into it, and [n] is the distance from [first] to
    [last].  [value] is a reference: the comparison reads its referent in
    every iteration. *)
Fixpoint Remove_loop (n : nat) (first result : nat) (c : list ptr)
    (value : cref V) : M (nat * list ptr) :=
  match n with
  | 0 => ret (result, c)
  | S n' =>
      pf ← slot_get c first;
      x ← load pf;
      v ← deref value;
      if negb (equal_to x v) then
        c' ← slot_set c result pf;
        Remove_loop n' (S first) (S result) c' value
      else
        delete_ pf;;
        c' ← slot_set c first nullptr;
        Remove_loop n' (S first) result c' value
  end.

Definition Remove (c : list ptr) (value : cref V) : M (nat * list ptr) :=
  Remove_loop (length c) 0 0 c value.

Fixpoint RemoveIf_loop {T : Type} (n : nat) (first result : nat)
    (c : list ptr) (value : T) (pred : V → bool) : M (nat * list ptr) :=
  match n with
  | 0 => ret (result, c)
  | S n' =>
      pf ← slot_get c first;
      x ← load pf;
      if negb (pred x) then
        c' ← slot_set c result pf;
        RemoveIf_loop n' (S first) (S result) c' value pred
      else
        delete_ pf;;
        c' ← slot_set c first nullptr;
        RemoveIf_loop n' (S first) result c' value pred
  end.

Definition RemoveIf {T : Type} (c : list ptr) (value : T) (pred : V → bool)
  : M (nat * list ptr) :=
  RemoveIf_loop (length c) 0 0 c value pred.

(** [while (++first != last)]: [n] is the distance from [first + 1] to
    [last] on entry. *)
Fixpoint Unique_loop (n : nat) (first result : nat) (c : list ptr)
  : M (nat * list ptr) :=
  match n with
  | 0 => ret (S result, c)
  | S n' =>
      pr ← slot_get c result;
      xr ← load pr;
      pf ← slot_get c (S first);
      xf ← load pf;
      if negb (equal_to xr xf) then
        c' ← slot_set c (S result) pf;
        Unique_loop n' (S first) (S result) c'
      else
        delete_ pf;;
        c' ← slot_set c (S first) nullptr;
        Unique_loop n' (S first) result c'
  end.

Definition Unique (c : list ptr) : M (nat * list ptr) :=
  match c with
  | [] => ret (length c, c)
  | _ :: _ => Unique_loop (length c - 1) 0 0 c
  end.

Fixpoint Unique_pred_loop (n : nat) (first result : nat) (c : list ptr)
    (pred : V → V → bool) : M (nat * list ptr) :=
  match n with
  | 0 => ret (S result, c)
  | S n' =>
      pr ← slot_get c result;
      xr ← load pr;
      pf ← slot_get c (S first);
      xf ← load pf;
      if negb (pred xr xf) then
        c' ← slot_set c (S result) pf;
        Unique_pred_loop n' (S first) (S result) c' pred
      else
        delete_ pf;;
        c' ← slot_set c (S first) nullptr;
        Unique_pred_loop n' (S first) result c' pred
  end.

Definition Unique_pred (c : list ptr) (pred : V → V → bool)
  : M (nat * list ptr) :=
  match c with
  | [] => ret (length c, c)
  | _ :: _ => Unique_pred_loop (length c - 1) 0 0 c pred
  end.

(** [std::transform(first, last, std::back_inserter(result), lambda)] with
    the lambda of [DeepCopyOfRange].  The container is handed back in every
    case: it is a local of the caller and outlives a throwing call. *)
Fixpoint transform_new_copy (first : list ptr) (result : list ptr)
    (s : state V) : list ptr * outcome V unit :=
  match first with
  | [] => (result, Ret tt s)
  | pLeft :: first' =>
      match (assert_nonnull pLeft;; v ← load pLeft; new_ alloc v) s with
      | Ret q s' => transform_new_copy first' (result ++ [q]) s'
      | Throw s' => (result, Throw s')
      | Fault f => (result, Fault f)
      end
  end.

Definition DeepCopyOfRange (first : list ptr) : M (list ptr) := fun s =>
  let result : list ptr := [] in
  let backout := ContainerWrapper (Some 0) in       (* &result *)
  (* result.reserve(...) leaves the contents alone *)
  match transform_new_copy first result s with
  | (result, Ret _ s1) =>
      let backout := container_release backout in
      (* return result; then backout goes out of scope *)
      (container_wrapper_dtor backout (fun _ => result);; ret result) s1
  | (result, Throw s1) =>
      (* unwinding destroys backout while result holds what was appended *)
      match container_wrapper_dtor backout (fun _ => result) s1 with
      | Ret _ s2 => Throw s2
      | Throw s2 => Throw s2
      | Fault f => Fault f
      end
  | (_, Fault f) => Fault f
  end.

Definition DeepCopy (container : list ptr) : M (list ptr) :=
  DeepCopyOfRange container.

(** Functor adapters *)
Definition UnaryFunctorDerefAdapter (func : V → bool) (p : ptr) : M bool :=
  assert_nonnull p;;
  x ← load p;
  ret (func x).

Definition BinaryFunctorDerefAdapter {T : Type} (func : V → T → bool)
    (lhs : ptr) (rhs : T) : M bool :=
  assert_nonnull lhs;;
  x ← load lhs;
  ret (func x rhs).

Definition BinaryFunctorDerefPtrsAdapter (func : V → V → bool)
    (lhs rhs : ptr) : M bool :=
  assert_nonnull lhs;;
  assert_nonnull rhs;;
  x ← load lhs;
  y ← load rhs;
  ret (func x y).

End Algorithms.

(** ** Vocabulary of the statements *)

Section Vocabulary.
Context {V : Type}.

(** the object a pointer designates, if it is alive *)
Definition pointee (s : state V) (p : ptr) : option V :=
  match p with
  | Some a => heap s !! a
  | None => None
  end.

(** the pointer designates a living object *)
Definition live (s : state V) (p : ptr) : Prop := is_Some (pointee s p).

Global Instance live_dec s p : Decision (live s p).
Proof. unfold live. apply _. Defined.

(** the non-null addresses held by a sequence of slots, in order *)
Definition addrs (l : list ptr) : list addr := omap id l.

(** the free store once the objects at [l] are gone *)
Definition without (l : list addr) (h : gmap addr V) : gmap addr V :=
  foldl (fun h a => delete a h) h l.

(** the pointee satisfies [pred] *)
Definition holds (pred : V → bool) (s : state V) (p : ptr) : bool :=
  match pointee s p with
  | Some v => pred v
  | None => false
  end.

(** the pointees of [p] and [q] are related by [rel] *)
Definition related (rel : V → V → bool) (s : state V) (p q : ptr) : bool :=
  match pointee s p, pointee s q with
  | Some x, Some y => rel x y
  | _, _ => false
  end.

(** the slots a range guard is responsible for *)
Definition guarded (g : raii_ptrs_range_wrapper) (c : list ptr) : list ptr :=
  take (last_ g - first_ g) (drop (first_ g) c).

(** what [Unique] keeps of [l] when the element kept last is [r], and what it
    deletes *)
Fixpoint unique_kept (rel : V → V → bool) (s : state V) (r : ptr)
    (l : list ptr) : list ptr :=
  match l with
  | [] => []
  | p :: l' =>
      if related rel s r p then unique_kept rel s r l'
      else p :: unique_kept rel s p l'
  end.

Fixpoint unique_dropped (rel : V → V → bool) (s : state V) (r : ptr)
    (l : list ptr) : list ptr :=
  match l with
  | [] => []
  | p :: l' =>
      if related rel s r p then p :: unique_dropped rel s r l'
      else unique_dropped rel s p l'
  end.

End Vocabulary.

Section RemovalVocabulary.
Context {V : Type}.

(** the slots a removal keeps, and the slots whose pointee it deletes *)
Definition kept (pred : V → bool) (s : state V) (l : list ptr) : list ptr :=
  filter (fun p => ¬ holds pred s p) l.
Definition removed (pred : V → bool) (s : state V) (l : list ptr) : list ptr :=
  filter (fun p => holds pred s p) l.

(** the object a reference designates, if it is alive *)
Definition referent (s : state V) (r : cref V) : option V :=
  match r with
  | outside v => Some v
  | inside a => heap s !! a
  end.

(** the reference designates no object that a slot of [c] points to *)
Definition apart_from (r : cref V) (c : list ptr) : Prop :=
  match r with
  | outside _ => True
  | inside a => Some a ∉ c
  end.

(** no element of the range is less than an earlier one: the post-condition
    of [std::sort] with [operator<] on the pointees *)
Definition sorted_range `{LessThanComparable V} (s : state V) (c : list ptr)
  : Prop :=
  StronglySorted (fun p q => related less s q p = false) c.

End RemovalVocabulary.

Section UniqueVocabulary.
Context {V : Type}.

(** the element [Unique] compares the next one with, once it has gone
    through [l] starting from the kept element [r] *)
Fixpoint unique_last (rel : V → V → bool) (s : state V) (r : ptr)
    (l : list ptr) : ptr :=
  match l with
  | [] => r
  | p :: l' =>
      if related rel s r p then unique_last rel s r l'
      else unique_last rel s p l'
  end.

End UniqueVocabulary.

Section TailVocabulary.
Context {V : Type}.

(** past the new end [r] every slot of [out] is null or repeats a pointer
    of the slots before [r], and every pointer of the range [c] that still
    designates a living object is among the slots before [r] *)
Definition tail_spent (s' : state V) (c : list ptr) (r : nat)
    (out : list ptr) : Prop :=
  (∀ i p, r ≤ i → out !! i = Some p → p = nullptr ∨ p ∈ take r out) ∧
  (∀ p, p ∈ c → live s' p → p ∈ take r out).

End TailVocabulary.

Section FilterVocabulary.
Context {V : Type}.

(** the source slots whose pointee satisfies the predicate, in order *)
Definition matching (pred : V → bool) (s : state V) (l : list ptr)
  : list ptr :=
  filter (fun p => holds pred s p) l.

(** the pointees of a sequence of slots *)
Definition pointees (s : state V) (l : list ptr) : list (option V) :=
  map (pointee s) l.

End FilterVocabulary.

(** ** Sample data *)

(** a free store holding the given objects, nothing deleted yet *)
Definition store_of (l : list (addr * TestObject)) : state TestObject :=
  State (list_to_map l) [].

Definition four_sources : list ptr := [Some 1; Some 2; Some 3; Some 4].
Definition four_targets : list ptr := [Some 11; Some 12; Some 13; Some 14].

(** the objects 1, 2, 3, 4 and four placeholders *)
Definition eight_objects : state TestObject :=
  store_of [(1, 1%Z); (2, 2%Z); (3, 3%Z); (4, 4%Z);
            (11, 0%Z); (12, 0%Z); (13, 0%Z); (14, 0%Z)].

(** the objects 1, 9, 9 of the specification's example *)
Definition three_slots : list ptr := [Some 1; Some 2; Some 3].
Definition one_nine_nine : state TestObject :=
  store_of [(1, 1%Z); (2, 9%Z); (3, 9%Z)].

Section EffectVocabulary.
Context {V : Type}.

(** [s'] has the same objects as [s] (their values may differ) and nothing
    was deleted on the way *)
Definition same_objects (s s' : state V) : Prop :=
  freed s' = freed s ∧ dom (heap s') = dom (heap s).

(** from [s] to [s'] objects were only deleted: what is alive in [s'] was
    alive in [s] with the same value, and the deletion log only grew *)
Definition only_deleted (s s' : state V) : Prop :=
  heap s' ⊆ heap s ∧ ∃ k, freed s' = freed s ++ k.

(** from [s] to [s'] objects were only created: what was alive in [s] is
    alive in [s'] with the same value, and nothing was deleted *)
Definition only_created (s s' : state V) : Prop :=
  heap s ⊆ heap s' ∧ freed s' = freed s.

End EffectVocabulary.

(** ** The demonstration program *)

Section Demonstration.
Context {V : Type} `{EqualityComparable V}.

(** [pVec.erase(Unique(begin(pVec), end(pVec), std::equal_to<>()), end(pVec))]
    of [main]: the vector keeps the slots before the iterator returned. *)
Definition erase_unique (pVec : list ptr) : M V (list ptr) :=
  ro ← Unique_pred pVec equal_to;
  ret (take ro.1 ro.2).

(** the end of the scope of [main]: the vector is deduplicated and then the
    container guard bound to it is destroyed *)
Definition dedup_then_leave_scope (pVec : list ptr) : M V unit :=
  let wrapper := ContainerWrapper (Some 0) in
  pVec' ← erase_unique pVec;
  container_wrapper_dtor wrapper (fun _ => pVec').

End Demonstration.

(** * Properties *)

(** ** Running the primitives *)

Ltac unfold_prims :=
  unfold Clone_ in *;
  unfold slot_read, deref in *;
  unfold bind, ret, raise, assert_nonnull, slot_get, slot_set,
    load, store, delete_, new_ in *.

(** split on an innermost [match] scrutinee of the goal *)
Ltac case_run :=
  match goal with
  | |- context [match ?x with _ => _ end] =>
      lazymatch x with
      | context [match _ with _ => _ end] => fail
      | _ => destruct x eqn:?; simpl in *; try done
      end
  end.

(** settle a closed decidable proposition by evaluation *)
Ltac by_compute := apply (bool_decide_unpack _); vm_compute; exact I.

Ltac run := simpl; unfold_prims; simpl; repeat case_run.

Section PrimFacts.
Context {V : Type}.
Implicit Types (s : state V) (a : addr) (p : ptr) (v : V).

Lemma load_live s a v :
  heap s !! a = Some v → load (Some a) s = Ret v s.
Proof. intros E. unfold load. by rewrite E. Qed.

Lemma store_live s a v :
  is_Some (heap s !! a) →
  store (Some a) v s = Ret tt (State (<[a:=v]> (heap s)) (freed s)).
Proof. intros [w E]. unfold store. by rewrite E. Qed.

Lemma delete_live s a :
  is_Some (heap s !! a) →
  delete_ (Some a) s = Ret tt (State (delete a (heap s)) (freed s ++ [a])).
Proof. intros [w E]. unfold delete_. by rewrite E. Qed.

Lemma slot_read_cases (out : list ptr) x s :
  (∃ pf, slot_read (V:=V) out x s = Ret pf s) ∨
  slot_read (V:=V) out x s = Fault OutOfRange.
Proof.
  destruct x as [i|p]; simpl; [|left; by eexists].
  unfold slot_get. destruct (out !! i); [left; by eexists|by right].
Qed.

Lemma slot_get_middle (pre post : list ptr) p :
  slot_get (V:=V) (pre ++ p :: post) (length pre) = ret p.
Proof. unfold slot_get. by rewrite list_lookup_middle. Qed.

Lemma slot_set_middle (pre post : list ptr) p q :
  slot_set (V:=V) (pre ++ p :: post) (length pre) q = ret (pre ++ q :: post).
Proof.
  unfold slot_set. rewrite decide_True.
  - by rewrite insert_app_r_alt, Nat.sub_diag by lia.
  - rewrite length_app. simpl. lia.
Qed.

Lemma bump_alloc_fresh (h : gmap addr V) a :
  bump_alloc h = Some a → h !! a = None.
Proof.
  unfold bump_alloc. intros [= <-].
  apply not_elem_of_dom, is_fresh.
Qed.

Lemma bounded_alloc_fresh cap (h : gmap addr V) a :
  bounded_alloc cap h = Some a → h !! a = None.
Proof.
  unfold bounded_alloc. case_decide; [|done]. intros [= <-].
  apply not_elem_of_dom, is_fresh.
Qed.
End PrimFacts.

(** ** Null checks *)

Section NullChecks.
Context {V : Type} `{EqualityComparable V}.
Variable alloc : gmap addr V → option addr.
Implicit Types (s : state V) (first out c : list ptr) (dest : nat).

Lemma Copy_checked first dest out s :
  Copy first dest out s ≠ Fault NullDeref.
Proof.
  revert dest s. induction first as [|pf first IH]; intros dest s; [done|].
  run; apply IH.
Qed.

Lemma CopyIf_checked first dest out pred s :
  CopyIf first dest out pred s ≠ Fault NullDeref.
Proof.
  revert dest s. induction first as [|pf first IH]; intros dest s; [done|].
  run; apply IH.
Qed.

Lemma ReplaceCopy_checked first dest out s :
  ReplaceCopy first dest out s ≠ Fault NullDeref.
Proof.
  revert dest s. induction first as [|pf first IH]; intros dest s; [done|].
  run; apply IH.
Qed.

Lemma ReplaceCopyIf_checked first dest out pred s :
  ReplaceCopyIf first dest out pred s ≠ Fault NullDeref.
Proof.
  revert dest s. induction first as [|pf first IH]; intros dest s; [done|].
  run; apply IH.
Qed.

Lemma Clone_checked (src : list slot) dest out s :
  Clone alloc src dest out s ≠ Fault NullDeref.
Proof.
  revert dest out s.
  induction src as [|x src IH]; intros dest out s; [done|].
  run; apply IH.
Qed.

Lemma CloneIf_checked (src : list slot) dest out pred s :
  CloneIf alloc src dest out pred s ≠ Fault NullDeref.
Proof.
  revert dest out s.
  induction src as [|x src IH]; intros dest out s; [done|].
  run; apply IH.
Qed.

Lemma ReplaceClone_checked (src : list slot) dest out s :
  ReplaceClone alloc src dest out s ≠ Fault NullDeref.
Proof.
  revert dest out s.
  induction src as [|x src IH]; intros dest out s; [done|].
  run; apply IH.
Qed.

Lemma ReplaceCloneIf_checked (src : list slot) dest out pred s :
  ReplaceCloneIf alloc src dest out pred s ≠ Fault NullDeref.
Proof.
  revert dest out s.
  induction src as [|x src IH]; intros dest out s; [done|].
  run; apply IH.
Qed.

Lemma transform_new_copy_checked first result s :
  (transform_new_copy alloc first result s).2 ≠ Fault NullDeref.
Proof.
  revert result s.
  induction first as [|pf first IH]; intros result s; [done|].
  run; apply IH.
Qed.

Lemma DeepCopyOfRange_checked first s :
  DeepCopyOfRange alloc first s ≠ Fault NullDeref.
Proof.
  unfold DeepCopyOfRange.
  pose proof (transform_new_copy_checked first [] s) as Hc.
  destruct (transform_new_copy alloc first [] s) as [result [[] s1|s1|f]];
    simpl in *; [done| |congruence].
  unfold container_wrapper_dtor. simpl.
  assert (∀ l s', delete_each (V:=V) l s' ≠ Fault NullDeref) as Hd.
  { induction l as [|p l IH]; intros s'; [done|]. run. }
  specialize (Hd result s1).
  destruct (delete_each result s1); congruence.
Qed.

Lemma CopyN_loop_unasserted count : ∀ src n dest out s,
  CopyN_loop count src n dest out s ≠ Fault AssertFailed.
Proof.
  induction count as [|count IH]; intros src n dest out s; [done|].
  run; apply IH.
Qed.

Lemma CopyBackward_loop_unasserted rlast : ∀ dest out s,
  CopyBackward_loop rlast dest out s ≠ Fault AssertFailed.
Proof.
  induction rlast as [|pl rlast IH]; intros dest out s; [done|].
  destruct dest as [|dest]; [done|]. run; apply IH.
Qed.

Lemma Remove_loop_unasserted value n : ∀ (i result : nat) c s,
  Remove_loop n i result c value s ≠ Fault AssertFailed.
Proof.
  induction n as [|n IH]; intros i result c s; [done|].
  run; apply IH.
Qed.

Lemma RemoveIf_loop_unasserted {T} (value : T) pred n : ∀ (i result : nat) c s,
  RemoveIf_loop n i result c value pred s ≠ Fault AssertFailed.
Proof.
  induction n as [|n IH]; intros i result c s; [done|].
  run; apply IH.
Qed.

Lemma Unique_loop_unasserted n : ∀ (i result : nat) c s,
  Unique_loop n i result c s ≠ Fault AssertFailed.
Proof.
  induction n as [|n IH]; intros i result c s; [done|].
  run; apply IH.
Qed.

Lemma Unique_pred_loop_unasserted pred n : ∀ (i result : nat) c s,
  Unique_pred_loop n i result c pred s ≠ Fault AssertFailed.
Proof.
  induction n as [|n IH]; intros i result c s; [done|].
  run; apply IH.
Qed.
End NullChecks.

(** ** The free store *)

Section StoreFacts.
Context {V : Type}.
Implicit Types (s : state V) (a : addr) (p : ptr) (l : list ptr).

Lemma lookup_without (k : list addr) (h : gmap addr V) a :
  without k h !! a = if decide (a ∈ k) then None else h !! a.
Proof.
  revert h. induction k as [|b k IH]; intros h.
  - destruct (decide (a ∈ [])) as [Hin|]; [|done]. by apply elem_of_nil in Hin.
  - change (without (b :: k) h) with (without k (delete b h)).
    rewrite IH. destruct (decide (a ∈ k)) as [Hin|Hin].
    + rewrite decide_True; [done|]. by right.
    + destruct (decide (a = b)) as [->|Hne].
      * rewrite lookup_delete_eq. rewrite decide_True; [done|]. by left.
      * rewrite lookup_delete_ne by done.
        rewrite decide_False; [done|]. rewrite elem_of_cons. tauto.
Qed.

Lemma addrs_cons_Some a l : addrs (Some a :: l) = a :: addrs l.
Proof. done. Qed.

Lemma addrs_cons_None l : addrs (None :: l) = addrs l.
Proof. done. Qed.

Lemma addrs_app l1 l2 : addrs (l1 ++ l2) = addrs l1 ++ addrs l2.
Proof. apply omap_app. Qed.

Lemma elem_of_addrs a l : a ∈ addrs l ↔ Some a ∈ l.
Proof.
  unfold addrs. rewrite list_elem_of_omap. split.
  - intros (p & Hp & E). simpl in E. by subst.
  - intros Hp. by exists (Some a).
Qed.

Lemma live_Some s a : live s (Some a) ↔ is_Some (heap s !! a).
Proof. done. Qed.

Lemma live_nonnull s p : live s p → p ≠ nullptr.
Proof. intros [v Hv] ->. done. Qed.
End StoreFacts.

(** ** The range guard *)

Section RangeGuard.
Context {V : Type}.
Implicit Types (s : state V) (c : list ptr) (g : raii_ptrs_range_wrapper).

(** The fuel of the destructor loop is no approximation: any amount that
    covers the slots from [first] to the end of the container gives the
    same run, because a longer walk leaves the container. *)
Lemma range_wrapper_dtor_loop_fuel c last fuel : ∀ fuel' first s,
  length c - first ≤ fuel → length c - first ≤ fuel' →
  range_wrapper_dtor_loop fuel first last c s =
  range_wrapper_dtor_loop fuel' first last c s.
Proof.
  induction fuel as [|fuel IH]; intros fuel' first s Hf Hf'.
  - destruct fuel' as [|fuel']; [done|]. simpl.
    destruct (decide (first = last)); [done|].
    unfold bind, slot_get. rewrite lookup_ge_None_2 by lia. done.
  - destruct fuel' as [|fuel']; simpl.
    + destruct (decide (first = last)); [done|].
      unfold bind, slot_get. rewrite lookup_ge_None_2 by lia. done.
    + destruct (decide (first = last)); [done|].
      unfold bind, slot_get.
      destruct (c !! first) as [p|] eqn:Hp; [|done].
      apply lookup_lt_Some in Hp. simpl.
      destruct (delete_ p s) as [[] s1|s1|f]; [|done|done].
      apply IH; lia.
Qed.

Lemma range_wrapper_dtor_loop_run fuel c : ∀ first last s,
  first ≤ last → last ≤ length c → last - first ≤ fuel →
  NoDup (addrs (take (last - first) (drop first c))) →
  Forall (fun a => is_Some (heap s !! a))
         (addrs (take (last - first) (drop first c))) →
  range_wrapper_dtor_loop fuel first last c s =
    Ret tt (State (without (addrs (take (last - first) (drop first c))) (heap s))
                  (freed s ++ addrs (take (last - first) (drop first c)))).
Proof.
  induction fuel as [|fuel IH]; intros first last s Hle Hlen Hfuel Hnd Hlive.
  - assert (first = last) as -> by lia. simpl.
    rewrite decide_True by done. rewrite Nat.sub_diag. simpl.
    rewrite app_nil_r. by destruct s.
  - simpl. destruct (decide (first = last)) as [->|Hne].
    { rewrite Nat.sub_diag. simpl. rewrite app_nil_r. by destruct s. }
    destruct (lookup_lt_is_Some_2 c first) as [p Hp]; [lia|].
    assert (last - first = S (last - S first)) as Hk by lia.
    rewrite Hk in Hnd, Hlive |- *.
    rewrite (drop_S _ _ _ Hp) in Hnd, Hlive |- *. simpl in Hnd, Hlive |- *.
    unfold bind at 1. unfold slot_get. rewrite Hp. simpl.
    destruct p as [a|].
    + apply NoDup_cons in Hnd as [Hnotin Hnd].
      apply Forall_cons in Hlive as [Ha Hlive].
      unfold bind. rewrite (delete_live _ _ Ha).
      rewrite IH; simpl; try done; try lia.
      * by rewrite <- app_assoc.
      * apply Forall_forall. intros b Hin.
        rewrite Forall_forall in Hlive.
        rewrite lookup_delete_ne; [by apply Hlive|]. by intros ->.
    + unfold bind. simpl. apply IH; try done; lia.
Qed.
End RangeGuard.

Section RangeGuardContract.
Context {V : Type}.
Implicit Types (s : state V) (c : list ptr) (g : raii_ptrs_range_wrapper).

Lemma release_empties g c : guarded (release g).1 c = [].
Proof. unfold guarded, release. simpl. by rewrite Nat.sub_diag. Qed.

Lemma released_dtor_inert g c s :
  range_wrapper_dtor (release g).1 c s = Ret tt s.
Proof.
  unfold range_wrapper_dtor, release. simpl.
  destruct (length c); simpl; by rewrite decide_True.
Qed.

Lemma range_wrapper_dtor_run g c s :
  first_ g ≤ last_ g → last_ g ≤ length c →
  NoDup (addrs (guarded g c)) →
  Forall (fun a => is_Some (heap s !! a)) (addrs (guarded g c)) →
  range_wrapper_dtor g c s =
    Ret tt (State (without (addrs (guarded g c)) (heap s))
                  (freed s ++ addrs (guarded g c))).
Proof.
  intros. unfold range_wrapper_dtor, guarded.
  apply range_wrapper_dtor_loop_run; try done. lia.
Qed.

(** C9. A range guard holding [first_, last_): [release()] makes the held
    range empty and returns the end marker, and destroying the guard
    afterwards deletes nothing.  Destroying a guard that was not released
    deletes the pointers of the held range, from its start to its end, and
    nothing else. *)
Theorem range_wrapper_release_and_destruction g c s :
  (first_ (release g).1 = last_ (release g).1 ∧
   guarded (release g).1 c = [] ∧
   (release g).2 = last_ g ∧
   range_wrapper_dtor (release g).1 c s = Ret tt s) ∧
  (first_ g ≤ last_ g ≤ length c →
   NoDup (addrs (guarded g c)) →
   Forall (fun a => is_Some (heap s !! a)) (addrs (guarded g c)) →
   ∃ s', range_wrapper_dtor g c s = Ret tt s' ∧
     freed s' = freed s ++ addrs (guarded g c) ∧
     (∀ a, a ∈ addrs (guarded g c) → heap s' !! a = None) ∧
     (∀ a, a ∉ addrs (guarded g c) → heap s' !! a = heap s !! a)).
Proof.
  split.
  - split; [done|]. split; [apply release_empties|].
    split; [done|apply released_dtor_inert].
  - intros [Hle Hlen] Hnd Hlive. eexists. split.
    + by apply range_wrapper_dtor_run.
    + simpl. split; [done|].
      split; intros a Ha; rewrite lookup_without.
      * by rewrite decide_True.
      * by rewrite decide_False.
Qed.
End RangeGuardContract.

Lemma range_wrapper_release_and_destruction_witness :
  ∃ s', range_wrapper_dtor (RangeWrapper 1 3)
          [Some 1; Some 2; Some 3; Some 4]
          (store_of [(1, 10%Z); (2, 20%Z); (3, 30%Z); (4, 40%Z)]) = Ret tt s' ∧
        freed s' = [2; 3].
Proof.
  destruct (range_wrapper_release_and_destruction (RangeWrapper 1 3)
              [Some 1; Some 2; Some 3; Some 4]
              (store_of [(1, 10%Z); (2, 20%Z); (3, 30%Z); (4, 40%Z)]))
    as [_ Hd].
  destruct Hd as (s' & Hrun & Hfreed & _).
  - simpl. lia.
  - by_compute.
  - by_compute.
  - exists s'. split; [exact Hrun|]. rewrite Hfreed. reflexivity.
Defined.

(** ** Which algorithms check for null *)

Section NullChecksSummary.
Context {V : Type} `{EqualityComparable V}.
Variable alloc : gmap addr V → option addr.
Implicit Types (s : state V) (first out c : list ptr) (dest : nat).

Lemma UnaryFunctorDerefAdapter_checked func p s :
  UnaryFunctorDerefAdapter func p s ≠ Fault NullDeref.
Proof. unfold UnaryFunctorDerefAdapter. run. Qed.

Lemma BinaryFunctorDerefAdapter_checked {T} (func : V → T → bool) p rhs s :
  BinaryFunctorDerefAdapter func p rhs s ≠ Fault NullDeref.
Proof. unfold BinaryFunctorDerefAdapter. run. Qed.

Lemma BinaryFunctorDerefPtrsAdapter_checked func p q s :
  BinaryFunctorDerefPtrsAdapter func p q s ≠ Fault NullDeref.
Proof. unfold BinaryFunctorDerefPtrsAdapter. run. Qed.

Lemma Remove_null_unchecked c value s :
  Remove (nullptr :: c) value s = Fault NullDeref.
Proof. done. Qed.

Lemma RemoveIf_null_unchecked {T} c (value : T) pred s :
  RemoveIf (nullptr :: c) value pred s = Fault NullDeref.
Proof. done. Qed.

Lemma Unique_null_unchecked c s :
  Unique (nullptr :: nullptr :: c) s = Fault NullDeref.
Proof. done. Qed.

Lemma Unique_pred_null_unchecked c pred s :
  Unique_pred (nullptr :: nullptr :: c) pred s = Fault NullDeref.
Proof. done. Qed.

End NullChecksSummary.

(** A null source slot, at the smallest input: [Copy] stops at its
    assertion, while [CopyN], [Remove], [RemoveIf] and [Unique] go on to
    dereference it. *)
Lemma null_dereferenced_without_assertion :
  Copy [nullptr] 0 [Some 1] (store_of [(1, 5%Z)]) = Fault AssertFailed ∧
  CopyN [nullptr] 0 1 0 [Some 1] (store_of [(1, 5%Z)]) = Fault NullDeref ∧
  Remove [nullptr] (outside 5%Z) (store_of [(1, 5%Z)]) = Fault NullDeref ∧
  RemoveIf [nullptr] 5%Z Z.even (store_of [(1, 5%Z)]) = Fault NullDeref ∧
  Unique [nullptr; Some 1] (store_of [(1, 5%Z)]) = Fault NullDeref.
Proof. repeat split. Qed.

(** ** Deep copy *)

Section DeepCopyFacts.
Context {V : Type}.
Variable alloc : gmap addr V → option addr.
Hypothesis alloc_fresh : ∀ h a, alloc h = Some a → h !! a = None.
Implicit Types (s : state V) (first result : list ptr) (new : list addr).

Lemma delete_each_run (k : list addr) : ∀ s,
  NoDup k → Forall (fun a => is_Some (heap s !! a)) k →
  delete_each (map Some k) s =
    Ret tt (State (without k (heap s)) (freed s ++ k)).
Proof.
  induction k as [|a k IH]; intros s Hnd Hlive; simpl.
  - rewrite app_nil_r. by destruct s.
  - apply NoDup_cons in Hnd as [Hnotin Hnd].
    apply Forall_cons in Hlive as [Ha Hlive].
    unfold bind. rewrite (delete_live _ _ Ha). rewrite IH; simpl; [|done|].
    + by rewrite <- app_assoc.
    + apply Forall_forall. intros b Hin. rewrite Forall_forall in Hlive.
      rewrite lookup_delete_ne; [by apply Hlive|]. by intros ->.
Qed.

Lemma transform_new_copy_app first1 first2 result s :
  transform_new_copy alloc (first1 ++ first2) result s =
    match transform_new_copy alloc first1 result s with
    | (result1, Ret _ s1) => transform_new_copy alloc first2 result1 s1
    | other => other
    end.
Proof.
  revert result s. induction first1 as [|p first1 IH]; intros result s; [done|].
  simpl.
  destruct (bind (assert_nonnull p) _ s) as [q s'|s'|f]; [apply IH|done|done].
Qed.

(** What a run of the transform leaves: the addresses [new] it obtained were
    free, are pairwise different, and hold copies of the source pointees;
    nothing else changed; it stops early exactly when an allocation fails. *)
Lemma transform_new_copy_run first : ∀ result s,
  Forall (live s) first →
  ∃ new s1 o,
    transform_new_copy alloc first result s = (result ++ map Some new, o) ∧
    NoDup new ∧
    (∀ a, a ∈ new → heap s !! a = None) ∧
    freed s1 = freed s ∧
    (∀ a, a ∉ new → heap s1 !! a = heap s !! a) ∧
    (∀ i a, new !! i = Some a →
       ∃ p, first !! i = Some p ∧ heap s1 !! a = pointee s p) ∧
    ((o = Ret tt s1 ∧ length new = length first) ∨
     (o = Throw s1 ∧ length new < length first ∧ alloc (heap s1) = None)).
Proof.
  induction first as [|p first IH]; intros result s Hlive.
  - exists [], s, (Ret tt s). simpl. rewrite app_nil_r.
    split_and!; try done.
    + constructor.
    + intros a Ha. by apply elem_of_nil in Ha.
    + by left.
  - apply Forall_cons in Hlive as [[v Hv] Hlive].
    destruct p as [b|]; [simpl in Hv|done].
    simpl. unfold bind. simpl. rewrite Hv. unfold new_.
    destruct (alloc (heap s)) as [a|] eqn:Ha.
    + pose proof (alloc_fresh _ _ Ha) as Hfresh.
      set (s0 := State (<[a:=v]> (heap s)) (freed s)).
      assert (∀ q, live s q → pointee s0 q = pointee s q) as Hkeep.
      { intros [c|] [w Hw]; [simpl in *|done].
        rewrite lookup_insert_ne; [done|]. intros ->. congruence. }
      destruct (IH (result ++ [Some a]) s0) as (new & s1 & o & Hrun & Hnd &
        Hfr & Hfreed & Hframe & Hval & Hend).
      { eapply Forall_impl; [exact Hlive|]. intros q Hq.
        unfold live. rewrite Hkeep; done. }
      assert (a ∉ new) as Hanew.
      { intros Hin. apply Hfr in Hin. simpl in Hin.
        by rewrite lookup_insert_eq in Hin. }
      exists (a :: new), s1, o. split.
      { etrans; [exact Hrun|]. by rewrite <- app_assoc. }
      split; [by constructor|]. split.
      { intros c [->|Hc]%elem_of_cons; [done|].
        apply Hfr in Hc. simpl in Hc.
        destruct (decide (a = c)) as [->|Hne]; [done|].
        by rewrite lookup_insert_ne in Hc. }
      split; [done|]. split.
      { intros c Hc. apply not_elem_of_cons in Hc as [Hca Hc].
        rewrite (Hframe _ Hc). simpl. by rewrite lookup_insert_ne. }
      split.
      { intros [|i] c Hi; simpl in Hi.
        - injection Hi as <-. exists (Some b). split; [done|].
          rewrite (Hframe _ Hanew). simpl. by rewrite lookup_insert_eq.
        - destruct (Hval _ _ Hi) as (q & Hq & Hc). exists q. split; [done|].
          rewrite Hc. apply Hkeep. rewrite Forall_forall in Hlive.
          apply Hlive. by eapply list_elem_of_lookup_2. }
      destruct Hend as [[-> Hlen]|(-> & Hlen & Hfail)].
      * left. split; [done|]. simpl. by rewrite Hlen.
      * right. split; [done|]. split; [simpl; lia|done].
    + exists [], s, (Throw s). simpl. rewrite app_nil_r.
      split_and!; try done.
      * constructor.
      * intros a Ha'. by apply elem_of_nil in Ha'.
      * right. split; [done|]. split; [lia|done].
Qed.
End DeepCopyFacts.

Section DeepCopyContract.
Context {V : Type}.
Variable alloc : gmap addr V → option addr.
Hypothesis alloc_fresh : ∀ h a, alloc h = Some a → h !! a = None.
Implicit Types (s : state V) (first result : list ptr) (new : list addr).

(** The two ways a deep copy ends. *)
Lemma DeepCopyOfRange_run first s :
  Forall (live s) first →
  ∃ new s1,
    NoDup new ∧
    (∀ a, a ∈ new → heap s !! a = None) ∧
    freed s1 = freed s ∧
    (∀ a, a ∉ new → heap s1 !! a = heap s !! a) ∧
    (∀ i a, new !! i = Some a →
       ∃ p, first !! i = Some p ∧ heap s1 !! a = pointee s p) ∧
    ((transform_new_copy alloc first [] s = (map Some new, Ret tt s1) ∧
      length new = length first ∧
      DeepCopyOfRange alloc first s = Ret (map Some new) s1) ∨
     (transform_new_copy alloc first [] s = (map Some new, Throw s1) ∧
      length new < length first ∧ alloc (heap s1) = None ∧
      DeepCopyOfRange alloc first s =
        Throw (State (heap s) (freed s ++ new)))).
Proof.
  intros Hlive.
  destruct (transform_new_copy_run alloc alloc_fresh first [] s Hlive)
    as (new & s1 & o & Hrun & Hnd & Hfr & Hfreed & Hframe & Hval & Hend).
  simpl in Hrun. exists new, s1. split_and!; try done.
  unfold DeepCopyOfRange. rewrite Hrun.
  destruct Hend as [[-> Hlen]|(-> & Hlen & Hfail)]; [by left|right].
  split_and!; try done.
  unfold container_wrapper_dtor. simpl.
  rewrite delete_each_run; [|done|].
  - f_equal. rewrite Hfreed. f_equal. apply map_eq. intros a.
    rewrite lookup_without. destruct (decide (a ∈ new)) as [Hin|Hin].
    + symmetry. by apply Hfr.
    + by apply Hframe.
  - apply Forall_forall. intros a Hin.
    apply list_elem_of_lookup_1 in Hin as [i Hi].
    destruct (Hval _ _ Hi) as (p & Hp & ->).
    rewrite Forall_forall in Hlive. apply Hlive.
    by eapply list_elem_of_lookup_2.
Qed.

(** C2. If the construction of an element fails after [N] elements were
    constructed and appended, the container guard deletes these [N] pointers,
    each once, before the exception leaves [DeepCopyOfRange]: the free store
    is as it was before the call, and no container is returned.  When the
    call returns, the guard was released: nothing was deleted, and the
    container holds one new pointer per source element: the pointers are
    pairwise different, none designates an object that existed before the
    call, each designates a living object with the value of the source
    pointee at its position, and the objects that existed are untouched.
    The call returns whenever no allocation fails. *)
Theorem DeepCopyOfRange_guard_safety first s :
  Forall (live s) first →
  (∀ N appended s1,
     N < length first →
     transform_new_copy alloc (take N first) [] s = (appended, Ret tt s1) →
     alloc (heap s1) = None →
     ∃ new, appended = map Some new ∧ length new = N ∧ NoDup new ∧
       Forall (fun a => is_Some (heap s1 !! a)) new ∧
       DeepCopyOfRange alloc first s =
         Throw (State (heap s) (freed s ++ new))) ∧
  (∀ result s', DeepCopyOfRange alloc first s = Ret result s' →
     length result = length first ∧ freed s' = freed s ∧
     Forall (live s') result ∧
     NoDup result ∧
     (∀ q, q ∈ result → ¬ live s q) ∧
     (∀ i p q, first !! i = Some p → result !! i = Some q →
        pointee s' q = pointee s p) ∧
     (∀ p, live s p → pointee s' p = pointee s p)) ∧
  ((∀ h, is_Some (alloc h)) →
   ∃ result s', DeepCopyOfRange alloc first s = Ret result s') ∧
  (∀ f, DeepCopyOfRange alloc first s ≠ Fault f).
Proof.
  intros Hlive.
  destruct (DeepCopyOfRange_run first s Hlive)
    as (new & s1 & Hnd & Hfr & Hfreed & Hframe & Hval & Hend).
  assert (Forall (fun a => is_Some (heap s1 !! a)) new) as Hnewlive.
  { apply Forall_forall. intros a Hin.
    apply list_elem_of_lookup_1 in Hin as [i Hi].
    destruct (Hval _ _ Hi) as (p & Hp & ->).
    rewrite Forall_forall in Hlive. apply Hlive.
    by eapply list_elem_of_lookup_2. }
  split_and!.
  - intros N appended sN HN HrunN Hfail.
    assert (Forall (live s) (take N first)) as HliveN.
    { rewrite <- (take_drop N first) in Hlive.
      by apply Forall_app in Hlive as [? _]. }
    destruct (transform_new_copy_run alloc alloc_fresh (take N first) [] s HliveN)
      as (newN & s1' & o & Hrun' & Hnd' & Hfr' & Hfreed' & Hframe' & Hval' & Hend').
    rewrite HrunN in Hrun'. simpl in Hrun'. injection Hrun' as -> <-.
    destruct Hend' as [[[= <-] Hlen']|[? _]]; [|done].
    rewrite length_take in Hlen'.
    assert (Forall (fun a => is_Some (heap sN !! a)) newN) as HliveNew.
    { apply Forall_forall. intros a Hin.
      apply list_elem_of_lookup_1 in Hin as [i Hi].
      destruct (Hval' _ _ Hi) as (p & Hp & ->).
      rewrite Forall_forall in HliveN. apply HliveN.
      by eapply list_elem_of_lookup_2. }
    exists newN. split_and!; [done|lia|done|done|].
    destruct (lookup_lt_is_Some_2 first N HN) as [x Hx].
    assert (transform_new_copy alloc first [] s = (map Some newN, Throw sN))
      as Hall.
    { rewrite <- (take_drop N first) at 1. rewrite transform_new_copy_app.
      rewrite HrunN. rewrite (drop_S _ _ _ Hx). simpl.
      rewrite Forall_forall in Hlive.
      destruct (Hlive x) as [v Hv]; [by eapply list_elem_of_lookup_2|].
      destruct x as [b|]; [simpl in Hv|done].
      unfold bind. simpl.
      rewrite Hframe'.
      - rewrite Hv. unfold new_. by rewrite Hfail.
      - intros Hin. apply Hfr' in Hin. congruence. }
    unfold DeepCopyOfRange. rewrite Hall.
    unfold container_wrapper_dtor. simpl.
    rewrite delete_each_run; [|done|done].
    f_equal. rewrite Hfreed'. f_equal. apply map_eq. intros a.
    rewrite lookup_without. destruct (decide (a ∈ newN)) as [Hin|Hin].
    + symmetry. by apply Hfr'.
    + by apply Hframe'.
  - intros result s' Hret.
    destruct Hend as [(_ & Hlen & Hok)|(_ & _ & _ & Hthrow)]; [|congruence].
    rewrite Hok in Hret. injection Hret as <- <-.
    rewrite length_map. split_and!; [done|done| | | | |].
    + apply Forall_fmap. eapply Forall_impl; [exact Hnewlive|].
      by intros a Ha.
    + apply NoDup_fmap; [|done]. by intros ?? [=].
    + intros q Hq [v Hv]. apply list_elem_of_fmap in Hq as (a & -> & Ha).
      simpl in Hv. apply Hfr in Ha. congruence.
    + intros i p q Hp Hq. rewrite list_lookup_fmap in Hq.
      destruct (new !! i) as [a|] eqn:Ha; [|done]. injection Hq as <-.
      destruct (Hval _ _ Ha) as (p' & Hp' & Hv).
      assert (p' = p) as -> by congruence. done.
    + intros [a|] [v Hv]; [simpl in *|done]. apply Hframe.
      intros Hin. apply Hfr in Hin. congruence.
  - intros Htotal.
    destruct Hend as [(_ & _ & Hok)|(_ & _ & Hfail & _)]; [by eauto|].
    destruct (Htotal (heap s1)) as [a Ha]. congruence.
  - intros f. destruct Hend as [(_ & _ & ->)|(_ & _ & _ & ->)]; done.
Qed.
End DeepCopyContract.

Lemma DeepCopyOfRange_guard_safety_witness :
  ∃ new, length new = 2 ∧
    DeepCopyOfRange (bounded_alloc 10) four_sources eight_objects =
      Throw (State (heap eight_objects) (freed eight_objects ++ new)).
Proof.
  destruct (DeepCopyOfRange_guard_safety (bounded_alloc 10)
              (bounded_alloc_fresh 10) four_sources eight_objects)
    as [Hfail _].
  - by_compute.
  - edestruct (Hfail 2) as (new & _ & Hlen & _ & _ & Hthrow).
    + simpl. lia.
    + vm_compute. reflexivity.
    + vm_compute. reflexivity.
    + exists new. split; [exact Hlen|exact Hthrow].
Defined.

Section DeepCopyResult.
Context {V : Type}.
Variable alloc : gmap addr V → option addr.
Hypothesis alloc_fresh : ∀ h a, alloc h = Some a → h !! a = None.
Implicit Types (s : state V) (container result : list ptr).

(** C6. The container [DeepCopy] returns is as long as the source, the
    pointee at each position equals the source pointee at that position
    (which the call left alone), and no pointer of the result is a pointer
    of the source.  It does return whenever no allocation fails. *)
Theorem DeepCopy_equal_pointees_distinct_pointers container s :
  Forall (live s) container →
  (∀ result s', DeepCopy alloc container s = Ret result s' →
     length result = length container ∧
     (∀ i p q, container !! i = Some p → result !! i = Some q →
        live s' q ∧ pointee s' q = pointee s' p ∧
        pointee s' p = pointee s p) ∧
     (∀ p q, p ∈ container → q ∈ result → q ≠ p) ∧
     NoDup result) ∧
  ((∀ h, is_Some (alloc h)) →
   ∃ result s', DeepCopy alloc container s = Ret result s').
Proof.
  intros Hlive. unfold DeepCopy.
  destruct (DeepCopyOfRange_run alloc alloc_fresh container s Hlive)
    as (new & s1 & Hnd & Hfr & Hfreed & Hframe & Hval & Hend).
  assert (∀ p, p ∈ container → pointee s1 p = pointee s p) as Hsrc.
  { intros p Hp. rewrite Forall_forall in Hlive.
    destruct (Hlive p Hp) as [v Hv]. destruct p as [b|]; [simpl in *|done].
    apply Hframe. intros Hin. apply Hfr in Hin. congruence. }
  split.
  - intros result s' Hret.
    destruct Hend as [(_ & Hlen & Hok)|(_ & _ & _ & Hthrow)]; [|congruence].
    rewrite Hok in Hret. injection Hret as <- <-.
    rewrite length_map. split_and!; [done| | |].
    + intros i p q Hp Hq. rewrite list_lookup_fmap in Hq.
      destruct (new !! i) as [a|] eqn:Ha; [|done]. injection Hq as <-.
      destruct (Hval _ _ Ha) as (p' & Hp' & Hv).
      assert (p' = p) as -> by congruence.
      assert (p ∈ container) as Hin by (by eapply list_elem_of_lookup_2).
      rewrite (Hsrc _ Hin). simpl. rewrite Hv. split_and!; [|done|done].
      unfold live. simpl. rewrite Hv.
      rewrite Forall_forall in Hlive. by apply Hlive.
    + intros p q Hp Hq ->. apply list_elem_of_fmap in Hq as (a & -> & Ha).
      rewrite Forall_forall in Hlive. destruct (Hlive _ Hp) as [v Hv].
      simpl in Hv. apply Hfr in Ha. congruence.
    + apply NoDup_fmap; [|done]. intros ?? [=]. done.
  - intros Htotal.
    destruct Hend as [(_ & _ & Hok)|(_ & _ & Hfail & _)]; [eauto|].
    destruct (Htotal (heap s1)) as [a Ha]. congruence.
Qed.
End DeepCopyResult.

Lemma DeepCopy_equal_pointees_distinct_pointers_witness :
  ∃ result s', DeepCopy bump_alloc four_sources eight_objects = Ret result s' ∧
    length result = 4 ∧
    (∀ p q, p ∈ four_sources → q ∈ result → q ≠ p).
Proof.
  destruct (DeepCopy_equal_pointees_distinct_pointers bump_alloc
              bump_alloc_fresh four_sources eight_objects)
    as [Hprop Hret].
  - by_compute.
  - destruct Hret as (result & s' & Hrun).
    + intros h. eexists. reflexivity.
    + exists result, s'. split; [exact Hrun|].
      destruct (Hprop result s' Hrun) as (Hlen & _ & Hne & _).
      split; [exact Hlen|exact Hne].
Defined.

(** ** Copy and ReplaceCopy: values move, pointers stay *)

Section CopyFacts.
Context {V : Type}.
Implicit Types (s : state V) (first pre dst : list ptr).

Lemma pointee_store_ne s a v p :
  p ≠ Some a →
  pointee (State (<[a:=v]> (heap s)) (freed s)) p = pointee s p.
Proof.
  intros Hne. destruct p as [b|]; [simpl|done].
  rewrite lookup_insert_ne; [done|]. by intros ->.
Qed.

Lemma live_store s a v p :
  live s p → live (State (<[a:=v]> (heap s)) (freed s)) p.
Proof.
  destruct p as [b|]; [|done]. unfold live. simpl.
  destruct (decide (a = b)) as [->|Hne].
  - by rewrite lookup_insert_eq.
  - by rewrite lookup_insert_ne.
Qed.

Lemma Copy_run first : ∀ pre dst post s,
  length dst = length first →
  Forall (live s) first → Forall (live s) dst →
  NoDup dst → (∀ p, p ∈ dst → p ∉ first) →
  ∃ s', Copy first (length pre) (pre ++ dst ++ post) s =
          Ret (length pre + length first, pre ++ dst ++ post) s' ∧
    freed s' = freed s ∧
    (∀ i pd pf, dst !! i = Some pd → first !! i = Some pf →
       pointee s' pd = pointee s pf) ∧
    (∀ p, p ∉ dst → pointee s' p = pointee s p).
Proof.
  induction first as [|pf first IH];
    intros pre dst post s Hlen Hsrc Hdst Hnd Hdisj.
  - destruct dst; [|done]. exists s. simpl. rewrite Nat.add_0_r.
    split_and!; done.
  - destruct dst as [|pd dst]; [done|]. simpl in Hlen.
    apply Forall_cons in Hsrc as [[v Hv] Hsrc].
    apply Forall_cons in Hdst as [[w Hw] Hdst].
    apply NoDup_cons in Hnd as [Hpd Hnd].
    destruct pf as [b|]; [simpl in Hv|done].
    destruct pd as [a|]; [simpl in Hw|done].
    set (s1 := State (<[a:=v]> (heap s)) (freed s)).
    destruct (IH (pre ++ [Some a]) dst post s1)
      as (s' & Hrun & Hfreed & Hval & Hframe).
    { lia. }
    { eapply Forall_impl; [exact Hsrc|]. intros p. apply live_store. }
    { eapply Forall_impl; [exact Hdst|]. intros p. apply live_store. }
    { done. }
    { intros p Hp Hin. apply (Hdisj p); [by right|by right]. }
    exists s'. split.
    { simpl. unfold bind. rewrite slot_get_middle. simpl. rewrite Hv.
      unfold store. rewrite Hw. fold s1.
      rewrite length_app, <- app_assoc in Hrun. simpl in Hrun.
      rewrite Nat.add_1_r in Hrun. rewrite Hrun. do 2 f_equal. lia. }
    split; [done|]. split.
    + intros [|i] qd qf Hqd Hqf; simpl in Hqd, Hqf.
      * injection Hqd as <-. injection Hqf as <-.
        rewrite (Hframe _ Hpd). simpl. by rewrite lookup_insert_eq.
      * rewrite (Hval _ _ _ Hqd Hqf). apply pointee_store_ne.
        intros ->. apply (Hdisj (Some a)); [by left|].
        right. by eapply list_elem_of_lookup_2.
    + intros p Hp. apply not_elem_of_cons in Hp as [Hne Hp].
      rewrite (Hframe _ Hp). by apply pointee_store_ne.
Qed.

Lemma ReplaceCopy_as_Copy first dest out s :
  ReplaceCopy first dest out s = Copy first dest out s.
Proof.
  revert dest s. induction first as [|pf first IH]; intros dest s; [done|].
  simpl. unfold bind.
  destruct (slot_get out dest s) as [pd s0|s0|f]; [|done|done].
  destruct (assert_nonnull pd s0) as [[] s1|s1|f]; [|done|done].
  destruct (assert_nonnull pf s1) as [[] s2|s2|f]; [|done|done].
  destruct (load pf s2) as [v s3|s3|f]; [|done|done].
  destruct (store pd v s3) as [[] s4|s4|f]; [|done|done].
  apply IH.
Qed.
End CopyFacts.

(** ** Clone and ReplaceClone: new pointers, equal values *)

Section CloneFacts.
Context {V : Type}.
Variable alloc : gmap addr V → option addr.
Hypothesis alloc_fresh : ∀ h a, alloc h = Some a → h !! a = None.
Implicit Types (s : state V) (first pre dst : list ptr) (new : list addr).

Lemma Clone_run first : ∀ pre dst post s,
  length dst = length first →
  Forall (live s) first → Forall (fun p => p ≠ nullptr) dst →
  ∃ new s1,
    NoDup new ∧
    (∀ a, a ∈ new → heap s !! a = None) ∧
    freed s1 = freed s ∧
    (∀ a, a ∉ new → heap s1 !! a = heap s !! a) ∧
    (∀ i a, new !! i = Some a →
       ∃ p, first !! i = Some p ∧ heap s1 !! a = pointee s p) ∧
    ((length new = length first ∧
      Clone alloc (apart first) (length pre) (pre ++ dst ++ post) s =
        Ret (length pre + length first, pre ++ map Some new ++ post) s1) ∨
     (length new < length first ∧ alloc (heap s1) = None ∧
      Clone alloc (apart first) (length pre) (pre ++ dst ++ post) s = Throw s1)).
Proof.
  induction first as [|pf first IH]; intros pre dst post s Hlen Hsrc Hdst.
  - destruct dst; [|done]. exists [], s. simpl. rewrite Nat.add_0_r.
    split_and!; try done.
    + constructor.
    + intros a Ha. by apply elem_of_nil in Ha.
    + by left.
  - destruct dst as [|pd dst]; [done|]. simpl in Hlen.
    apply Forall_cons in Hsrc as [[v Hv] Hsrc].
    apply Forall_cons in Hdst as [Hpd Hdst].
    destruct pf as [b|]; [simpl in Hv|done].
    destruct pd as [c|]; [|done].
    simpl. unfold bind at 1. rewrite slot_get_middle. simpl.
    unfold Clone_, bind. simpl. rewrite Hv. unfold new_.
    destruct (alloc (heap s)) as [a|] eqn:Ha.
    + pose proof (alloc_fresh _ _ Ha) as Hfresh.
      rewrite slot_set_middle. simpl.
      set (s0 := State (<[a:=v]> (heap s)) (freed s)).
      assert (∀ q, live s q → pointee s0 q = pointee s q) as Hkeep.
      { intros q [w Hw]. apply pointee_store_ne. intros ->.
        simpl in Hw. congruence. }
      destruct (IH (pre ++ [Some a]) dst post s0) as (new & s1 & Hnd & Hfr &
        Hfreed & Hframe & Hval & Hend).
      { lia. }
      { eapply Forall_impl; [exact Hsrc|]. intros q. apply live_store. }
      { done. }
      assert (a ∉ new) as Hanew.
      { intros Hin. apply Hfr in Hin. simpl in Hin.
        by rewrite lookup_insert_eq in Hin. }
      exists (a :: new), s1. split; [by constructor|]. split.
      { intros c' [->|Hc]%elem_of_cons; [done|].
        apply Hfr in Hc. simpl in Hc.
        destruct (decide (a = c')) as [->|Hne]; [done|].
        by rewrite lookup_insert_ne in Hc. }
      split; [done|]. split.
      { intros c' Hc. apply not_elem_of_cons in Hc as [Hca Hc].
        rewrite (Hframe _ Hc). simpl. by rewrite lookup_insert_ne. }
      split.
      { intros [|i] c' Hi; simpl in Hi.
        - injection Hi as <-. exists (Some b). split; [done|].
          rewrite (Hframe _ Hanew). simpl. by rewrite lookup_insert_eq.
        - destruct (Hval _ _ Hi) as (q & Hq & Hc). exists q. split; [done|].
          rewrite Hc. apply Hkeep. rewrite Forall_forall in Hsrc.
          apply Hsrc. by eapply list_elem_of_lookup_2. }
      rewrite length_app, <- app_assoc in Hend. simpl in Hend.
      rewrite Nat.add_1_r in Hend.
      destruct Hend as [[Hl Hrun]|(Hl & Hfail & Hrun)].
      * left. split; [simpl; lia|]. rewrite Hrun. simpl.
        f_equal. f_equal; [lia|by rewrite <- app_assoc].
      * right. split; [simpl; lia|]. done.
    + exists [], s. split_and!; try done.
      * constructor.
      * intros a Ha'. by apply elem_of_nil in Ha'.
      * right. split; [simpl; lia|]. done.
Qed.

Lemma ReplaceClone_run first : ∀ pre dst post s,
  length dst = length first →
  Forall (live s) first → Forall (live s) dst →
  NoDup dst → (∀ p, p ∈ dst → p ∉ first) →
  ∃ new s1,
    NoDup new ∧
    (∀ a, a ∈ new → heap s !! a = None ∨ Some a ∈ dst) ∧
    (∀ a, a ∉ new → Some a ∉ dst → heap s1 !! a = heap s !! a) ∧
    (∀ i a, new !! i = Some a →
       ∃ p, first !! i = Some p ∧ heap s1 !! a = pointee s p) ∧
    ((length new = length first ∧ freed s1 = freed s ++ addrs dst ∧
      ReplaceClone alloc (apart first) (length pre) (pre ++ dst ++ post) s =
        Ret (length pre + length first, pre ++ map Some new ++ post) s1) ∨
     (length new < length first ∧ alloc (heap s1) = None ∧
      ReplaceClone alloc (apart first) (length pre) (pre ++ dst ++ post) s = Throw s1)).
Proof.
  induction first as [|pf first IH];
    intros pre dst post s Hlen Hsrc Hdst Hnd Hdisj.
  - destruct dst; [|done]. exists [], s. simpl.
    rewrite Nat.add_0_r, app_nil_r.
    split_and!; try done.
    + constructor.
    + intros a Ha. by apply elem_of_nil in Ha.
    + by left.
  - destruct dst as [|pd dst]; [done|]. simpl in Hlen.
    apply Forall_cons in Hsrc as [[v Hv] Hsrc].
    apply Forall_cons in Hdst as [[w Hw] Hdst].
    apply NoDup_cons in Hnd as [Hpd Hnd].
    destruct pf as [b|]; [simpl in Hv|done].
    destruct pd as [c|]; [simpl in Hw|done].
    assert (b ≠ c) as Hbc.
    { intros ->. apply (Hdisj (Some c)); by left. }
    assert (∀ q, q ∈ first → q ≠ Some c) as Hfirstc.
    { intros q Hq ->. apply (Hdisj (Some c)); [by left|by right]. }
    assert (∀ q, q ∈ dst → q ≠ Some c) as Hdstc.
    { intros q Hq ->. done. }
    assert (ReplaceClone alloc (apart (Some b :: first)) (length pre)
              (pre ++ Some c :: dst ++ post) s =
            match alloc (delete c (heap s)) with
            | Some a =>
                ReplaceClone alloc (apart first) (S (length pre))
                  (pre ++ Some a :: dst ++ post)
                  (State (<[a:=v]> (delete c (heap s))) (freed s ++ [c]))
            | None => Throw (State (delete c (heap s)) (freed s ++ [c]))
            end) as Hstep.
    { simpl. unfold bind at 1. rewrite slot_get_middle.
      unfold Clone_, bind, ret, delete_, load, new_. simpl.
      rewrite Hw. simpl. rewrite lookup_delete_ne by done. rewrite Hv.
      simpl. destruct (alloc (delete c (heap s))); [|done].
      by rewrite slot_set_middle. }
    destruct (alloc (delete c (heap s))) as [a|] eqn:Ha.
    + pose proof (alloc_fresh _ _ Ha) as Hfresh.
      set (s0 := State (<[a:=v]> (delete c (heap s))) (freed s ++ [c])).
      assert (∀ q, live s q → q ≠ Some c → pointee s0 q = pointee s q)
        as Hkeep.
      { intros [d|] [x Hx] Hqc; [simpl in *|done].
        assert (d ≠ c) by congruence.
        rewrite lookup_insert_ne.
        - by rewrite lookup_delete_ne.
        - intros ->. rewrite lookup_delete_ne in Hfresh by done. congruence. }
      assert (∀ q, live s q → q ≠ Some c → live s0 q) as Hkeeplive.
      { intros q Hq Hqc. unfold live. by rewrite Hkeep. }
      destruct (IH (pre ++ [Some a]) dst post s0) as (new & s1 & Hnd' & Hfr &
        Hframe & Hval & Hend).
      { lia. }
      { apply Forall_forall. intros q Hq. rewrite Forall_forall in Hsrc.
        apply Hkeeplive; [by apply Hsrc|by apply Hfirstc]. }
      { apply Forall_forall. intros q Hq. rewrite Forall_forall in Hdst.
        apply Hkeeplive; [by apply Hdst|by apply Hdstc]. }
      { done. }
      { intros q Hq Hin. apply (Hdisj q); [by right|by right]. }
      assert (Some a ∉ dst) as Hadst.
      { intros Hin. rewrite Forall_forall in Hdst.
        destruct (Hdst _ Hin) as [x Hx]. simpl in Hx.
        assert (a ≠ c) by (intros ->; done).
        rewrite lookup_delete_ne in Hfresh by done. congruence. }
      assert (a ∉ new) as Hanew.
      { intros Hin. apply Hfr in Hin as [Hin|Hin]; [|done].
        simpl in Hin. by rewrite lookup_insert_eq in Hin. }
      exists (a :: new), s1. split; [by constructor|]. split.
      { intros x [->|Hx]%elem_of_cons.
        - destruct (decide (a = c)) as [->|Hne]; [right; by left|left].
          by rewrite lookup_delete_ne in Hfresh.
        - apply Hfr in Hx as [Hx|Hx]; [|right; by right].
          simpl in Hx. destruct (decide (a = x)) as [->|Hax].
          { by rewrite lookup_insert_eq in Hx. }
          rewrite lookup_insert_ne in Hx by done.
          destruct (decide (x = c)) as [->|Hne]; [right; by left|left].
          by rewrite lookup_delete_ne in Hx. }
      split.
      { intros x Hx Hxd. apply not_elem_of_cons in Hx as [Hxa Hx].
        apply not_elem_of_cons in Hxd as [Hxc Hxd].
        rewrite (Hframe _ Hx Hxd). simpl.
        rewrite lookup_insert_ne by done.
        rewrite lookup_delete_ne; [done|]. congruence. }
      split.
      { intros [|i] x Hi; simpl in Hi.
        - injection Hi as <-. exists (Some b). split; [done|].
          rewrite (Hframe _ Hanew Hadst). simpl. by rewrite lookup_insert_eq.
        - destruct (Hval _ _ Hi) as (q & Hq & Hx). exists q. split; [done|].
          rewrite Hx. assert (q ∈ first) by (by eapply list_elem_of_lookup_2).
          apply Hkeep; [|by apply Hfirstc].
          rewrite Forall_forall in Hsrc. by apply Hsrc. }
      rewrite length_app, <- app_assoc in Hend. simpl in Hend.
      rewrite Nat.add_1_r in Hend.
      destruct Hend as [(Hl & Hfreed & Hrun)|(Hl & Hfail & Hrun)].
      * left. split; [simpl; lia|]. split.
        { rewrite Hfreed. simpl. by rewrite <- app_assoc. }
        etrans; [exact Hstep|]. etrans; [exact Hrun|]. simpl.
        f_equal. f_equal; [lia|by rewrite <- app_assoc].
      * right. split; [simpl; lia|]. split; [done|].
        etrans; [exact Hstep|]. exact Hrun.
    + exists [], (State (delete c (heap s)) (freed s ++ [c])).
      split_and!; try done.
      * constructor.
      * intros a Ha'. by apply elem_of_nil in Ha'.
      * intros a _ Hc. apply not_elem_of_cons in Hc as [Hc _]. simpl.
        rewrite lookup_delete_ne; [done|]. congruence.
      * right. split; [simpl; lia|]. done.
Qed.
End CloneFacts.

Section ValueVersusIdentity.
Context {V : Type}.
Variable alloc : gmap addr V → option addr.
Hypothesis alloc_fresh : ∀ h a, alloc h = Some a → h !! a = None.
Implicit Types (s : state V) (first dst out : list ptr).

Lemma Copy_values first dst s :
  length dst = length first →
  Forall (live s) first → Forall (live s) dst →
  NoDup dst → (∀ p, p ∈ dst → p ∉ first) →
  ∃ s', Copy first 0 dst s = Ret (length first, dst) s' ∧
    freed s' = freed s ∧
    ∀ i pd pf, dst !! i = Some pd → first !! i = Some pf →
      live s' pd ∧ pointee s' pd = pointee s' pf ∧
      pointee s' pf = pointee s pf.
Proof.
  intros Hlen Hsrc Hdst Hnd Hdisj.
  destruct (Copy_run first [] dst [] s Hlen Hsrc Hdst Hnd Hdisj)
    as (s' & Hrun & Hfreed & Hval & Hframe).
  simpl in Hrun. rewrite app_nil_r in Hrun.
  exists s'. split; [exact Hrun|]. split; [exact Hfreed|].
  intros i pd pf Hpd Hpf.
  assert (pf ∉ dst) as Hpfd.
  { intros Hin. apply (Hdisj pf Hin). by eapply list_elem_of_lookup_2. }
  rewrite (Hframe _ Hpfd). rewrite (Hval _ _ _ Hpd Hpf).
  split_and!; try done. unfold live. rewrite (Hval _ _ _ Hpd Hpf).
  rewrite Forall_forall in Hsrc. apply Hsrc. by eapply list_elem_of_lookup_2.
Qed.

Lemma Clone_values first dst s d out s' :
  length dst = length first →
  Forall (live s) first → Forall (fun p => p ≠ nullptr) dst →
  Clone alloc (apart first) 0 dst s = Ret (d, out) s' →
  d = length first ∧ length out = length dst ∧ NoDup out ∧
  freed s' = freed s ∧
  (∀ q, q ∈ out → q ≠ nullptr ∧ ¬ live s q) ∧
  ∀ i q pf, out !! i = Some q → first !! i = Some pf →
    live s' q ∧ pointee s' q = pointee s' pf ∧
    pointee s' pf = pointee s pf ∧ q ≠ pf.
Proof.
  intros Hlen Hsrc Hdst Hret.
  destruct (Clone_run alloc alloc_fresh first [] dst [] s Hlen Hsrc Hdst)
    as (new & s1 & Hnd & Hfr & Hfreed & Hframe & Hval & Hend).
  simpl in Hend. rewrite !app_nil_r in Hend.
  destruct Hend as [[Hl Hrun]|(_ & _ & Hrun)]; [|congruence].
  rewrite Hrun in Hret. injection Hret as <- <- <-.
  rewrite length_map. split_and!; [done|lia| |done| |].
  { apply NoDup_fmap; [|done]. by intros ?? [=]. }
  { intros q Hq. apply list_elem_of_fmap in Hq as (a & -> & Ha).
    split; [done|]. intros [x Hx]. simpl in Hx. apply Hfr in Ha.
    congruence. }
  intros i q pf Hq Hpf. rewrite list_lookup_fmap in Hq.
  destruct (new !! i) as [a|] eqn:Ha; [|done]. injection Hq as <-.
  destruct (Hval _ _ Ha) as (p' & Hp' & Hv).
  assert (p' = pf) as -> by congruence.
  assert (live s pf) as Hpflive.
  { rewrite Forall_forall in Hsrc. apply Hsrc.
    by eapply list_elem_of_lookup_2. }
  assert (Hin : a ∈ new) by (by eapply list_elem_of_lookup_2).
  assert (pf ≠ Some a) as Hne.
  { intros ->. destruct Hpflive as [x Hx]. simpl in Hx.
    apply Hfr in Hin. congruence. }
  assert (pointee s1 pf = pointee s pf) as Hsame.
  { destruct pf as [b|]; [simpl|done]. apply Hframe.
    intros Hb. apply Hfr in Hb. destruct Hpflive as [x Hx]. simpl in Hx.
    congruence. }
  rewrite Hsame. unfold live. simpl. rewrite Hv. done.
Qed.

Lemma ReplaceClone_values first dst s d out s' :
  length dst = length first →
  Forall (live s) first → Forall (live s) dst →
  NoDup dst → (∀ p, p ∈ dst → p ∉ first) →
  ReplaceClone alloc (apart first) 0 dst s = Ret (d, out) s' →
  d = length first ∧ length out = length dst ∧ NoDup out ∧
  freed s' = freed s ++ addrs dst ∧
  (∀ q, q ∈ out → q ≠ nullptr ∧ (q ∉ first) ∧ (¬ live s q ∨ q ∈ dst)) ∧
  ∀ i q pf, out !! i = Some q → first !! i = Some pf →
    live s' q ∧ pointee s' q = pointee s' pf ∧
    pointee s' pf = pointee s pf ∧ q ≠ pf.
Proof.
  intros Hlen Hsrc Hdst Hndd Hdisj Hret.
  destruct (ReplaceClone_run alloc alloc_fresh first [] dst [] s Hlen Hsrc
              Hdst Hndd Hdisj)
    as (new & s1 & Hnd & Hfr & Hframe & Hval & Hend).
  simpl in Hend. rewrite !app_nil_r in Hend.
  destruct Hend as [(Hl & Hfreed & Hrun)|(_ & _ & Hrun)]; [|congruence].
  rewrite Hrun in Hret. injection Hret as <- <- <-.
  assert (∀ b, Some b ∈ first → b ∉ new) as Hpfnew.
  { intros b Hb Hin. apply Hfr in Hin as [Hin|Hin].
    - rewrite Forall_forall in Hsrc. destruct (Hsrc _ Hb) as [x Hx].
      simpl in Hx. congruence.
    - by apply (Hdisj _ Hin). }
  rewrite length_map. split_and!; [done|lia| |done| |].
  { apply NoDup_fmap; [|done]. by intros ?? [=]. }
  { intros q Hq. apply list_elem_of_fmap in Hq as (a & -> & Ha).
    split_and!; [done| |].
    - intros Hin. by apply (Hpfnew a).
    - apply Hfr in Ha as [Ha|Ha]; [left|by right].
      intros [x Hx]. simpl in Hx. congruence. }
  intros i q pf Hq Hpf. rewrite list_lookup_fmap in Hq.
  destruct (new !! i) as [a|] eqn:Ha; [|done]. injection Hq as <-.
  destruct (Hval _ _ Ha) as (p' & Hp' & Hv).
  assert (p' = pf) as -> by congruence.
  assert (Hpfin : pf ∈ first) by (by eapply list_elem_of_lookup_2).
  assert (live s pf) as Hpflive.
  { rewrite Forall_forall in Hsrc. by apply Hsrc. }
  assert (pf ∉ dst) as Hpfd.
  { intros Hin. by apply (Hdisj pf Hin). }
  assert (pf ≠ Some a) as Hne.
  { intros ->. apply (Hpfnew a); [done|]. by eapply list_elem_of_lookup_2. }
  assert (pointee s1 pf = pointee s pf) as Hsame.
  { destruct pf as [b|]; [simpl|done]. apply Hframe; [by apply Hpfnew|done]. }
  rewrite Hsame. unfold live. simpl. rewrite Hv. done.
Qed.

(** The order of [ReplaceClone], delete the destination object and then
    clone the source object, rules out replacing a range by copies of
    itself: with the source range being the destination range, the object
    to clone is the object just deleted. *)
Lemma ReplaceClone_in_place_dangles a v rest n s :
  heap s !! a = Some v →
  ReplaceClone alloc (within 0 (S n)) 0 (Some a :: rest) s = Fault Dangling.
Proof.
  intros Ha. simpl. unfold bind, slot_get, Clone_, bind, load, delete_.
  simpl. rewrite Ha. simpl. by rewrite lookup_delete_eq.
Qed.

(** C5, with the separation it needs.  Equally long source and destination
    ranges, the source pointers designating living objects and the source
    lying in a container of its own.
    When the destination pointers designate living objects, are pairwise
    different and none of them is a source pointer: [Copy] and [ReplaceCopy]
    leave every destination slot as it was and delete nothing, and the
    pointee of each destination slot becomes equal to the corresponding
    source pointee; [ReplaceClone] deletes the objects the destination
    held, each once, and stores in each slot a pointer that is no source
    pointer, designates a living object equal to the corresponding source
    pointee and sits at an address that was free before the call or was
    freed by it; the pointers written are pairwise different.
    When the destination pointers are merely not null: [Clone] deletes
    nothing and stores in each slot a pointer to an object that did not
    exist before the call, equal to the corresponding source pointee; the
    pointers written are pairwise different and differ from the source
    pointers.
    The source pointees are left alone, and [Clone] and [ReplaceClone]
    return whenever no allocation fails. *)
Theorem value_versus_identity first dst s :
  length dst = length first → Forall (live s) first →
  (Forall (live s) dst → NoDup dst → (∀ p, p ∈ dst → p ∉ first) →
   (∃ s', Copy first 0 dst s = Ret (length first, dst) s' ∧
      freed s' = freed s ∧
      ∀ i pd pf, dst !! i = Some pd → first !! i = Some pf →
        live s' pd ∧ pointee s' pd = pointee s' pf ∧
        pointee s' pf = pointee s pf) ∧
   (∃ s', ReplaceCopy first 0 dst s = Ret (length first, dst) s' ∧
      freed s' = freed s ∧
      ∀ i pd pf, dst !! i = Some pd → first !! i = Some pf →
        live s' pd ∧ pointee s' pd = pointee s' pf ∧
        pointee s' pf = pointee s pf) ∧
   (∀ d out s', ReplaceClone alloc (apart first) 0 dst s = Ret (d, out) s' →
      d = length first ∧ length out = length dst ∧ NoDup out ∧
      freed s' = freed s ++ addrs dst ∧
      (∀ q, q ∈ out → q ≠ nullptr ∧ (q ∉ first) ∧ (¬ live s q ∨ q ∈ dst)) ∧
      ∀ i q pf, out !! i = Some q → first !! i = Some pf →
        live s' q ∧ pointee s' q = pointee s' pf ∧
        pointee s' pf = pointee s pf ∧ q ≠ pf) ∧
   ((∀ h, is_Some (alloc h)) →
    ∃ r s', ReplaceClone alloc (apart first) 0 dst s = Ret r s')) ∧
  (Forall (fun p => p ≠ nullptr) dst →
   (∀ d out s', Clone alloc (apart first) 0 dst s = Ret (d, out) s' →
      d = length first ∧ length out = length dst ∧ NoDup out ∧
      freed s' = freed s ∧
      (∀ q, q ∈ out → q ≠ nullptr ∧ ¬ live s q) ∧
      ∀ i q pf, out !! i = Some q → first !! i = Some pf →
        live s' q ∧ pointee s' q = pointee s' pf ∧
        pointee s' pf = pointee s pf ∧ q ≠ pf) ∧
   ((∀ h, is_Some (alloc h)) →
    ∃ r s', Clone alloc (apart first) 0 dst s = Ret r s')).
Proof.
  intros Hlen Hsrc. split.
  - intros Hdst Hnd Hdisj. split_and!.
    + by apply Copy_values.
    + setoid_rewrite ReplaceCopy_as_Copy. by apply Copy_values.
    + intros d out s'. by apply ReplaceClone_values.
    + intros Htotal.
      destruct (ReplaceClone_run alloc alloc_fresh first [] dst [] s Hlen
                  Hsrc Hdst Hnd Hdisj) as (new & s1 & _ & _ & _ & _ & Hend).
      simpl in Hend. rewrite !app_nil_r in Hend.
      destruct Hend as [(_ & _ & Hrun)|(_ & Hfail & _)]; [eauto|].
      destruct (Htotal (heap s1)). congruence.
  - intros Hdst. split.
    + intros d out s'. by apply Clone_values.
    + intros Htotal.
      destruct (Clone_run alloc alloc_fresh first [] dst [] s Hlen Hsrc Hdst)
        as (new & s1 & _ & _ & _ & _ & _ & Hend).
      simpl in Hend. rewrite !app_nil_r in Hend.
      destruct Hend as [[_ Hrun]|(_ & Hfail & _)]; [eauto|].
      destruct (Htotal (heap s1)). congruence.
Qed.
End ValueVersusIdentity.

Lemma value_versus_identity_witness :
  (∃ s', Copy four_sources 0 four_targets eight_objects =
           Ret (4, four_targets) s') ∧
  (∃ r s', ReplaceClone bump_alloc (apart four_sources) 0 four_targets
             eight_objects = Ret r s') ∧
  (∃ r s', Clone bump_alloc (apart four_sources) 0 four_targets
             eight_objects = Ret r s').
Proof.
  destruct (value_versus_identity bump_alloc bump_alloc_fresh
              four_sources four_targets eight_objects)
    as [Howned Hany].
  - reflexivity.
  - by_compute.
  - destruct Howned as ((s' & Hcopy & _) & _ & _ & Hret).
    + by_compute.
    + by_compute.
    + intros p Hp Hin. revert Hp. apply (bool_decide_unpack _).
      revert p Hin. apply Forall_forall. by_compute.
    + split; [exists s'; exact Hcopy|]. split.
      * apply Hret. intros h. eexists. reflexivity.
      * destruct Hany as [_ Hclone]; [by_compute|].
        apply Hclone. intros h. eexists. reflexivity.
Defined.

(** C5 as stated fails: equal length and non-null pointers are not enough.
    With the objects 1, 2, 3 (holding 1, 2, 3) as source and the same
    objects in the order 3, 1, 2 as destination, [Copy] leaves the
    destination pointees 1, 2, 1: they are neither the source pointees
    before the call (1, 2, 3) nor those after it (2, 1, 1).  With one object
    in both slots of the destination, the two destination pointees are
    equal whatever the two source pointees are. *)
Lemma Copy_between_ranges_that_share :
  (∃ s', Copy three_slots 0 [Some 3; Some 1; Some 2]
           (store_of [(1, 1%Z); (2, 2%Z); (3, 3%Z)]) =
           Ret (3, [Some 3; Some 1; Some 2]) s' ∧
     pointees s' [Some 3; Some 1; Some 2] = [Some 1; Some 2; Some 1]%Z ∧
     pointees (store_of [(1, 1%Z); (2, 2%Z); (3, 3%Z)]) three_slots =
       [Some 1; Some 2; Some 3]%Z ∧
     pointees s' three_slots = [Some 2; Some 1; Some 1]%Z) ∧
  (∃ s', Copy [Some 1; Some 2] 0 [Some 3; Some 3]
           (store_of [(1, 1%Z); (2, 2%Z); (3, 3%Z)]) =
           Ret (2, [Some 3; Some 3]) s' ∧
     pointees s' [Some 3; Some 3] = [Some 2; Some 2]%Z ∧
     pointees s' [Some 1; Some 2] = [Some 1; Some 2]%Z).
Proof.
  split; eexists; (split; [vm_compute; reflexivity|by vm_compute]).
Qed.

(** Source and destination in one container, the destination one slot
    ahead of the source: the second iteration reads the slot the first one
    wrote, and clones the clone.  From the pointees 1, 2, 3 both algorithms
    make 1, 1, 1 in three different objects; [Clone] abandons the objects
    that held 2 and 3, [ReplaceClone] deletes them. *)
Lemma cloning_into_the_next_slot :
  (∃ out s', Clone bump_alloc (within 0 2) 1 three_slots
               (store_of [(1, 1%Z); (2, 2%Z); (3, 3%Z)]) = Ret (3, out) s' ∧
     pointees s' out = [Some 1; Some 1; Some 1]%Z ∧ NoDup out ∧
     freed s' = [] ∧ pointees s' three_slots = [Some 1; Some 2; Some 3]%Z) ∧
  (∃ out s', ReplaceClone bump_alloc (within 0 2) 1 three_slots
               (store_of [(1, 1%Z); (2, 2%Z); (3, 3%Z)]) = Ret (3, out) s' ∧
     pointees s' out = [Some 1; Some 1; Some 1]%Z ∧ NoDup out ∧
     freed s' = [2; 3]).
Proof.
  split; eexists _, _; (split; [vm_compute; reflexivity|]).
  - split_and!; [by vm_compute|by_compute|by vm_compute|by vm_compute].
  - split_and!; [by vm_compute|by_compute|by vm_compute].
Qed.

(** ** Remove and RemoveIf *)

Section RemoveFacts.
Context {V : Type} `{EqualityComparable V}.
Implicit Types (s : state V) (c K J R : list ptr) (pred : V → bool).

Lemma filter_ext_elem {A} (P Q : A → Prop)
    `{∀ x, Decision (P x)} `{∀ x, Decision (Q x)} (l : list A) :
  (∀ x, x ∈ l → (P x ↔ Q x)) → filter P l = filter Q l.
Proof.
  induction l as [|x l IH]; intros Hext; [done|].
  rewrite !filter_cons. rewrite IH.
  - destruct (decide (P x)) as [HP|HP], (decide (Q x)) as [HQ|HQ];
      try done; exfalso; apply (Hext x) in HP || apply (Hext x) in HQ;
      try done; by left.
  - intros y Hy. apply Hext. by right.
Qed.

Lemma holds_true pred s a v :
  heap s !! a = Some v → holds pred s (Some a) = pred v.
Proof. intros Hv. unfold holds. simpl. by rewrite Hv. Qed.

Lemma pointee_delete_ne s a p :
  p ≠ Some a →
  pointee (State (delete a (heap s)) (freed s ++ [a])) p = pointee s p.
Proof.
  intros Hne. destruct p as [b|]; [simpl|done].
  rewrite lookup_delete_ne; [done|]. by intros ->.
Qed.

Lemma Remove_as_RemoveIf n : ∀ first result c value s,
  Remove_loop n first result c (outside value) s =
  RemoveIf_loop n first result c value (fun x => equal_to x value) s.
Proof.
  induction n as [|n IH]; intros first result c value s; [done|].
  simpl. unfold bind.
  destruct (slot_get c first s) as [pf s0|s0|f]; [|done|done].
  destruct (load pf s0) as [x s1|s1|f]; [|done|done].
  simpl.
  destruct (negb (equal_to x value)).
  - destruct (slot_set c result pf s1) as [c' s2|s2|f]; [|done|done].
    apply IH.
  - destruct (delete_ pf s1) as [[] s2|s2|f]; [|done|done].
    destruct (slot_set c first nullptr s2) as [c' s3|s3|f]; [|done|done].
    apply IH.
Qed.

Lemma Remove_loop_split value n m : ∀ first result c s,
  Remove_loop (n + m) first result c value s =
    match Remove_loop n first result c value s with
    | Ret (r, c') s' => Remove_loop m (first + n) r c' value s'
    | Throw s' => Throw s'
    | Fault f => Fault f
    end.
Proof.
  induction n as [|n IH]; intros first result c s.
  - simpl. by rewrite Nat.add_0_r.
  - simpl. unfold bind.
    destruct (slot_get c first s) as [pf s0|s0|f]; [|done|done].
    destruct (load pf s0) as [x s1|s1|f]; [|done|done].
    destruct (deref value s1) as [v s1'|s1'|f]; [|done|done].
    destruct (negb (equal_to x v)).
    + destruct (slot_set c result pf s1') as [c' s2|s2|f]; [|done|done].
      rewrite IH. by replace (S first + n) with (first + S n) by lia.
    + destruct (delete_ pf s1') as [[] s2|s2|f]; [|done|done].
      destruct (slot_set c first nullptr s2) as [c' s3|s3|f]; [|done|done].
      rewrite IH. by replace (S first + n) with (first + S n) by lia.
Qed.

(** A reference to a living object of the free store that no slot still to
    be visited points to is as good as its value. *)
Lemma Remove_inside_as_RemoveIf a v n : ∀ first result c s,
  heap s !! a = Some v → result ≤ first →
  (∀ i, first ≤ i → i < first + n → c !! i ≠ Some (Some a)) →
  Remove_loop n first result c (inside a) s =
  RemoveIf_loop n first result c v (fun x => equal_to x v) s.
Proof.
  induction n as [|n IH]; intros first result c s Ha Hle Hnot; [done|].
  simpl. unfold bind, slot_get, deref, load, ret, raise.
  destruct (c !! first) as [[b|]|] eqn:Hpf; simpl; [|done|done].
  destruct (heap s !! b) as [x|] eqn:Hx; simpl; [|done].
  rewrite Ha.
  assert (b ≠ a) as Hba.
  { intros ->. apply (Hnot first); [lia|lia|done]. }
  destruct (negb (equal_to x v)); simpl.
  - unfold slot_set, ret, raise. case_decide; simpl; [|done].
    apply IH; [done|lia|].
    intros i Hi1 Hi2. rewrite list_lookup_insert_ne by lia.
    apply Hnot; lia.
  - rewrite Hx. simpl. unfold slot_set, ret, raise.
    case_decide; simpl; [|done].
    apply IH; [simpl; by rewrite lookup_delete_ne|lia|].
    intros i Hi1 Hi2. rewrite list_lookup_insert_ne by lia.
    apply Hnot; lia.
Qed.

Lemma RemoveIf_loop_split {T} (value : T) pred n m : ∀ first result c s,
  RemoveIf_loop (n + m) first result c value pred s =
  match RemoveIf_loop n first result c value pred s with
  | Ret (r, c') s' => RemoveIf_loop m (first + n) r c' value pred s'
  | Throw s' => Throw s'
  | Fault f => Fault f
  end.
Proof.
  induction n as [|n IH]; intros first result c s.
  - simpl. by rewrite Nat.add_0_r.
  - simpl. unfold bind.
    destruct (slot_get c first s) as [pf s0|s0|f]; [|done|done].
    destruct (load pf s0) as [x s1|s1|f]; [|done|done].
    replace (first + S n) with (S first + n) by lia.
    destruct (negb (pred x)).
    + destruct (slot_set c result pf s1) as [c' s2|s2|f]; [|done|done].
      apply IH.
    + destruct (delete_ pf s1) as [[] s2|s2|f]; [|done|done].
      destruct (slot_set c first nullptr s2) as [c' s3|s3|f]; [|done|done].
      apply IH.
Qed.

(** The loop invariant.  The container is [K ++ J ++ R1 ++ R2]: [K] are the
    slots kept so far, [J] the slots left behind them, [R1] the slots the
    next [length R1] iterations visit. *)
Lemma RemoveIf_loop_run {T} (value : T) pred R1 : ∀ K J R2 s,
  Forall (live s) R1 → NoDup R1 →
  ∃ J',
    RemoveIf_loop (length R1) (length K + length J) (length K)
        (K ++ J ++ R1 ++ R2) value pred s =
      Ret (length K + length (kept pred s R1),
           K ++ kept pred s R1 ++ J' ++ R2)
          (State (without (addrs (removed pred s R1)) (heap s))
                 (freed s ++ addrs (removed pred s R1))) ∧
    length J' = length J + length (removed pred s R1) ∧
    Forall (fun p => p = nullptr ∨ p ∈ J ∨ p ∈ kept pred s R1) J'.
Proof.
  induction R1 as [|p R1 IH]; intros K J R2 s Hlive Hnd.
  - exists J. simpl. rewrite app_nil_r, !Nat.add_0_r. split_and!.
    + by destruct s.
    + done.
    + apply Forall_forall. intros q Hq. right. by left.
  - apply Forall_cons in Hlive as [[x Hx] Hlive].
    apply NoDup_cons in Hnd as [Hp Hnd].
    destruct p as [a|]; [simpl in Hx|done].
    assert (RemoveIf_loop (S (length R1)) (length K + length J) (length K)
              (K ++ J ++ Some a :: R1 ++ R2) value pred s =
            if pred x then
              RemoveIf_loop (length R1) (S (length K + length J)) (length K)
                (K ++ (J ++ [nullptr]) ++ R1 ++ R2) value pred
                (State (delete a (heap s)) (freed s ++ [a]))
            else
              RemoveIf_loop (length R1) (S (length K + length J))
                (S (length K))
                ((K ++ [Some a]) ++ tail (J ++ [Some a]) ++ R1 ++ R2)
                value pred s) as Hstep.
    { simpl. unfold bind at 1. rewrite <- length_app.
      rewrite (app_assoc K J). rewrite slot_get_middle.
      unfold bind, ret, load. simpl. rewrite Hx.
      destruct (pred x); simpl.
      - unfold delete_. rewrite Hx. simpl.
        rewrite slot_set_middle. simpl.
        by rewrite <- !app_assoc.
      - rewrite <- (app_assoc K J).
        destruct J as [|j J]; simpl.
        + rewrite app_nil_r. rewrite slot_set_middle. simpl.
          by rewrite <- app_assoc.
        + rewrite slot_set_middle. simpl.
          by rewrite <- !app_assoc. }
    unfold kept, removed. rewrite !filter_cons.
    rewrite (holds_true _ _ _ _ Hx).
    destruct (pred x) eqn:Hpx.
    + (* the element goes *)
      set (s1 := State (delete a (heap s)) (freed s ++ [a])).
      assert (∀ q, q ∈ R1 → pointee s1 q = pointee s q) as Hsame.
      { intros q Hq. apply pointee_delete_ne. by intros ->. }
      destruct (IH K (J ++ [nullptr]) R2 s1) as (J' & Hrun & Hlen & HJ').
      { apply Forall_forall. intros q Hq. unfold live. rewrite Hsame by done.
        rewrite Forall_forall in Hlive. by apply Hlive. }
      { done. }
      assert (kept pred s1 R1 = kept pred s R1) as Hk.
      { apply filter_ext_elem. intros q Hq. unfold holds.
        by rewrite Hsame. }
      assert (removed pred s1 R1 = removed pred s R1) as Hr.
      { apply filter_ext_elem. intros q Hq. unfold holds.
        by rewrite Hsame. }
      rewrite Hk, Hr in Hrun. rewrite Hr in Hlen. rewrite Hk in HJ'.
      fold (kept pred s R1) (removed pred s R1).
      rewrite decide_False by (intros Hn; by apply Hn).
      rewrite decide_True by done.
      exists J'. split_and!.
      * rewrite length_app in Hrun. simpl in Hrun.
        rewrite Nat.add_assoc, Nat.add_1_r in Hrun.
        etrans; [exact Hstep|]. etrans; [exact Hrun|].
        simpl. by rewrite <- app_assoc.
      * rewrite Hlen, length_app. simpl. lia.
      * eapply Forall_impl; [exact HJ'|]. intros q [->|[Hq|Hq]]; [by left| |].
        -- apply elem_of_app in Hq as [Hq|Hq]; [right; by left|].
           apply list_elem_of_singleton in Hq. by left.
        -- right. by right.
    + (* the element stays *)
      destruct (IH (K ++ [Some a]) (tail (J ++ [Some a])) R2 s)
        as (J' & Hrun & Hlen & HJ'); [done|done|].
      fold (kept pred s R1) (removed pred s R1).
      rewrite decide_True by (by intros []).
      rewrite decide_False by (by intros []).
      assert (length (tail (J ++ [Some a])) = length J) as HlenJ.
      { destruct J; simpl; [done|]. rewrite !length_app. simpl. lia. }
      exists J'. split_and!.
      * rewrite length_app, HlenJ in Hrun. simpl in Hrun.
        replace (length K + 1 + length J) with (S (length K + length J))
          in Hrun by lia.
        rewrite Nat.add_1_r in Hrun.
        etrans; [exact Hstep|]. etrans; [exact Hrun|].
        simpl. rewrite <- app_assoc. simpl.
        do 2 f_equal. lia.
      * by rewrite Hlen, HlenJ.
      * eapply Forall_impl; [exact HJ'|]. intros q [->|[Hq|Hq]]; [by left| |].
        -- assert (q ∈ J ++ [Some a]) as Hq'.
           { destruct J; simpl in *; [by apply elem_of_nil in Hq|by right]. }
           apply elem_of_app in Hq' as [Hq'|Hq']; [right; by left|].
           apply list_elem_of_singleton in Hq' as ->. right. right. by left.
        -- right. right. by right.
Qed.
End RemoveFacts.

Section RemoveContract.
Context {V : Type} `{EqualityComparable V}.
Implicit Types (s : state V) (c : list ptr) (pred : V → bool).

Lemma RemoveIf_run {T} c (value : T) pred s :
  Forall (live s) c → NoDup c →
  ∃ J,
    RemoveIf c value pred s =
      Ret (length (kept pred s c), kept pred s c ++ J)
          (State (without (addrs (removed pred s c)) (heap s))
                 (freed s ++ addrs (removed pred s c))) ∧
    length J = length (removed pred s c) ∧
    Forall (fun p => p = nullptr ∨ p ∈ kept pred s c) J.
Proof.
  intros Hlive Hnd.
  destruct (RemoveIf_loop_run value pred c [] [] [] s Hlive Hnd)
    as (J & Hrun & Hlen & HJ).
  simpl in Hrun, Hlen. rewrite !app_nil_r in Hrun.
  exists J. split_and!; [exact Hrun|exact Hlen|].
  eapply Forall_impl; [exact HJ|]. intros p [->|[Hp|Hp]]; [by left| |by right].
  by apply elem_of_nil in Hp.
Qed.

Lemma kept_removed_length pred s c :
  length (kept pred s c) + length (removed pred s c) = length c.
Proof.
  induction c as [|p c IH]; [done|].
  unfold kept, removed in *. rewrite !filter_cons.
  destruct (decide (holds pred s p)) as [Hp|Hp].
  - rewrite decide_False by (intros Hn; by apply Hn). simpl. lia.
  - rewrite decide_True by done. simpl. lia.
Qed.

(** the state of the scan once it has dealt with position [k] *)
Lemma RemoveIf_nulls_slot {T} c (value : T) pred s k p :
  Forall (live s) c → NoDup c →
  c !! k = Some p → holds pred s p →
  ∃ r ck sk,
    RemoveIf_loop (S k) 0 0 c value pred s = Ret (r, ck) sk ∧
    RemoveIf c value pred s =
      RemoveIf_loop (length c - S k) (S k) r ck value pred sk ∧
    ck !! k = Some nullptr ∧ ¬ live sk p ∧
    (∀ a, p = Some a → a ∈ freed sk).
Proof.
  intros Hlive Hnd Hk Hp.
  assert (Hc : c = take k c ++ p :: drop (S k) c).
  { by rewrite <- (take_drop_middle c k p) at 1. }
  assert (Hklt : k < length c) by (by eapply lookup_lt_Some).
  rewrite Hc in Hlive, Hnd.
  apply Forall_app in Hlive as [Hlive1 Hlive2].
  apply Forall_cons in Hlive2 as [[x Hx] _].
  apply NoDup_app in Hnd as (Hnd1 & Hnd12 & _).
  destruct p as [a|]; [simpl in Hx|done].
  rewrite (holds_true _ _ _ _ Hx) in Hp.
  destruct (RemoveIf_loop_run value pred (take k c) [] []
              (Some a :: drop (S k) c) s Hlive1 Hnd1)
    as (J & Hrun & Hlen & _).
  simpl in Hrun, Hlen. rewrite <- Hc in Hrun.
  rewrite length_take in Hrun. rewrite Nat.min_l in Hrun by lia.
  set (K := kept pred s (take k c)) in *.
  set (G := removed pred s (take k c)) in *.
  assert (length (K ++ J) = k) as HKJ.
  { rewrite length_app, Hlen. unfold K, G.
    rewrite kept_removed_length, length_take. lia. }
  assert (a ∉ addrs G) as HaG.
  { intros Hin. apply elem_of_addrs in Hin. unfold G, removed in Hin.
    apply list_elem_of_filter in Hin as [_ Hin]. apply (Hnd12 _ Hin).
    by left. }
  assert (Hget : slot_get (V:=V) (K ++ J ++ Some a :: drop (S k) c) k =
                 ret (Some a)).
  { rewrite app_assoc, <- HKJ. apply slot_get_middle. }
  assert (Hset : slot_set (V:=V) (K ++ J ++ Some a :: drop (S k) c) k nullptr =
                 ret (K ++ J ++ nullptr :: drop (S k) c)).
  { rewrite app_assoc, <- HKJ, slot_set_middle. by rewrite <- app_assoc. }
  assert (Hstep : RemoveIf_loop (S k) 0 0 c value pred s =
    Ret (length K, K ++ J ++ nullptr :: drop (S k) c)
        (State (delete a (without (addrs G) (heap s)))
               ((freed s ++ addrs G) ++ [a]))).
  { rewrite <- (Nat.add_1_r k) at 1. rewrite RemoveIf_loop_split.
    rewrite Hrun. simpl. unfold bind at 1. rewrite Hget.
    unfold bind, ret, load, delete_. simpl.
    rewrite lookup_without, decide_False by done. rewrite Hx.
    destruct (pred x); [simpl|done].
    rewrite lookup_without, decide_False by done. rewrite Hx.
    by rewrite Hset. }
  eexists _, _, _. split; [exact Hstep|]. split_and!.
  - unfold RemoveIf. replace (length c) with (S k + (length c - S k)) at 1
      by lia.
    rewrite RemoveIf_loop_split. by rewrite Hstep.
  - rewrite app_assoc. rewrite <- HKJ. apply list_lookup_middle. done.
  - unfold live. simpl. rewrite lookup_delete_eq. by intros [? ?].
  - intros b [= <-]. simpl. apply elem_of_app. right. by left.
Qed.
End RemoveContract.

Section RemoveTheorems.
Context {V : Type} `{EqualityComparable V}.
Implicit Types (s : state V) (c : list ptr) (pred : V → bool).

Lemma removed_NoDup pred s c : NoDup c → NoDup (addrs (removed pred s c)).
Proof.
  intros Hnd. unfold addrs, removed.
  assert (NoDup (filter (fun p => holds pred s p) c)) as Hf
    by (by apply NoDup_filter).
  revert Hf. generalize (filter (fun p => holds pred s p) c).
  induction l as [|[a|] l IH]; intros Hl; simpl.
  - constructor.
  - apply NoDup_cons in Hl as [Ha Hl]. constructor; [|by apply IH].
    intros Hin. apply Ha. by apply elem_of_addrs.
  - apply NoDup_cons in Hl as [_ Hl]. by apply IH.
Qed.

Lemma RemoveIf_ignores_value {T T'} (v : T) (v' : T') pred n :
  ∀ first result c s,
  RemoveIf_loop n first result c v pred s =
  RemoveIf_loop n first result c v' pred s.
Proof.
  induction n as [|n IH]; intros first result c s; [done|].
  simpl. unfold bind.
  destruct (slot_get c first s) as [pf s0|s0|f]; [|done|done].
  destruct (load pf s0) as [x s1|s1|f]; [|done|done].
  destruct (negb (pred x)).
  - destruct (slot_set c result pf s1) as [c' s2|s2|f]; [|done|done].
    apply IH.
  - destruct (delete_ pf s1) as [[] s2|s2|f]; [|done|done].
    destruct (slot_set c first nullptr s2) as [c' s3|s3|f]; [|done|done].
    apply IH.
Qed.

(** what [RemoveIf] does, for whatever [value] it is given *)
Lemma RemoveIf_contract {T} c (value : T) pred s :
  Forall (live s) c → NoDup c →
  ∃ r out s',
    RemoveIf c value pred s = Ret (r, out) s' ∧
    length out = length c ∧
    take r out = kept pred s c ∧
    (∀ p, p ∈ take r out → pointee s' p = pointee s p) ∧
    freed s' = freed s ++ addrs (removed pred s c) ∧
    NoDup (addrs (removed pred s c)) ∧
    (∀ p, p ∈ removed pred s c → ¬ live s' p) ∧
    (∀ i p, r ≤ i → out !! i = Some p → p = nullptr ∨ p ∈ take r out) ∧
    (∀ p, p ∈ c → live s' p → p ∈ take r out) ∧
    (∀ k p, c !! k = Some p → holds pred s p →
       ∃ rk ck sk,
         RemoveIf_loop (S k) 0 0 c value pred s = Ret (rk, ck) sk ∧
         RemoveIf c value pred s =
           RemoveIf_loop (length c - S k) (S k) rk ck value pred sk ∧
         ck !! k = Some nullptr ∧ ¬ live sk p).
Proof.
  intros Hlive Hnd.
  destruct (RemoveIf_run c value pred s Hlive Hnd) as (J & Hrun & Hlen & HJ).
  assert (take (length (kept pred s c)) (kept pred s c ++ J) = kept pred s c)
    as Htake by (by rewrite take_app_length).
  assert (∀ p, p ∈ removed pred s c → ∃ a, p = Some a ∧ a ∈ addrs (removed pred s c))
    as Hgone.
  { intros p Hp. assert (p ∈ c) as Hpc.
    { unfold removed in Hp. by apply list_elem_of_filter in Hp as [_ ?]. }
    rewrite Forall_forall in Hlive. destruct (Hlive _ Hpc) as [x Hx].
    destruct p as [a|]; [|done]. exists a. split; [done|].
    by apply elem_of_addrs. }
  eexists _, _, _. split; [exact Hrun|]. rewrite Htake. simpl. split_and!.
  - rewrite length_app, Hlen. apply kept_removed_length.
  - done.
  - intros [a|] Hp; [simpl|done]. rewrite lookup_without.
    rewrite decide_False; [done|]. intros Hin.
    apply elem_of_addrs in Hin. unfold kept, removed in *.
    apply list_elem_of_filter in Hp as [Hp _].
    apply list_elem_of_filter in Hin as [Hin _]. done.
  - done.
  - by apply removed_NoDup.
  - intros p Hp. destruct (Hgone p Hp) as (a & -> & Ha).
    unfold live. simpl. rewrite lookup_without, decide_True by done.
    by intros [? ?].
  - intros i p Hi Hp.
    rewrite lookup_app_r in Hp by done.
    apply list_elem_of_lookup_2 in Hp.
    rewrite Forall_forall in HJ. by apply HJ.
  - intros p Hpc Hp1. unfold kept. apply list_elem_of_filter.
    split; [|done]. intros Hh.
    destruct (Hgone p) as (a & -> & Ha).
    { unfold removed. by apply list_elem_of_filter. }
    destruct Hp1 as [x Hx]. simpl in Hx.
    by rewrite lookup_without, decide_True in Hx.
  - intros k p Hk Hp.
    destruct (RemoveIf_nulls_slot c value pred s k p Hlive Hnd Hk Hp)
      as (rk & ck & sk & H1 & H2 & H3 & H4 & _).
    by exists rk, ck, sk.
Qed.

(** What [Remove] does on a range of owned pointers (each designates a
    living object, no two slots share one) when the object [value] refers
    to is alive and is not one of the range: it returns a new end such that
    the slots before it are exactly the slots whose pointee is not equal to
    the referent, in their original order and with their pointees
    untouched.  The deletions performed are those of the pointers whose
    pointee equals the referent, each once.  When the scan has dealt with
    such a slot and before it moves on, that slot holds [nullptr]. *)
Theorem Remove_invariant c value v s :
  Forall (live s) c → NoDup c →
  referent s value = Some v → apart_from value c →
  ∃ r out s',
    Remove c value s = Ret (r, out) s' ∧
    length out = length c ∧
    take r out = kept (fun x => equal_to x v) s c ∧
    (∀ p, p ∈ take r out → pointee s' p = pointee s p) ∧
    freed s' = freed s ++ addrs (removed (fun x => equal_to x v) s c) ∧
    NoDup (addrs (removed (fun x => equal_to x v) s c)) ∧
    (∀ p, p ∈ removed (fun x => equal_to x v) s c → ¬ live s' p) ∧
    (∀ k p, c !! k = Some p → holds (fun x => equal_to x v) s p →
       ∃ rk ck sk,
         Remove_loop (S k) 0 0 c value s = Ret (rk, ck) sk ∧
         Remove c value s = Remove_loop (length c - S k) (S k) rk ck value sk ∧
         ck !! k = Some nullptr ∧ ¬ live sk p).
Proof.
  intros Hlive Hnd Href Hapart.
  assert (∀ n, Remove_loop n 0 0 c value s =
               RemoveIf_loop n 0 0 c v (fun x => equal_to x v) s) as Heq.
  { intros n. destruct value as [v0|a]; simpl in Href, Hapart.
    - injection Href as ->. apply Remove_as_RemoveIf.
    - apply Remove_inside_as_RemoveIf; [done|lia|].
      intros i _ _ Hi. apply Hapart. by eapply list_elem_of_lookup_2. }
  destruct (RemoveIf_contract c v (fun x => equal_to x v) s Hlive Hnd)
    as (r & out & s' & Hrun & Hlen & Hpre & Hsame & Hfreed & Hnd' & Hdead &
        _ & _ & Hnull).
  exists r, out, s'. unfold Remove. rewrite Heq.
  split_and!; try done.
  intros k p Hk Hp.
  destruct (Hnull k p Hk Hp) as (rk & ck & sk & H1 & H2 & H3 & H4).
  exists rk, ck, sk. rewrite Heq.
  split_and!; [exact H1| |exact H3|exact H4].
  apply lookup_lt_Some in Hk. rewrite <- Heq.
  replace (length c) with (S k + (length c - S k)) at 1 by lia.
  by rewrite Remove_loop_split, Heq, H1.
Qed.

(** C3. [Remove] takes [value] by reference and reads the referent in
    every iteration.  When the referent is itself the pointee of a slot of
    the range (as in a call that removes whatever equals the element at
    position [k]; equality being reflexive), the scan deletes the referent
    when it reaches that slot, and the comparison of the next element reads
    the deleted object: on a range of owned pointers with a further element
    behind slot [k] the call returns no prefix, it ends in a use of a dead
    object. *)
Theorem Remove_compares_with_deleted_referent c k a x s :
  Forall (live s) c → NoDup c →
  c !! k = Some (Some a) → S k < length c →
  heap s !! a = Some x → equal_to x x = true →
  (∃ rk ck sk,
     Remove_loop (S k) 0 0 c (inside a) s = Ret (rk, ck) sk ∧
     ck !! k = Some nullptr ∧ referent sk (inside a) = None ∧
     a ∈ freed sk) ∧
  Remove c (inside a) s = Fault Dangling.
Proof.
  intros Hlive Hnd Hk Hlt Hx Hrefl.
  destruct (lookup_lt_is_Some_2 c (S k) Hlt) as [q Hq].
  set (rest := drop (S (S k)) c).
  assert (Hc : c = take k c ++ Some a :: q :: rest).
  { rewrite <- (take_drop_middle c k (Some a) Hk) at 1.
    by rewrite (drop_S _ _ _ Hq). }
  assert (Hklt : k < length c) by lia.
  pose proof Hlive as Hlive0. pose proof Hnd as Hnd0.
  rewrite Hc in Hlive, Hnd.
  apply Forall_app in Hlive as [Hlive1 Hlive2].
  apply Forall_cons in Hlive2 as [_ Hlive2].
  apply Forall_cons in Hlive2 as [[y Hy] _].
  apply NoDup_app in Hnd as (Hnd1 & Hnd12 & Hnd2).
  apply NoDup_cons in Hnd2 as [Haq _].
  destruct q as [b|]; [simpl in Hy|done].
  assert (b ≠ a) as Hba.
  { intros ->. apply Haq. by left. }
  set (pred := fun z => equal_to z x).
  destruct (RemoveIf_loop_run x pred (take k c) [] []
              (Some a :: Some b :: rest) s Hlive1 Hnd1)
    as (J & Hrun & Hlen & _).
  simpl in Hrun, Hlen. rewrite <- Hc in Hrun.
  rewrite length_take in Hrun. rewrite Nat.min_l in Hrun by lia.
  set (K := kept pred s (take k c)) in *.
  set (G := removed pred s (take k c)) in *.
  assert (length (K ++ J) = k) as HKJ.
  { rewrite length_app, Hlen. unfold K, G.
    rewrite kept_removed_length, length_take. lia. }
  assert (∀ d, Some d ∉ take k c → d ∉ addrs G) as HG.
  { intros d Hd Hin. apply elem_of_addrs in Hin. unfold G, removed in Hin.
    by apply list_elem_of_filter in Hin as [_ Hin]. }
  assert (a ∉ addrs G) as HaG.
  { apply HG. intros Hin. apply (Hnd12 _ Hin). by left. }
  assert (b ∉ addrs G) as HbG.
  { apply HG. intros Hin. apply (Hnd12 _ Hin). right. by left. }
  assert (Hget : slot_get (V:=V) (K ++ J ++ Some a :: Some b :: rest) k =
                 ret (Some a)).
  { rewrite app_assoc, <- HKJ. apply slot_get_middle. }
  assert (Hset : slot_set (V:=V) (K ++ J ++ Some a :: Some b :: rest) k
                   nullptr =
                 ret (K ++ J ++ nullptr :: Some b :: rest)).
  { rewrite app_assoc, <- HKJ, slot_set_middle. by rewrite <- app_assoc. }
  assert (Hget2 : slot_get (V:=V) (K ++ J ++ nullptr :: Some b :: rest) (S k)
                  = ret (Some b)).
  { replace (K ++ J ++ nullptr :: Some b :: rest)
      with ((K ++ J ++ [nullptr]) ++ Some b :: rest)
      by (by rewrite <- !app_assoc).
    replace (S k) with (length (K ++ J ++ [nullptr])).
    - apply slot_get_middle.
    - rewrite app_assoc, length_app, HKJ. simpl. lia. }
  assert (Hprefix : Remove_loop k 0 0 c (inside a) s =
                    RemoveIf_loop k 0 0 c x pred s).
  { apply Remove_inside_as_RemoveIf; [done|lia|].
    intros i _ Hi Hci. simpl in Hi.
    assert (i = k); [|lia].
    by eapply (NoDup_lookup c i k (Some a)). }
  assert (Hstep : Remove_loop (S k) 0 0 c (inside a) s =
    Ret (length K, K ++ J ++ nullptr :: Some b :: rest)
        (State (delete a (without (addrs G) (heap s)))
               ((freed s ++ addrs G) ++ [a]))).
  { rewrite <- (Nat.add_1_r k) at 1. rewrite Remove_loop_split, Hprefix.
    rewrite Hrun. simpl. unfold bind at 1. rewrite Hget.
    unfold bind, ret, load, deref, delete_. simpl.
    do 2 (rewrite lookup_without, decide_False by done; rewrite Hx; simpl).
    rewrite Hrefl. simpl.
    rewrite lookup_without, decide_False by done. rewrite Hx.
    by rewrite Hset. }
  split.
  - eexists _, _, _. split; [exact Hstep|]. split_and!.
    + rewrite app_assoc. rewrite <- HKJ. by apply list_lookup_middle.
    + simpl. by rewrite lookup_delete_eq.
    + simpl. apply elem_of_app. right. by left.
  - unfold Remove.
    replace (length c) with (S k + S (length c - S (S k))) by lia.
    rewrite Remove_loop_split, Hstep. simpl. unfold bind at 1.
    rewrite Hget2. unfold bind, ret, load, deref. simpl.
    rewrite lookup_delete_ne by done.
    rewrite lookup_without, decide_False by done. rewrite Hy.
    simpl. by rewrite lookup_delete_eq.
Qed.

(** What [RemoveIf] does on a range of owned pointers: it deletes exactly
    the pointers whose pointee satisfies the unary predicate [pred], nulls
    their slots as it goes, and keeps the others in front, in their original
    order.  Its body never reads the parameter [value], so the outcome is
    the same whatever is passed for it. *)
Theorem RemoveIf_decided_by_pred_alone {T} c (value : T) pred s :
  Forall (live s) c → NoDup c →
  (∃ r out s',
    RemoveIf c value pred s = Ret (r, out) s' ∧
    length out = length c ∧
    take r out = kept pred s c ∧
    (∀ p, p ∈ take r out → pointee s' p = pointee s p) ∧
    freed s' = freed s ++ addrs (removed pred s c) ∧
    NoDup (addrs (removed pred s c)) ∧
    (∀ p, p ∈ removed pred s c → ¬ live s' p) ∧
    (∀ k p, c !! k = Some p → holds pred s p →
       ∃ rk ck sk,
         RemoveIf_loop (S k) 0 0 c value pred s = Ret (rk, ck) sk ∧
         RemoveIf c value pred s =
           RemoveIf_loop (length c - S k) (S k) rk ck value pred sk ∧
         ck !! k = Some nullptr ∧ ¬ live sk p)) ∧
  (∀ T' (value' : T'), RemoveIf c value' pred s = RemoveIf c value pred s).
Proof.
  intros Hlive Hnd. split.
  - destruct (RemoveIf_contract c value pred s Hlive Hnd)
      as (r & out & s' & Hrun & Hlen & Hpre & Hsame & Hfreed & Hnd' & Hdead &
          _ & _ & Hnull).
    exists r, out, s'. by split_and!.
  - intros T' value'. apply RemoveIf_ignores_value.
Qed.
End RemoveTheorems.

(** ** Unique *)

Section UniqueFacts.
Context {V : Type} `{EqualityComparable V}.
Implicit Types (s : state V) (c K J R : list ptr) (rel : V → V → bool).

Lemma Unique_as_Unique_pred n : ∀ first result c s,
  Unique_loop n first result c s =
  Unique_pred_loop n first result c equal_to s.
Proof.
  induction n as [|n IH]; intros first result c s; [done|].
  simpl. unfold bind.
  destruct (slot_get c result s) as [pr s0|s0|f]; [|done|done].
  destruct (load pr s0) as [xr s1|s1|f]; [|done|done].
  destruct (slot_get c (S first) s1) as [pf s2|s2|f]; [|done|done].
  destruct (load pf s2) as [x s3|s3|f]; [|done|done].
  destruct (negb (equal_to xr x)).
  - destruct (slot_set c (S result) pf s3) as [c' s4|s4|f]; [|done|done].
    apply IH.
  - destruct (delete_ pf s3) as [[] s4|s4|f]; [|done|done].
    destruct (slot_set c (S first) nullptr s4) as [c' s5|s5|f]; [|done|done].
    apply IH.
Qed.

Lemma Unique_pred_loop_split rel n m : ∀ first result c s,
  Unique_pred_loop (n + m) first result c rel s =
  match Unique_pred_loop n first result c rel s with
  | Ret (r, c') s' => Unique_pred_loop m (first + n) (r - 1) c' rel s'
  | Throw s' => Throw s'
  | Fault f => Fault f
  end.
Proof.
  induction n as [|n IH]; intros first result c s.
  - simpl. by rewrite Nat.add_0_r, Nat.sub_0_r.
  - cbn [Nat.add Unique_pred_loop]. unfold bind.
    destruct (slot_get c result s) as [pr s0|s0|f]; [|done|done].
    destruct (load pr s0) as [xr s1|s1|f]; [|done|done].
    destruct (slot_get c (S first) s1) as [pf s2|s2|f]; [|done|done].
    destruct (load pf s2) as [x s3|s3|f]; [|done|done].
    replace (first + S n) with (S first + n) by lia.
    destruct (negb (rel xr x)).
    + destruct (slot_set c (S result) pf s3) as [c' s4|s4|f]; [|done|done].
      apply IH.
    + destruct (delete_ pf s3) as [[] s4|s4|f]; [|done|done].
      destruct (slot_set c (S first) nullptr s4) as [c' s5|s5|f];
        [|done|done].
      apply IH.
Qed.

Lemma unique_ext rel s s' l : ∀ r,
  (∀ q, q ∈ r :: l → pointee s' q = pointee s q) →
  unique_kept rel s' r l = unique_kept rel s r l ∧
  unique_dropped rel s' r l = unique_dropped rel s r l ∧
  unique_last rel s' r l = unique_last rel s r l.
Proof.
  induction l as [|p l IH]; intros r Hsame; [done|].
  simpl. unfold related.
  rewrite (Hsame r) by (by left).
  rewrite (Hsame p) by (right; by left).
  fold (related rel s r p).
  destruct (related rel s r p).
  - destruct (IH r) as (-> & -> & ->); [|done].
    intros q [->|Hq]%elem_of_cons; apply Hsame; [by left|right; by right].
  - destruct (IH p) as (-> & -> & ->); [|done].
    intros q Hq. apply Hsame. by right.
Qed.

Lemma related_live rel s a b x y :
  heap s !! a = Some x → heap s !! b = Some y →
  related rel s (Some a) (Some b) = rel x y.
Proof. intros Ha Hb. unfold related. simpl. by rewrite Ha, Hb. Qed.

(** The loop invariant.  The container is [K ++ r :: J ++ R1 ++ R2]: [r] is
    the slot [result] points at, [K] the slots kept before it, [J] the
    slots left behind, [R1] the slots the next iterations visit. *)
Lemma Unique_pred_loop_run rel R1 : ∀ K r J R2 s,
  live s r → Forall (live s) R1 → NoDup (r :: R1) →
  ∃ J',
    Unique_pred_loop (length R1) (length K + length J) (length K)
        (K ++ r :: J ++ R1 ++ R2) rel s =
      Ret (S (length K + length (unique_kept rel s r R1)),
           K ++ r :: unique_kept rel s r R1 ++ J' ++ R2)
          (State (without (addrs (unique_dropped rel s r R1)) (heap s))
                 (freed s ++ addrs (unique_dropped rel s r R1))) ∧
    length J' = length J + length (unique_dropped rel s r R1) ∧
    Forall (fun p => p = nullptr ∨ p ∈ J ∨ p ∈ unique_kept rel s r R1) J'.
Proof.
  induction R1 as [|p R1 IH]; intros K r J R2 s Hr Hlive Hnd.
  - exists J. simpl. rewrite app_nil_r, !Nat.add_0_r. split_and!.
    + by destruct s.
    + done.
    + apply Forall_forall. intros q Hq. right. by left.
  - apply Forall_cons in Hlive as [[x Hx] Hlive].
    destruct Hr as [xr Hxr].
    apply NoDup_cons in Hnd as [Hrp Hnd].
    apply not_elem_of_cons in Hrp as [Hrp HrR].
    apply NoDup_cons in Hnd as [HpR Hnd].
    destruct p as [a|]; [simpl in Hx|done].
    destruct r as [b|]; [simpl in Hxr|done].
    assert (Hget1 : slot_get (V:=V)
              (K ++ Some b :: J ++ Some a :: R1 ++ R2) (length K) =
            ret (Some b)) by apply slot_get_middle.
    assert (Hget2 : slot_get (V:=V)
              (K ++ Some b :: J ++ Some a :: R1 ++ R2)
              (S (length K + length J)) = ret (Some a)).
    { replace (S (length K + length J)) with (length (K ++ Some b :: J))
        by (rewrite length_app; simpl; lia).
      replace (K ++ Some b :: J ++ Some a :: R1 ++ R2)
        with ((K ++ Some b :: J) ++ Some a :: R1 ++ R2)
        by (by rewrite <- app_assoc).
      apply slot_get_middle. }
    assert (Hset1 : slot_set (V:=V)
              (K ++ Some b :: J ++ Some a :: R1 ++ R2) (S (length K))
              (Some a) =
            ret ((K ++ [Some b]) ++ Some a :: tail (J ++ [Some a]) ++ R1 ++ R2)).
    { replace (S (length K)) with (length (K ++ [Some b]))
        by (rewrite length_app; simpl; lia).
      replace (K ++ Some b :: J ++ Some a :: R1 ++ R2)
        with ((K ++ [Some b]) ++ J ++ Some a :: R1 ++ R2)
        by (by rewrite <- app_assoc).
      destruct J as [|j J]; simpl.
      - apply slot_set_middle.
      - rewrite slot_set_middle. by rewrite <- (app_assoc J). }
    assert (Hset2 : slot_set (V:=V)
              (K ++ Some b :: J ++ Some a :: R1 ++ R2)
              (S (length K + length J)) nullptr =
            ret (K ++ Some b :: (J ++ [nullptr]) ++ R1 ++ R2)).
    { replace (S (length K + length J)) with (length (K ++ Some b :: J))
        by (rewrite length_app; simpl; lia).
      replace (K ++ Some b :: J ++ Some a :: R1 ++ R2)
        with ((K ++ Some b :: J) ++ Some a :: R1 ++ R2)
        by (by rewrite <- app_assoc).
      rewrite slot_set_middle. by rewrite <- !app_assoc. }
    assert (Unique_pred_loop (S (length R1)) (length K + length J) (length K)
              (K ++ Some b :: J ++ Some a :: R1 ++ R2) rel s =
            if rel xr x then
              Unique_pred_loop (length R1) (S (length K + length J)) (length K)
                (K ++ Some b :: (J ++ [nullptr]) ++ R1 ++ R2) rel
                (State (delete a (heap s)) (freed s ++ [a]))
            else
              Unique_pred_loop (length R1) (S (length K + length J))
                (S (length K))
                ((K ++ [Some b]) ++ Some a :: tail (J ++ [Some a]) ++ R1 ++ R2)
                rel s) as Hstep.
    { cbn [Unique_pred_loop]. unfold bind at 1. rewrite Hget1.
      unfold ret at 1. unfold bind at 1. unfold load at 1. rewrite Hxr.
      unfold bind at 1. rewrite Hget2.
      unfold ret at 1. unfold bind at 1. unfold load at 1. rewrite Hx.
      destruct (rel xr x); simpl.
      - unfold bind at 1. unfold delete_ at 1. rewrite Hx.
        unfold bind at 1. by rewrite Hset2.
      - unfold bind at 1. by rewrite Hset1. }
    simpl unique_kept. simpl unique_dropped.
    rewrite (related_live rel s b a xr x Hxr Hx).
    destruct (rel xr x) eqn:Hrel.
    + (* the duplicate goes *)
      set (s1 := State (delete a (heap s)) (freed s ++ [a])).
      assert (∀ q, q ∈ Some b :: R1 → pointee s1 q = pointee s q) as Hsame.
      { intros q Hq. apply pointee_delete_ne. intros ->.
        apply elem_of_cons in Hq as [Hq|Hq]; [congruence|done]. }
      destruct (IH K (Some b) (J ++ [nullptr]) R2 s1) as (J' & Hrun & Hlen & HJ').
      { unfold live. rewrite Hsame by (by left). by exists xr. }
      { apply Forall_forall. intros q Hq. unfold live.
        rewrite Hsame by (by right).
        rewrite Forall_forall in Hlive. by apply Hlive. }
      { by constructor. }
      destruct (unique_ext rel s s1 R1 (Some b) Hsame) as (Hk & Hd & _).
      rewrite Hk, Hd in Hrun. rewrite Hd in Hlen. rewrite Hk in HJ'.
      exists J'. split_and!.
      * rewrite length_app in Hrun. simpl in Hrun.
        rewrite Nat.add_assoc, Nat.add_1_r in Hrun.
        etrans; [exact Hstep|]. etrans; [exact Hrun|].
        simpl. by rewrite <- app_assoc.
      * rewrite Hlen, length_app. simpl. lia.
      * eapply Forall_impl; [exact HJ'|]. intros q [->|[Hq|Hq]]; [by left| |].
        -- apply elem_of_app in Hq as [Hq|Hq]; [right; by left|].
           apply list_elem_of_singleton in Hq. by left.
        -- right. by right.
    + (* the element stays and becomes the one to compare with *)
      destruct (IH (K ++ [Some b]) (Some a) (tail (J ++ [Some a])) R2 s)
        as (J' & Hrun & Hlen & HJ').
      { by exists x. }
      { done. }
      { by constructor. }
      assert (length (tail (J ++ [Some a])) = length J) as HlenJ.
      { destruct J; simpl; [done|]. rewrite !length_app. simpl. lia. }
      exists J'. split_and!.
      * rewrite length_app, HlenJ in Hrun. simpl in Hrun.
        replace (length K + 1 + length J) with (S (length K + length J))
          in Hrun by lia.
        rewrite Nat.add_1_r in Hrun.
        etrans; [exact Hstep|]. etrans; [exact Hrun|].
        simpl. rewrite <- app_assoc. simpl.
        do 2 f_equal. lia.
      * by rewrite Hlen, HlenJ.
      * eapply Forall_impl; [exact HJ'|]. intros q [->|[Hq|Hq]]; [by left| |].
        -- assert (q ∈ J ++ [Some a]) as Hq'.
           { destruct J; simpl in *; [by apply elem_of_nil in Hq|by right]. }
           apply elem_of_app in Hq' as [Hq'|Hq']; [right; by left|].
           apply list_elem_of_singleton in Hq' as ->. right. right. by left.
        -- right. right. by right.
Qed.
End UniqueFacts.

Section UniqueLists.
Context {V : Type}.
Implicit Types (s : state V) (l : list ptr) (r p q : ptr)
  (rel : V → V → bool).

Lemma unique_kept_subseteq rel s l : ∀ r q,
  q ∈ unique_kept rel s r l → q ∈ l.
Proof.
  induction l as [|p l IH]; intros r q Hq; [done|]. simpl in Hq.
  destruct (related rel s r p).
  - right. by eapply IH.
  - apply elem_of_cons in Hq as [->|Hq]; [by left|]. right. by eapply IH.
Qed.

Lemma unique_dropped_subseteq rel s l : ∀ r q,
  q ∈ unique_dropped rel s r l → q ∈ l.
Proof.
  induction l as [|p l IH]; intros r q Hq; [done|]. simpl in Hq.
  destruct (related rel s r p).
  - apply elem_of_cons in Hq as [->|Hq]; [by left|]. right. by eapply IH.
  - right. by eapply IH.
Qed.

Lemma unique_kept_sublist rel s l : ∀ r, unique_kept rel s r l `sublist_of` l.
Proof.
  induction l as [|p l IH]; intros r; [done|]. simpl.
  destruct (related rel s r p).
  - by apply sublist_cons.
  - by apply sublist_skip.
Qed.

Lemma unique_lengths rel s l : ∀ r,
  length (unique_kept rel s r l) + length (unique_dropped rel s r l) =
  length l.
Proof.
  induction l as [|p l IH]; intros r; [done|]. simpl.
  pose proof (IH r). pose proof (IH p).
  destruct (related rel s r p); simpl; lia.
Qed.

Lemma unique_disjoint rel s l : ∀ r q,
  NoDup l → q ∈ unique_kept rel s r l → q ∉ unique_dropped rel s r l.
Proof.
  induction l as [|p l IH]; intros r q Hnd Hq; [by intros ?%elem_of_nil|].
  apply NoDup_cons in Hnd as [Hp Hnd]. simpl in *.
  destruct (related rel s r p).
  - apply not_elem_of_cons. split; [|by apply IH].
    intros ->. apply Hp. by eapply unique_kept_subseteq.
  - apply elem_of_cons in Hq as [->|Hq]; [|by apply IH].
    intros Hin. apply Hp. by eapply unique_dropped_subseteq.
Qed.

Lemma unique_dropped_NoDup rel s l : ∀ r,
  NoDup l → NoDup (unique_dropped rel s r l).
Proof.
  induction l as [|p l IH]; intros r Hnd; [constructor|].
  apply NoDup_cons in Hnd as [Hp Hnd]. simpl.
  destruct (related rel s r p); [|by apply IH].
  constructor; [|by apply IH].
  intros Hin. apply Hp. by eapply unique_dropped_subseteq.
Qed.

Lemma unique_kept_last rel s l : ∀ r,
  (r :: unique_kept rel s r l) !! length (unique_kept rel s r l) =
  Some (unique_last rel s r l).
Proof.
  induction l as [|p l IH]; intros r; [done|]. simpl.
  destruct (related rel s r p); [apply IH|]. simpl. apply IH.
Qed.

Lemma unique_dropped_split rel s l : ∀ r p,
  p ∈ unique_dropped rel s r l →
  ∃ R1 R2, l = R1 ++ p :: R2 ∧
    related rel s (unique_last rel s r R1) p = true.
Proof.
  induction l as [|q l IH]; intros r p Hp; [by apply elem_of_nil in Hp|].
  simpl in Hp. destruct (related rel s r q) eqn:Hrq.
  - apply elem_of_cons in Hp as [->|Hp].
    + by exists [], l.
    + destruct (IH r p Hp) as (R1 & R2 & -> & Hrel).
      exists (q :: R1), R2. split; [done|]. simpl. by rewrite Hrq.
  - destruct (IH q p Hp) as (R1 & R2 & -> & Hrel).
    exists (q :: R1), R2. split; [done|]. simpl. by rewrite Hrq.
Qed.

(** no two neighbours of what is kept are related *)
Lemma unique_kept_adjacent rel s l : ∀ r i p q,
  (r :: unique_kept rel s r l) !! i = Some p →
  (r :: unique_kept rel s r l) !! S i = Some q →
  related rel s p q = false.
Proof.
  induction l as [|x l IH]; intros r i p q Hp Hq.
  - simpl in Hq. by rewrite lookup_nil in Hq.
  - simpl in Hp, Hq. destruct (related rel s r x) eqn:Hrx.
    + by eapply IH.
    + destruct i as [|i].
      * simpl in Hp, Hq. by simplify_eq.
      * simpl in Hp. by eapply (IH x i).
Qed.
End UniqueLists.

(** ** Unique over a sorted range *)

Section UniqueSorted.
Context {V : Type} `{EqualityComparable V} `{LessThanComparable V}.
(** [operator<] is a strict weak ordering and [operator==] is the
    equivalence it induces *)
Hypothesis less_irrefl : ∀ x : V, less x x = false.
Hypothesis less_trans : ∀ x y z : V,
  less x y = true → less y z = true → less x z = true.
Hypothesis equal_incomparable : ∀ x y : V,
  equal_to x y = negb (less x y) && negb (less y x).
Hypothesis equal_trans : ∀ x y z : V,
  equal_to x y = true → equal_to y z = true → equal_to x z = true.
Implicit Types (s : state V) (l : list ptr) (r p q : ptr).

Lemma equal_refl (x : V) : equal_to x x = true.
Proof. by rewrite equal_incomparable, less_irrefl. Qed.

Lemma equal_sym (x y : V) : equal_to x y = equal_to y x.
Proof. rewrite !equal_incomparable. apply andb_comm. Qed.

Lemma separated_values (xr xp xq : V) :
  less xp xr = false → less xq xp = false →
  equal_to xr xp = false → equal_to xr xq = false.
Proof.
  intros Hpr Hqp Hrp.
  destruct (equal_to xr xq) eqn:Hrq; [exfalso|done].
  pose proof Hrq as Hrq'. rewrite equal_incomparable in Hrq'.
  apply andb_true_iff in Hrq' as [Hlrq Hlqr].
  apply negb_true_iff in Hlrq. apply negb_true_iff in Hlqr.
  rewrite equal_incomparable, Hpr in Hrp. simpl in Hrp.
  rewrite andb_true_r in Hrp. apply negb_false_iff in Hrp.
  destruct (less xp xq) eqn:Hpq.
  - rewrite (less_trans _ _ _ Hrp Hpq) in Hlrq. done.
  - assert (equal_to xq xp = true) as Hqp'.
    { by rewrite equal_incomparable, Hqp, Hpq. }
    pose proof (equal_trans _ _ _ Hrq Hqp') as Hrp'.
    rewrite equal_incomparable, Hrp in Hrp'. done.
Qed.

Lemma related_equal_refl s p : live s p → related equal_to s p p = true.
Proof.
  intros [x Hx]. unfold related. rewrite Hx. apply equal_refl.
Qed.

Lemma related_equal_sym s p q :
  related equal_to s p q = related equal_to s q p.
Proof.
  unfold related. destruct (pointee s p), (pointee s q); try done.
  apply equal_sym.
Qed.

Lemma related_equal_trans s p q r :
  related equal_to s p q = true → related equal_to s q r = true →
  related equal_to s p r = true.
Proof.
  unfold related.
  destruct (pointee s p), (pointee s q), (pointee s r); try done.
  apply equal_trans.
Qed.

Lemma separated s r p q :
  live s r → live s p → live s q →
  related less s p r = false → related less s q p = false →
  related equal_to s r p = false → related equal_to s r q = false.
Proof.
  intros [xr Hr] [xp Hp] [xq Hq]. unfold related.
  rewrite Hr, Hp, Hq. apply separated_values.
Qed.

Lemma unique_kept_pairwise s l : ∀ r,
  live s r → Forall (live s) l → sorted_range s (r :: l) →
  StronglySorted (fun p q => related equal_to s p q = false)
    (r :: unique_kept equal_to s r l).
Proof.
  induction l as [|p l IH]; intros r Hr Hlive Hsorted.
  - simpl. by repeat constructor.
  - apply Forall_cons in Hlive as [Hp Hlive].
    apply StronglySorted_inv in Hsorted as [Hsorted Hrall].
    apply Forall_cons in Hrall as [Hrp Hrl].
    pose proof Hsorted as Hsorted'.
    apply StronglySorted_inv in Hsorted' as [Hsl Hpl].
    simpl. destruct (related equal_to s r p) eqn:Hrel.
    + apply IH; [done|done|]. by constructor.
    + constructor; [by apply IH|].
      constructor; [done|].
      apply Forall_forall. intros q Hq.
      apply unique_kept_subseteq in Hq.
      rewrite Forall_forall in Hlive, Hpl.
      apply (separated s r p q); auto.
Qed.

Lemma unique_kept_represents s l : ∀ r p,
  live s r → Forall (live s) l → p ∈ r :: l →
  ∃ q, q ∈ r :: unique_kept equal_to s r l ∧
       related equal_to s q p = true.
Proof.
  induction l as [|x l IH]; intros r p Hr Hlive Hp.
  - apply list_elem_of_singleton in Hp as ->. exists r. split; [by left|].
    by apply related_equal_refl.
  - apply Forall_cons in Hlive as [Hx Hlive]. simpl.
    apply elem_of_cons in Hp as [->|Hp].
    { exists r. split; [by left|]. by apply related_equal_refl. }
    destruct (related equal_to s r x) eqn:Hrel.
    + apply elem_of_cons in Hp as [->|Hp].
      * exists r. split; [by left|done].
      * apply IH; [done|done|by right].
    + destruct (IH x p Hx Hlive Hp) as (q & Hq & Hqp).
      exists q. split; [by right|done].
Qed.

Lemma StronglySorted_distinct {A} (R : A → A → Prop) (l : list A) x y :
  StronglySorted R l → x ∈ l → y ∈ l → x ≠ y → R x y ∨ R y x.
Proof.
  induction 1 as [|a l Hl IH Hall]; intros Hx Hy Hne.
  - by apply elem_of_nil in Hx.
  - rewrite Forall_forall in Hall.
    apply elem_of_cons in Hx as [->|Hx], Hy as [->|Hy]; auto.
    done.
Qed.

(** after [Unique] on a sorted range every element of the range has exactly
    one representative among the elements kept *)
Lemma unique_kept_one_representative s l r p :
  live s r → Forall (live s) l → sorted_range s (r :: l) → p ∈ r :: l →
  ∃ q, q ∈ r :: unique_kept equal_to s r l ∧
       related equal_to s q p = true ∧
       ∀ q', q' ∈ r :: unique_kept equal_to s r l →
             related equal_to s q' p = true → q' = q.
Proof.
  intros Hr Hlive Hsorted Hp.
  destruct (unique_kept_represents s l r p Hr Hlive Hp) as (q & Hq & Hqp).
  exists q. split_and!; [done|done|].
  intros q' Hq' Hq'p.
  destruct (decide (q' = q)) as [|Hne]; [done|exfalso].
  assert (related equal_to s q' q = true) as Hrel.
  { eapply related_equal_trans; [exact Hq'p|]. by rewrite related_equal_sym. }
  destruct (StronglySorted_distinct _ _ q' q
              (unique_kept_pairwise s l r Hr Hlive Hsorted) Hq' Hq Hne)
    as [Hf|Hf].
  - congruence.
  - rewrite related_equal_sym in Hf. congruence.
Qed.
End UniqueSorted.

Section UniqueContract.
Context {V : Type} `{EqualityComparable V}.
Implicit Types (s : state V) (c rest : list ptr) (rel : V → V → bool).

Lemma Unique_pred_run rel p0 rest s :
  Forall (live s) (p0 :: rest) → NoDup (p0 :: rest) →
  ∃ J,
    Unique_pred (p0 :: rest) rel s =
      Ret (S (length (unique_kept rel s p0 rest)),
           p0 :: unique_kept rel s p0 rest ++ J)
          (State (without (addrs (unique_dropped rel s p0 rest)) (heap s))
                 (freed s ++ addrs (unique_dropped rel s p0 rest))) ∧
    length J = length (unique_dropped rel s p0 rest) ∧
    Forall (fun p => p = nullptr ∨ p ∈ unique_kept rel s p0 rest) J.
Proof.
  intros Hlive Hnd. apply Forall_cons in Hlive as [Hp0 Hlive].
  destruct (Unique_pred_loop_run rel rest [] p0 [] [] s Hp0 Hlive Hnd)
    as (J & Hrun & Hlen & HJ).
  simpl in Hrun, Hlen. rewrite !app_nil_r in Hrun.
  exists J. split_and!; [|exact Hlen|].
  - unfold Unique_pred. simpl. rewrite Nat.sub_0_r. exact Hrun.
  - eapply Forall_impl; [exact HJ|].
    intros p [->|[Hp|Hp]]; [by left| |by right]. by apply elem_of_nil in Hp.
Qed.

(** the state of the scan once it has dealt with a duplicate *)
Lemma Unique_pred_nulls_slot rel p0 rest s p :
  Forall (live s) (p0 :: rest) → NoDup (p0 :: rest) →
  p ∈ unique_dropped rel s p0 rest →
  ∃ k rk ck sk,
    (p0 :: rest) !! k = Some p ∧
    Unique_pred_loop k 0 0 (p0 :: rest) rel s = Ret (rk, ck) sk ∧
    Unique_pred (p0 :: rest) rel s =
      Unique_pred_loop (length rest - k) k (rk - 1) ck rel sk ∧
    ck !! k = Some nullptr ∧ ¬ live sk p.
Proof.
  intros Hlive Hnd Hp.
  destruct (unique_dropped_split rel s rest p0 p Hp) as (R1 & R2 & -> & Hrel).
  apply Forall_cons in Hlive as [Hp0 Hlive].
  apply Forall_app in Hlive as [Hlive1 Hlive2].
  apply Forall_cons in Hlive2 as [[x Hx] _].
  destruct p as [a|]; [simpl in Hx|done].
  assert (NoDup (p0 :: R1)) as Hnd1.
  { apply NoDup_cons in Hnd as [Hp0' Hnd].
    apply NoDup_app in Hnd as (Hnd1 & _ & _).
    constructor; [|done]. intros Hin. apply Hp0'. apply elem_of_app. by left. }
  assert (Some a ∉ p0 :: R1) as HaR1.
  { apply NoDup_cons in Hnd as [Hp0' Hnd].
    apply NoDup_app in Hnd as (_ & Hdis & _).
    intros [<-|Hin]%elem_of_cons.
    - apply Hp0'. apply elem_of_app. right. by left.
    - apply (Hdis _ Hin). by left. }
  destruct (Unique_pred_loop_run rel R1 [] p0 [] (Some a :: R2) s Hp0 Hlive1
              Hnd1) as (J & Hrun & Hlen & _).
  simpl in Hrun, Hlen.
  set (uk := unique_kept rel s p0 R1) in *.
  set (ud := unique_dropped rel s p0 R1) in *.
  set (ul := unique_last rel s p0 R1) in *.
  assert (length (p0 :: uk ++ J) = S (length R1)) as HukJ.
  { simpl. rewrite length_app, Hlen. unfold uk, ud.
    by rewrite unique_lengths. }
  assert (ul ∈ p0 :: uk) as Hul.
  { eapply list_elem_of_lookup_2. apply unique_kept_last. }
  assert (ul ∉ ud) as Hulud.
  { apply elem_of_cons in Hul as [->|Hul].
    - intros Hin. apply NoDup_cons in Hnd1 as [Hp0' _]. apply Hp0'.
      by eapply unique_dropped_subseteq.
    - apply unique_disjoint; [|done]. by apply NoDup_cons in Hnd1 as [_ ?]. }
  assert (∃ b xl, ul = Some b ∧ heap s !! b = Some xl ∧ rel xl x = true)
    as (b & xl & Hulb & Hxl & Hrelv).
  { unfold related in Hrel. fold ul in Hrel.
    destruct ul as [b|]; [simpl in Hrel|done].
    destruct (heap s !! b) as [xl|] eqn:Hb; [|done].
    rewrite Hx in Hrel. by exists b, xl. }
  set (arr := p0 :: uk ++ J ++ Some a :: R2) in *.
  assert (Hget1 : slot_get (V:=V) arr (length uk) = ret (Some b)).
  { unfold slot_get, arr.
    replace (p0 :: uk ++ J ++ Some a :: R2)
      with ((p0 :: uk) ++ J ++ Some a :: R2) by done.
    rewrite lookup_app_l by (simpl; lia).
    unfold uk. rewrite unique_kept_last. fold ul. by rewrite Hulb. }
  assert (Harr : arr = (p0 :: uk ++ J) ++ Some a :: R2).
  { unfold arr. simpl. by rewrite <- app_assoc. }
  assert (Hget2 : slot_get (V:=V) arr (S (length R1)) = ret (Some a)).
  { rewrite Harr, <- HukJ. apply slot_get_middle. }
  assert (Hset : slot_set (V:=V) arr (S (length R1)) nullptr =
                 ret ((p0 :: uk ++ J) ++ nullptr :: R2)).
  { rewrite Harr, <- HukJ. apply slot_set_middle. }
  assert (b ∉ addrs ud) as Hbud.
  { intros Hin. apply elem_of_addrs in Hin. by rewrite <- Hulb in Hin. }
  assert (a ∉ addrs ud) as Haud.
  { intros Hin. apply elem_of_addrs in Hin. apply HaR1. right.
    by eapply unique_dropped_subseteq. }
  assert (Hstep : Unique_pred_loop (S (length R1)) 0 0
                    (p0 :: R1 ++ Some a :: R2) rel s =
    Ret (S (length uk), (p0 :: uk ++ J) ++ nullptr :: R2)
        (State (delete a (without (addrs ud) (heap s)))
               ((freed s ++ addrs ud) ++ [a]))).
  { rewrite <- (Nat.add_1_r (length R1)) at 1.
    rewrite Unique_pred_loop_split. rewrite Hrun.
    cbn [Unique_pred_loop]. rewrite Nat.add_0_l.
    replace (S (length uk) - 1) with (length uk) by lia.
    unfold bind at 1. rewrite Hget1.
    unfold ret at 1. unfold bind at 1. unfold load at 1. simpl heap.
    rewrite lookup_without, decide_False by done. rewrite Hxl.
    unfold bind at 1. rewrite Hget2.
    unfold ret at 1. unfold bind at 1. unfold load at 1. simpl heap.
    rewrite lookup_without, decide_False by done. rewrite Hx.
    rewrite Hrelv. simpl.
    unfold bind at 1. unfold delete_ at 1. simpl heap.
    rewrite lookup_without, decide_False by done. rewrite Hx.
    unfold bind at 1. by rewrite Hset. }
  exists (S (length R1)). eexists _, _, _. split_and!.
  - simpl. by rewrite list_lookup_middle.
  - exact Hstep.
  - unfold Unique_pred. simpl length.
    replace (S (length (R1 ++ Some a :: R2)) - 1)
      with (S (length R1) + (length (R1 ++ Some a :: R2) - S (length R1))).
    + rewrite Unique_pred_loop_split. rewrite Hstep. done.
    + rewrite length_app. simpl. lia.
  - rewrite <- HukJ. by apply list_lookup_middle.
  - unfold live. simpl. rewrite lookup_delete_eq. by intros [? ?].
Qed.
End UniqueContract.

Section UniqueTheorem.
Context {V : Type} `{EqualityComparable V} `{LessThanComparable V}.
Hypothesis less_irrefl : ∀ x : V, less x x = false.
Hypothesis less_trans : ∀ x y z : V,
  less x y = true → less y z = true → less x z = true.
Hypothesis equal_incomparable : ∀ x y : V,
  equal_to x y = negb (less x y) && negb (less y x).
Hypothesis equal_trans : ∀ x y z : V,
  equal_to x y = true → equal_to y z = true → equal_to x z = true.
Implicit Types (s : state V) (c : list ptr).

Lemma unique_partition (rel : V → V → bool) s l : ∀ r q,
  q ∈ l → q ∈ unique_kept rel s r l ∨ q ∈ unique_dropped rel s r l.
Proof.
  induction l as [|p l IH]; intros r q Hq; [by apply elem_of_nil in Hq|].
  simpl. destruct (related rel s r p).
  - apply elem_of_cons in Hq as [->|Hq]; [right; by left|].
    destruct (IH r q Hq); [by left|right; by right].
  - apply elem_of_cons in Hq as [->|Hq]; [left; by left|].
    destruct (IH p q Hq); [left; by right|by right].
Qed.

(** C4. For a sorted range of owned pointers (each designates a living
    object, no two slots share one, no pointee is less than an earlier one;
    [operator<] is a strict weak ordering and [operator==] the equivalence
    it induces), [Unique] returns a new end such that the slots before it
    are a subsequence of the range in which no two neighbours have equal
    pointees and every value of the range has exactly one representative.
    Every other pointer of the range is deleted, once, and when the scan has
    dealt with its slot, and before it moves on, that slot holds [nullptr].
    For the empty range the value returned is [last]. *)
Theorem Unique_invariant c s :
  Forall (live s) c → NoDup c → sorted_range s c →
  ∃ r out s' dropped,
    Unique c s = Ret (r, out) s' ∧
    length out = length c ∧
    (c = [] → r = length c) ∧
    take r out `sublist_of` c ∧
    (∀ p, p ∈ take r out → pointee s' p = pointee s p) ∧
    (∀ i p q, take r out !! i = Some p → take r out !! S i = Some q →
       related equal_to s' p q = false) ∧
    (∀ p, p ∈ c →
       ∃ q, q ∈ take r out ∧ related equal_to s q p = true ∧
         ∀ q', q' ∈ take r out → related equal_to s q' p = true → q' = q) ∧
    freed s' = freed s ++ addrs dropped ∧ NoDup (addrs dropped) ∧
    (∀ p, p ∈ dropped ↔ p ∈ c ∧ p ∉ take r out) ∧
    (∀ p, p ∈ dropped →
       ¬ live s' p ∧
       ∃ k rk ck sk,
         c !! k = Some p ∧
         Unique_loop k 0 0 c s = Ret (rk, ck) sk ∧
         Unique c s = Unique_loop (length c - 1 - k) k (rk - 1) ck sk ∧
         ck !! k = Some nullptr ∧ ¬ live sk p).
Proof.
  intros Hlive Hnd Hsorted.
  destruct c as [|p0 rest].
  { exists 0, [], s, []. simpl. rewrite app_nil_r. split_and!; try done.
    - intros p Hp. by apply elem_of_nil in Hp.
    - constructor.
    - intros p. split; [intros Hp; by apply elem_of_nil in Hp|].
      intros [Hp _]. by apply elem_of_nil in Hp.
    - intros p Hp. by apply elem_of_nil in Hp. }
  destruct (Unique_pred_run equal_to p0 rest s Hlive Hnd)
    as (J & Hrun & Hlen & HJ).
  pose proof Hlive as Hlive'. apply Forall_cons in Hlive' as [Hp0 Hrest].
  pose proof Hnd as Hnd'. apply NoDup_cons in Hnd' as [Hp0rest Hndrest].
  set (uk := unique_kept equal_to s p0 rest) in *.
  set (ud := unique_dropped equal_to s p0 rest) in *.
  assert (take (S (length uk)) (p0 :: uk ++ J) = p0 :: uk) as Htake.
  { simpl. by rewrite take_app_length. }
  assert (∀ p, p ∈ ud → ∃ a, p = Some a ∧ a ∈ addrs ud) as Hgone.
  { intros p Hp. assert (p ∈ rest) as Hpc
      by (by eapply unique_dropped_subseteq).
    rewrite Forall_forall in Hrest. destruct (Hrest _ Hpc) as [x Hx].
    destruct p as [a|]; [|done]. exists a. split; [done|].
    by apply elem_of_addrs. }
  assert (∀ p, p ∈ p0 :: uk → p ∉ ud) as Hdisj.
  { intros p [->|Hp]%elem_of_cons.
    - intros Hin. apply Hp0rest. by eapply unique_dropped_subseteq.
    - by apply unique_disjoint. }
  set (s' := State (without (addrs ud) (heap s)) (freed s ++ addrs ud)) in *.
  assert (∀ p, p ∈ p0 :: uk → pointee s' p = pointee s p) as Hsame.
  { intros [a|] Hp; [simpl|done]. rewrite lookup_without.
    rewrite decide_False; [done|]. intros Hin. apply elem_of_addrs in Hin.
    by apply (Hdisj _ Hp). }
  exists (S (length uk)), (p0 :: uk ++ J), s', ud.
  rewrite Htake. split_and!.
  - unfold Unique. unfold Unique_pred in Hrun.
    rewrite Unique_as_Unique_pred. exact Hrun.
  - simpl. rewrite length_app, Hlen. unfold uk, ud.
    by rewrite unique_lengths.
  - done.
  - apply sublist_skip. apply unique_kept_sublist.
  - done.
  - intros i p q Hp Hq.
    assert (p ∈ p0 :: uk) by (by eapply list_elem_of_lookup_2).
    assert (q ∈ p0 :: uk) by (by eapply list_elem_of_lookup_2).
    unfold related. rewrite !Hsame by done.
    by apply (unique_kept_adjacent equal_to s rest p0 i).
  - intros p Hp.
    by apply (unique_kept_one_representative less_irrefl less_trans
                equal_incomparable equal_trans).
  - done.
  - unfold ud.
    assert (NoDup (unique_dropped equal_to s p0 rest)) as Hd
      by (by apply unique_dropped_NoDup).
    revert Hd. generalize (unique_dropped equal_to s p0 rest).
    induction l as [|[a|] l IH]; intros Hl; simpl.
    + constructor.
    + apply NoDup_cons in Hl as [Ha Hl]. constructor; [|by apply IH].
      intros Hin. apply Ha. by apply elem_of_addrs.
    + apply NoDup_cons in Hl as [_ Hl]. by apply IH.
  - intros p. split.
    + intros Hp. split.
      * right. by eapply unique_dropped_subseteq.
      * intros Hin. by apply (Hdisj _ Hin).
    + intros [Hp Hnot]. apply elem_of_cons in Hp as [->|Hp].
      * exfalso. apply Hnot. by left.
      * destruct (unique_partition equal_to s rest p0 p Hp) as [Hk|Hd];
          [|done].
        exfalso. apply Hnot. by right.
  - intros p Hp. split.
    + destruct (Hgone p Hp) as (a & -> & Ha).
      unfold live. simpl. rewrite lookup_without, decide_True by done.
      by intros [? ?].
    + destruct (Unique_pred_nulls_slot equal_to p0 rest s p Hlive Hnd Hp)
        as (k & rk & ck & sk & H1 & H2 & H3 & H4 & H5).
      exists k, rk, ck, sk. rewrite !Unique_as_Unique_pred.
      split_and!; try done.
      unfold Unique. rewrite Unique_as_Unique_pred.
      unfold Unique_pred in H3. simpl length.
      replace (S (length rest) - 1 - k) with (length rest - k) by lia.
      exact H3.
Qed.
End UniqueTheorem.

(** ** The sample pointee type *)

Lemma TestObject_less_irrefl (x : TestObject) : less x x = false.
Proof. apply Z.ltb_irrefl. Qed.

Lemma TestObject_less_trans (x y z : TestObject) :
  less x y = true → less y z = true → less x z = true.
Proof.
  unfold less, TestObject_less. rewrite !Z.ltb_lt. lia.
Qed.

Lemma TestObject_equal_incomparable (x y : TestObject) :
  equal_to x y = negb (less x y) && negb (less y x).
Proof.
  unfold equal_to, less, TestObject_eq, TestObject_less.
  destruct (Z.eqb_spec x y), (Z.ltb_spec x y), (Z.ltb_spec y x);
    simpl; try done; lia.
Qed.

Lemma TestObject_equal_trans (x y z : TestObject) :
  equal_to x y = true → equal_to y z = true → equal_to x z = true.
Proof.
  unfold equal_to, TestObject_eq. rewrite !Z.eqb_eq. congruence.
Qed.

(** The example of the specification: in [1, 9, 9] the second 9 goes, the
    new end is position 2 and slot 2 is null. *)
Example Unique_1_9_9 :
  Unique three_slots one_nine_nine =
    Ret (2, [Some 1; Some 2; nullptr])
        (State (delete 3 (heap one_nine_nine)) [3]).
Proof. vm_compute. reflexivity. Qed.

Example Unique_empty (s : state TestObject) : Unique [] s = Ret (0, []) s.
Proof. reflexivity. Qed.

Lemma Unique_invariant_witness :
  ∃ out s' dropped,
    Unique three_slots one_nine_nine = Ret (2, out) s' ∧
    take 2 out = [Some 1; Some 2] ∧ out !! 2 = Some nullptr ∧
    dropped = [Some 3] ∧ freed s' = addrs dropped.
Proof.
  destruct (Unique_invariant TestObject_less_irrefl TestObject_less_trans
              TestObject_equal_incomparable TestObject_equal_trans
              three_slots one_nine_nine)
    as (r & out & s' & dropped & Hrun & _ & _ & _ & _ & _ & _ & Hfreed & _ &
        _ & _).
  - by_compute.
  - by_compute.
  - by_compute.
  - rewrite Unique_1_9_9 in Hrun. injection Hrun as <- <- <-.
    exists [Some 1; Some 2; nullptr],
      (State (delete 3 (heap one_nine_nine)) [3]), [Some 3].
    split; [apply Unique_1_9_9|]. repeat split.
Defined.

Lemma Remove_invariant_witness :
  ∃ out s',
    Remove four_sources (outside 2%Z) eight_objects = Ret (3, out) s' ∧
    take 3 out = [Some 1; Some 3; Some 4] ∧ freed s' = [2].
Proof.
  destruct (Remove_invariant four_sources (outside 2%Z) 2%Z eight_objects)
    as (r & out & s' & Hrun & _ & Hpre & _ & Hfreed & _).
  - by_compute.
  - by_compute.
  - reflexivity.
  - exact I.
  - assert (r = 3) as ->.
    { assert (Hc : ∃ o t, Remove four_sources (outside 2%Z) eight_objects = Ret (3, o) t)
        by (vm_compute; eauto).
      destruct Hc as (o & t & Hc). rewrite Hc in Hrun. by injection Hrun. }
    exists out, s'. split; [exact Hrun|]. split.
    + rewrite Hpre. reflexivity.
    + rewrite Hfreed. reflexivity.
Defined.

Lemma Remove_compares_with_deleted_referent_witness :
  Remove three_slots (inside 2) one_nine_nine = Fault Dangling.
Proof.
  refine (proj2 (Remove_compares_with_deleted_referent three_slots 1 2 9%Z
                   one_nine_nine _ _ _ _ _ _)).
  - by_compute.
  - by_compute.
  - reflexivity.
  - simpl. lia.
  - reflexivity.
  - reflexivity.
Defined.

Lemma RemoveIf_decided_by_pred_alone_witness :
  ∃ r out s',
    RemoveIf four_sources 3%Z Z.even eight_objects = Ret (r, out) s' ∧
    take r out = [Some 1; Some 3] ∧ freed s' = [2; 4].
Proof.
  destruct (RemoveIf_decided_by_pred_alone four_sources 3%Z Z.even
              eight_objects)
    as [(r & out & s' & Hrun & _ & Hpre & _ & Hfreed & _) _].
  - by_compute.
  - by_compute.
  - exists r, out, s'. split; [exact Hrun|]. split.
    + rewrite Hpre. reflexivity.
    + rewrite Hfreed. reflexivity.
Defined.

(** C7. [RemoveIf] declares the parameter [value] and, unlike its sibling
    [Remove], never reads it: the value takes no part in the removal
    decision.  Asked to remove from 1, 2, 3, 4 with value 3 and the
    predicate "even", it removes 2 and 4 and keeps 3, the element equal to
    the value, where [Remove] with value 3 removes the 3; with value 1 it
    does the same as with value 3; and no two calls that differ in [value]
    alone differ in what they do. *)
Lemma RemoveIf_value_plays_no_part :
  RemoveIf four_sources 3%Z Z.even eight_objects =
    Ret (2, [Some 1; Some 3; Some 3; nullptr])
        (State (delete 4 (delete 2 (heap eight_objects))) [2; 4]) ∧
  Remove four_sources (outside 3%Z) eight_objects =
    Ret (3, [Some 1; Some 2; Some 4; Some 4])
        (State (delete 3 (heap eight_objects)) [3]) ∧
  RemoveIf four_sources 1%Z Z.even eight_objects =
    RemoveIf four_sources 3%Z Z.even eight_objects ∧
  ¬ (∃ (c : list ptr) (pred : TestObject → bool) (v1 v2 : TestObject)
       (s : state TestObject),
       RemoveIf c v1 pred s ≠ RemoveIf c v2 pred s).
Proof.
  split; [by vm_compute|]. split; [by vm_compute|]. split; [reflexivity|].
  intros (c & pred & v1 & v2 & s & Hne). apply Hne.
  apply RemoveIf_ignores_value.
Qed.

(** ** What is left behind the new end *)

Section Tail.
Context {V : Type} `{EqualityComparable V}.
Implicit Types (s : state V) (c : list ptr).

Lemma RemoveIf_tail {T} c (value : T) pred s :
  Forall (live s) c → NoDup c →
  ∃ r out s', RemoveIf c value pred s = Ret (r, out) s' ∧
    tail_spent s' c r out.
Proof.
  intros Hlive Hnd.
  destruct (RemoveIf_contract c value pred s Hlive Hnd)
    as (r & out & s' & Hrun & _ & _ & _ & _ & _ & _ & Htail & Hall & _).
  exists r, out, s'. by split.
Qed.

Lemma Remove_tail c value s :
  Forall (live s) c → NoDup c →
  ∃ r out s', Remove c (outside value) s = Ret (r, out) s' ∧ tail_spent s' c r out.
Proof.
  intros Hlive Hnd. unfold Remove. rewrite Remove_as_RemoveIf.
  by apply RemoveIf_tail.
Qed.

Lemma Unique_pred_tail c rel s :
  Forall (live s) c → NoDup c →
  ∃ r out s', Unique_pred c rel s = Ret (r, out) s' ∧ tail_spent s' c r out.
Proof.
  intros Hlive Hnd. destruct c as [|p0 rest].
  { exists 0, [], s. split; [done|]. split.
    - intros i p _ Hp. by rewrite lookup_nil in Hp.
    - intros p Hp. by apply elem_of_nil in Hp. }
  destruct (Unique_pred_run rel p0 rest s Hlive Hnd) as (J & Hrun & Hlen & HJ).
  set (uk := unique_kept rel s p0 rest) in *.
  set (ud := unique_dropped rel s p0 rest) in *.
  assert (take (S (length uk)) (p0 :: uk ++ J) = p0 :: uk) as Htake.
  { simpl. by rewrite take_app_length. }
  eexists _, _, _. split; [exact Hrun|]. unfold tail_spent. rewrite Htake.
  split.
  - intros i p Hi Hp.
    replace (p0 :: uk ++ J) with ((p0 :: uk) ++ J) in Hp by done.
    rewrite lookup_app_r in Hp by (simpl; lia).
    apply list_elem_of_lookup_2 in Hp.
    rewrite Forall_forall in HJ. destruct (HJ _ Hp); [by left|right; by right].
  - intros p Hp [x Hx].
    apply elem_of_cons in Hp as [->|Hp]; [by left|].
    destruct (unique_partition rel s rest p0 p Hp) as [Hk|Hd]; [by right|].
    exfalso. destruct p as [a|]; [simpl in Hx|done].
    rewrite lookup_without in Hx. rewrite decide_True in Hx; [done|].
    by apply elem_of_addrs.
Qed.

Lemma Unique_tail c s :
  Forall (live s) c → NoDup c →
  ∃ r out s', Unique c s = Ret (r, out) s' ∧ tail_spent s' c r out.
Proof.
  intros Hlive Hnd.
  destruct (Unique_pred_tail c equal_to s Hlive Hnd)
    as (r & out & s' & Hrun & Htail).
  exists r, out, s'. split; [|done].
  unfold Unique, Unique_pred in *. destruct c; [done|].
  by rewrite Unique_as_Unique_pred.
Qed.
End Tail.

(** C10. When [Remove], [RemoveIf] or [Unique] has returned the new end,
    every slot from there to [last] is null or holds a pointer that is also
    in a slot before the new end, and every pointer of the range that still
    designates a living object is before the new end.  Such a slot need not
    be null: removing 2 from the objects 1, 2, 3, 4 leaves the pointer to 4
    both in slot 2 and in slot 3, and deleting the pointers behind the new
    end and then those before it deletes that object twice. *)
Theorem tail_null_or_duplicate :
  (∀ (V : Type) (EQ : EqualityComparable V) (c : list ptr) (s : state V),
     Forall (live s) c → NoDup c →
     (∀ value, ∃ r out s',
        Remove c (outside value) s = Ret (r, out) s' ∧ tail_spent s' c r out) ∧
     (∀ (value : V) pred, ∃ r out s',
        RemoveIf c value pred s = Ret (r, out) s' ∧ tail_spent s' c r out) ∧
     (∃ r out s', Unique c s = Ret (r, out) s' ∧ tail_spent s' c r out) ∧
     (∀ pred, ∃ r out s',
        Unique_pred c pred s = Ret (r, out) s' ∧ tail_spent s' c r out)) ∧
  (∃ out s',
     Remove four_sources (outside 2%Z) eight_objects = Ret (3, out) s' ∧
     out !! 3 = Some (Some 4) ∧ out !! 2 = Some (Some 4) ∧
     (delete_each (drop 3 out);; delete_each (take 3 out)) s' =
       Fault Dangling).
Proof.
  split.
  - intros V EQ c s Hlive Hnd. split_and!.
    + intros value. by apply Remove_tail.
    + intros value pred. by apply RemoveIf_tail.
    + by apply Unique_tail.
    + intros pred. by apply Unique_pred_tail.
  - eexists _, _. split; [vm_compute; reflexivity|]. by vm_compute.
Qed.

Lemma tail_null_or_duplicate_witness :
  ∃ r out s',
    Unique three_slots one_nine_nine = Ret (r, out) s' ∧
    tail_spent s' three_slots r out.
Proof.
  destruct tail_null_or_duplicate as [Hgen _].
  destruct (Hgen TestObject TestObject_eq three_slots one_nine_nine)
    as (_ & _ & Hu & _).
  - by_compute.
  - by_compute.
  - exact Hu.
Defined.

(** ** The filtered algorithms *)

Section FilteredAsPlain.
Context {V : Type}.
Variable alloc : gmap addr V → option addr.
Hypothesis alloc_fresh : ∀ h a, alloc h = Some a → h !! a = None.
Implicit Types (s : state V) (first pre dst post : list ptr)
  (pred : V → bool).

Lemma matching_cons pred s a v l :
  heap s !! a = Some v →
  matching pred s (Some a :: l) =
    if pred v then Some a :: matching pred s l else matching pred s l.
Proof.
  intros Hv. unfold matching. rewrite filter_cons.
  rewrite (holds_true _ _ _ _ Hv). destruct (pred v).
  - by rewrite decide_True.
  - rewrite decide_False; [done|]. by intros [].
Qed.

Lemma matching_ext pred s s' l :
  (∀ q, q ∈ l → pointee s' q = pointee s q) →
  matching pred s' l = matching pred s l.
Proof.
  intros Hsame. apply filter_ext_elem. intros q Hq. unfold holds.
  by rewrite Hsame.
Qed.

Lemma matching_length pred s l : length (matching pred s l) ≤ length l.
Proof. apply length_filter. Qed.

(** [CopyIf] is [Copy] of the matching source slots. *)
Lemma CopyIf_as_Copy pred first : ∀ pre dst post s,
  length first ≤ length dst →
  Forall (live s) first → Forall (live s) dst →
  (∀ p, p ∈ dst → p ∉ first) →
  CopyIf first (length pre) (pre ++ dst ++ post) pred s =
  Copy (matching pred s first) (length pre) (pre ++ dst ++ post) s.
Proof.
  induction first as [|pf first IH];
    intros pre dst post s Hlen Hsrc Hdst Hdisj; [done|].
  destruct dst as [|pd dst]; [simpl in Hlen; lia|]. simpl in Hlen.
  apply Forall_cons in Hsrc as [[v Hv] Hsrc].
  pose proof Hdst as Hdst'. apply Forall_cons in Hdst' as [[w Hw] Hdst'].
  destruct pf as [b|]; [simpl in Hv|done].
  destruct pd as [a|]; [simpl in Hw|done].
  rewrite (matching_cons _ _ _ _ _ Hv).
  assert (CopyIf (Some b :: first) (length pre)
            (pre ++ (Some a :: dst) ++ post) pred s =
          if pred v then
            CopyIf first (S (length pre)) (pre ++ (Some a :: dst) ++ post) pred
              (State (<[a:=v]> (heap s)) (freed s))
          else CopyIf first (length pre) (pre ++ (Some a :: dst) ++ post)
                 pred s) as Hstep.
  { simpl. unfold bind at 1. rewrite slot_get_middle.
    unfold bind, ret, load, store. simpl. rewrite Hv.
    destruct (pred v); [|done]. by rewrite Hw. }
  rewrite Hstep. clear Hstep. destruct (pred v).
  - set (s1 := State (<[a:=v]> (heap s)) (freed s)).
    assert (Copy (Some b :: matching pred s first) (length pre)
              (pre ++ (Some a :: dst) ++ post) s =
            Copy (matching pred s first) (S (length pre))
              (pre ++ (Some a :: dst) ++ post) s1) as Hcopy.
    { simpl. unfold bind at 1. rewrite slot_get_middle.
      unfold bind, ret, load, store. simpl. by rewrite Hv, Hw. }
    rewrite Hcopy. clear Hcopy.
    assert (matching pred s1 first = matching pred s first) as Hm.
    { apply matching_ext. intros q Hq. apply pointee_store_ne.
      intros ->. apply (Hdisj (Some a)); [by left|by right]. }
    rewrite <- Hm.
    replace (pre ++ (Some a :: dst) ++ post)
      with ((pre ++ [Some a]) ++ dst ++ post)
      by (by rewrite <- app_assoc).
    replace (S (length pre)) with (length (pre ++ [Some a]))
      by (rewrite length_app; simpl; lia).
    apply IH.
    + lia.
    + eapply Forall_impl; [exact Hsrc|]. intros q. apply live_store.
    + eapply Forall_impl; [exact Hdst'|]. intros q. apply live_store.
    + intros q Hq Hin. apply (Hdisj q); [by right|by right].
  - apply IH; [simpl; lia|done|done|].
    intros q Hq Hin. apply (Hdisj q Hq). by right.
Qed.

(** [CloneIf] is [Clone] of the matching source slots. *)
Lemma CloneIf_as_Clone pred first : ∀ pre dst post s,
  length first ≤ length dst →
  Forall (live s) first → Forall (fun p => p ≠ nullptr) dst →
  CloneIf alloc (apart first) (length pre) (pre ++ dst ++ post) pred s =
  Clone alloc (apart (matching pred s first)) (length pre) (pre ++ dst ++ post) s.
Proof.
  induction first as [|pf first IH];
    intros pre dst post s Hlen Hsrc Hdst; [done|].
  destruct dst as [|pd dst]; [simpl in Hlen; lia|]. simpl in Hlen.
  apply Forall_cons in Hsrc as [[v Hv] Hsrc].
  pose proof Hdst as Hdst'. apply Forall_cons in Hdst' as [Hpd Hdst'].
  destruct pf as [b|]; [simpl in Hv|done].
  destruct pd as [c|]; [|done].
  rewrite (matching_cons _ _ _ _ _ Hv).
  assert (CloneIf alloc (apart (Some b :: first)) (length pre)
            (pre ++ (Some c :: dst) ++ post) pred s =
          if pred v then
            match alloc (heap s) with
            | Some a =>
                CloneIf alloc (apart first) (S (length pre))
                  ((pre ++ [Some a]) ++ dst ++ post) pred
                  (State (<[a:=v]> (heap s)) (freed s))
            | None => Throw s
            end
          else CloneIf alloc (apart first) (length pre)
                 (pre ++ (Some c :: dst) ++ post) pred s) as Hstep.
  { simpl. unfold bind at 1. rewrite slot_get_middle.
    unfold Clone_, bind, ret, load, new_. simpl. rewrite Hv.
    destruct (pred v); [|done]. rewrite Hv.
    destruct (alloc (heap s)); [|done].
    rewrite slot_set_middle. unfold ret. by rewrite <- app_assoc. }
  rewrite Hstep. clear Hstep. destruct (pred v).
  - assert (Clone alloc (apart (Some b :: matching pred s first)) (length pre)
              (pre ++ (Some c :: dst) ++ post) s =
            match alloc (heap s) with
            | Some a =>
                Clone alloc (apart (matching pred s first)) (S (length pre))
                  ((pre ++ [Some a]) ++ dst ++ post)
                  (State (<[a:=v]> (heap s)) (freed s))
            | None => Throw s
            end) as Hclone.
    { simpl. unfold bind at 1. rewrite slot_get_middle.
      unfold Clone_, bind, ret, load, new_. simpl. rewrite Hv.
      destruct (alloc (heap s)); [|done].
      rewrite slot_set_middle. unfold ret. by rewrite <- app_assoc. }
    rewrite Hclone. clear Hclone.
    destruct (alloc (heap s)) as [a|] eqn:Ha; [|done].
    pose proof (alloc_fresh _ _ Ha) as Hfresh.
    set (s1 := State (<[a:=v]> (heap s)) (freed s)).
    assert (matching pred s1 first = matching pred s first) as Hm.
    { apply matching_ext. intros q Hq. apply pointee_store_ne.
      intros ->. rewrite Forall_forall in Hsrc.
      destruct (Hsrc _ Hq) as [x Hx]. simpl in Hx. congruence. }
    rewrite <- Hm.
    replace (S (length pre)) with (length (pre ++ [Some a]))
      by (rewrite length_app; simpl; lia).
    apply IH; [lia| |done].
    eapply Forall_impl; [exact Hsrc|]. intros q. apply live_store.
  - apply IH; [simpl; lia|done|done].
Qed.

(** [ReplaceCloneIf] is [ReplaceClone] of the matching source slots. *)
Lemma ReplaceCloneIf_as_ReplaceClone pred first : ∀ pre dst post s,
  length first ≤ length dst →
  Forall (live s) first → Forall (live s) dst →
  NoDup dst → (∀ p, p ∈ dst → p ∉ first) →
  ReplaceCloneIf alloc (apart first) (length pre) (pre ++ dst ++ post) pred s =
  ReplaceClone alloc (apart (matching pred s first)) (length pre)
    (pre ++ dst ++ post) s.
Proof.
  induction first as [|pf first IH];
    intros pre dst post s Hlen Hsrc Hdst Hnd Hdisj; [done|].
  destruct dst as [|pd dst]; [simpl in Hlen; lia|]. simpl in Hlen.
  apply Forall_cons in Hsrc as [[v Hv] Hsrc].
  pose proof Hdst as Hdst'. apply Forall_cons in Hdst' as [[w Hw] Hdst'].
  pose proof Hnd as Hnd'. apply NoDup_cons in Hnd' as [Hpd Hnd'].
  destruct pf as [b|]; [simpl in Hv|done].
  destruct pd as [c|]; [simpl in Hw|done].
  assert (b ≠ c) as Hbc.
  { intros ->. apply (Hdisj (Some c)); by left. }
  rewrite (matching_cons _ _ _ _ _ Hv).
  assert (ReplaceCloneIf alloc (apart (Some b :: first)) (length pre)
            (pre ++ (Some c :: dst) ++ post) pred s =
          if pred v then
            match alloc (delete c (heap s)) with
            | Some a =>
                ReplaceCloneIf alloc (apart first) (S (length pre))
                  ((pre ++ [Some a]) ++ dst ++ post) pred
                  (State (<[a:=v]> (delete c (heap s))) (freed s ++ [c]))
            | None => Throw (State (delete c (heap s)) (freed s ++ [c]))
            end
          else ReplaceCloneIf alloc (apart first) (length pre)
                 (pre ++ (Some c :: dst) ++ post) pred s) as Hstep.
  { simpl. unfold bind at 1. rewrite slot_get_middle.
    unfold Clone_, bind, ret, load, new_, delete_. simpl. rewrite Hv.
    destruct (pred v); [|done]. rewrite Hw. simpl.
    rewrite lookup_delete_ne by done. rewrite Hv. simpl.
    destruct (alloc (delete c (heap s))); [|done].
    rewrite slot_set_middle. unfold ret. by rewrite <- app_assoc. }
  rewrite Hstep. clear Hstep. destruct (pred v).
  - assert (ReplaceClone alloc (apart (Some b :: matching pred s first)) (length pre)
              (pre ++ (Some c :: dst) ++ post) s =
            match alloc (delete c (heap s)) with
            | Some a =>
                ReplaceClone alloc (apart (matching pred s first)) (S (length pre))
                  ((pre ++ [Some a]) ++ dst ++ post)
                  (State (<[a:=v]> (delete c (heap s))) (freed s ++ [c]))
            | None => Throw (State (delete c (heap s)) (freed s ++ [c]))
            end) as Hclone.
    { simpl. unfold bind at 1. rewrite slot_get_middle.
      unfold Clone_, bind, ret, load, new_, delete_. simpl. rewrite Hw. simpl.
      rewrite lookup_delete_ne by done. rewrite Hv. simpl.
      destruct (alloc (delete c (heap s))); [|done].
      rewrite slot_set_middle. unfold ret. by rewrite <- app_assoc. }
    rewrite Hclone. clear Hclone.
    destruct (alloc (delete c (heap s))) as [a|] eqn:Ha; [|done].
    pose proof (alloc_fresh _ _ Ha) as Hfresh.
    set (s1 := State (<[a:=v]> (delete c (heap s))) (freed s ++ [c])).
    assert (∀ q, live s q → q ≠ Some c → pointee s1 q = pointee s q)
      as Hkeep.
    { intros [d|] [x Hx] Hqc; [simpl in *|done].
      assert (d ≠ c) by congruence.
      rewrite lookup_insert_ne.
      - by rewrite lookup_delete_ne.
      - intros ->. rewrite lookup_delete_ne in Hfresh by done. congruence. }
    assert (∀ q, q ∈ first → q ≠ Some c) as Hfirstc.
    { intros q Hq ->. apply (Hdisj (Some c)); [by left|by right]. }
    assert (matching pred s1 first = matching pred s first) as Hm.
    { apply matching_ext. intros q Hq. rewrite Forall_forall in Hsrc.
      apply Hkeep; [by apply Hsrc|by apply Hfirstc]. }
    rewrite <- Hm.
    replace (S (length pre)) with (length (pre ++ [Some a]))
      by (rewrite length_app; simpl; lia).
    apply IH; [lia| | |done|].
    + apply Forall_forall. intros q Hq. rewrite Forall_forall in Hsrc.
      unfold live. rewrite Hkeep; [by apply Hsrc|by apply Hsrc|].
      by apply Hfirstc.
    + apply Forall_forall. intros q Hq. rewrite Forall_forall in Hdst'.
      unfold live. rewrite Hkeep; [by apply Hdst'|by apply Hdst'|].
      by intros ->.
    + intros q Hq Hin. apply (Hdisj q); [by right|by right].
  - apply IH; [simpl; lia|done|done|done|].
    intros q Hq Hin. apply (Hdisj q Hq). by right.
Qed.
End FilteredAsPlain.

Section FilterFidelity.
Context {V : Type}.
Variable alloc : gmap addr V → option addr.
Hypothesis alloc_fresh : ∀ h a, alloc h = Some a → h !! a = None.
Implicit Types (s : state V) (first dst out : list ptr) (pred : V → bool).

Lemma matching_subseteq pred s first q :
  q ∈ matching pred s first → q ∈ first.
Proof. unfold matching. by intros [_ ?]%list_elem_of_filter. Qed.

Lemma CopyIf_fidelity first dst pred s :
  length first ≤ length dst →
  Forall (live s) first → Forall (live s) dst →
  NoDup dst → (∀ p, p ∈ dst → p ∉ first) →
  ∃ s', CopyIf first 0 dst pred s =
          Ret (length (matching pred s first), dst) s' ∧
    (∀ i pd pf, dst !! i = Some pd → matching pred s first !! i = Some pf →
       pointee s' pd = pointee s pf) ∧
    (∀ i pd, length (matching pred s first) ≤ i → dst !! i = Some pd →
       pointee s' pd = pointee s pd).
Proof.
  intros Hlen Hsrc Hdst Hnd Hdisj.
  set (m := matching pred s first). set (k := length m).
  assert (k ≤ length dst) as Hk.
  { unfold k, m. pose proof (matching_length pred s first). lia. }
  assert (Hsplit : dst = take k dst ++ drop k dst) by (by rewrite take_drop).
  assert (NoDup (take k dst) ∧ ∀ q, q ∈ take k dst → q ∉ drop k dst)
    as [Hnd1 Hnd12].
  { rewrite Hsplit in Hnd. by apply NoDup_app in Hnd as (? & ? & _). }
  destruct (Copy_run m [] (take k dst) (drop k dst) s)
    as (s' & Hrun & _ & Hval & Hframe).
  { rewrite length_take. fold k. lia. }
  { apply Forall_forall. intros q Hq. rewrite Forall_forall in Hsrc.
    apply Hsrc. by eapply matching_subseteq. }
  { rewrite Hsplit in Hdst. by apply Forall_app in Hdst as [? _]. }
  { done. }
  { intros q Hq Hin. apply (Hdisj q).
    - rewrite Hsplit. apply elem_of_app. by left.
    - by eapply matching_subseteq. }
  simpl in Hrun. rewrite <- Hsplit in Hrun.
  exists s'. split_and!.
  - pose proof (CopyIf_as_Copy pred first [] dst [] s Hlen Hsrc Hdst Hdisj)
      as Has.
    simpl in Has. rewrite app_nil_r in Has. by rewrite Has.
  - intros i pd pf Hpd Hpf. apply (Hval i); [|done].
    rewrite lookup_take_lt; [done|].
    apply lookup_lt_Some in Hpf. by fold m k in Hpf.
  - intros i pd Hi Hpd. apply Hframe. intros Hin.
    apply (Hnd12 _ Hin). apply list_elem_of_lookup.
    exists (i - k). rewrite lookup_drop. by replace (k + (i - k)) with i by lia.
Qed.

Lemma CloneIf_fidelity first dst pred s d out s' :
  length first ≤ length dst →
  Forall (live s) first → Forall (live s) dst →
  CloneIf alloc (apart first) 0 dst pred s = Ret (d, out) s' →
  d = length (matching pred s first) ∧ length out = length dst ∧
  (∀ i q pf, out !! i = Some q → matching pred s first !! i = Some pf →
     pointee s' q = pointee s pf ∧ q ≠ pf) ∧
  (∀ i, d ≤ i → out !! i = dst !! i).
Proof.
  intros Hlen Hsrc Hdst Hret.
  set (m := matching pred s first) in *. set (k := length m).
  assert (k ≤ length dst) as Hk.
  { unfold k, m. pose proof (matching_length pred s first). lia. }
  assert (Hsplit : dst = take k dst ++ drop k dst) by (by rewrite take_drop).
  assert (Forall (fun p : ptr => p ≠ nullptr) dst) as Hnn.
  { eapply Forall_impl; [exact Hdst|]. intros p. apply live_nonnull. }
  assert (Forall (live s) m) as Hm.
  { apply Forall_forall. intros q Hq. rewrite Forall_forall in Hsrc.
    apply Hsrc. by eapply matching_subseteq. }
  destruct (Clone_run alloc alloc_fresh m [] (take k dst) (drop k dst) s)
    as (new & s1 & Hnd & Hfr & _ & Hframe & Hval & Hend).
  { rewrite length_take. fold k. lia. }
  { done. }
  { rewrite Hsplit in Hnn. by apply Forall_app in Hnn as [? _]. }
  simpl in Hend. rewrite <- Hsplit in Hend.
  pose proof (CloneIf_as_Clone alloc alloc_fresh pred first [] dst [] s Hlen
                Hsrc Hnn) as Has.
  simpl in Has. rewrite app_nil_r in Has. fold m in Has.
  rewrite Has in Hret.
  destruct Hend as [[Hl Hrun]|(_ & _ & Hrun)]; [|congruence].
  rewrite Hrun in Hret. injection Hret as <- <- <-. fold k.
  split_and!.
  - done.
  - rewrite length_app, length_map, length_drop. unfold k in *. lia.
  - intros i q pf Hq Hpf.
    assert (i < length new) as Hi.
    { apply lookup_lt_Some in Hpf. fold k in Hpf. lia. }
    rewrite lookup_app_l in Hq by (by rewrite length_map).
    rewrite list_lookup_fmap in Hq.
    destruct (new !! i) as [a|] eqn:Ha; [|done]. injection Hq as <-.
    destruct (Hval _ _ Ha) as (p' & Hp' & Hv).
    assert (p' = pf) as -> by congruence. simpl. split; [done|].
    intros <-. rewrite Forall_forall in Hm.
    destruct (Hm (Some a)) as [x Hx]; [by eapply list_elem_of_lookup_2|].
    simpl in Hx. rewrite Hfr in Hx; [done|by eapply list_elem_of_lookup_2].
  - intros i Hi. rewrite lookup_app_r by (rewrite length_map; lia).
    rewrite length_map, lookup_drop. f_equal. lia.
Qed.

Lemma ReplaceCloneIf_fidelity first dst pred s d out s' :
  length first ≤ length dst →
  Forall (live s) first → Forall (live s) dst →
  NoDup dst → (∀ p, p ∈ dst → p ∉ first) →
  ReplaceCloneIf alloc (apart first) 0 dst pred s = Ret (d, out) s' →
  d = length (matching pred s first) ∧ length out = length dst ∧
  (∀ i q pf, out !! i = Some q → matching pred s first !! i = Some pf →
     pointee s' q = pointee s pf ∧ q ≠ pf) ∧
  (∀ i, d ≤ i → out !! i = dst !! i).
Proof.
  intros Hlen Hsrc Hdst Hndd Hdisj Hret.
  set (m := matching pred s first) in *. set (k := length m).
  assert (k ≤ length dst) as Hk.
  { unfold k, m. pose proof (matching_length pred s first). lia. }
  assert (Hsplit : dst = take k dst ++ drop k dst) by (by rewrite take_drop).
  assert (Forall (live s) m) as Hm.
  { apply Forall_forall. intros q Hq. rewrite Forall_forall in Hsrc.
    apply Hsrc. by eapply matching_subseteq. }
  assert (∀ q, q ∈ take k dst → q ∈ dst) as Htk.
  { intros q Hq. rewrite Hsplit. apply elem_of_app. by left. }
  destruct (ReplaceClone_run alloc alloc_fresh m [] (take k dst) (drop k dst)
              s)
    as (new & s1 & Hnd & Hfr & Hframe & Hval & Hend).
  { rewrite length_take. fold k. lia. }
  { done. }
  { rewrite Hsplit in Hdst. by apply Forall_app in Hdst as [? _]. }
  { rewrite Hsplit in Hndd. by apply NoDup_app in Hndd as (? & _ & _). }
  { intros q Hq Hin. apply (Hdisj q); [by apply Htk|].
    by eapply matching_subseteq. }
  simpl in Hend. rewrite <- Hsplit in Hend.
  pose proof (ReplaceCloneIf_as_ReplaceClone alloc alloc_fresh pred first []
                dst [] s Hlen Hsrc Hdst Hndd Hdisj) as Has.
  simpl in Has. rewrite app_nil_r in Has. fold m in Has.
  rewrite Has in Hret.
  destruct Hend as [(Hl & _ & Hrun)|(_ & _ & Hrun)]; [|congruence].
  rewrite Hrun in Hret. injection Hret as <- <- <-. fold k.
  split_and!.
  - done.
  - rewrite length_app, length_map, length_drop. unfold k in *. lia.
  - intros i q pf Hq Hpf.
    assert (i < length new) as Hi.
    { apply lookup_lt_Some in Hpf. fold k in Hpf. lia. }
    rewrite lookup_app_l in Hq by (by rewrite length_map).
    rewrite list_lookup_fmap in Hq.
    destruct (new !! i) as [a|] eqn:Ha; [|done]. injection Hq as <-.
    destruct (Hval _ _ Ha) as (p' & Hp' & Hv).
    assert (p' = pf) as -> by congruence. simpl. split; [done|].
    intros <-. rewrite Forall_forall in Hm.
    assert (Some a ∈ m) as Hin by (by eapply list_elem_of_lookup_2).
    destruct (Hm _ Hin) as [x Hx]. simpl in Hx.
    destruct (Hfr a) as [Hnone|Hdst']; [by eapply list_elem_of_lookup_2| |].
    + congruence.
    + apply (Hdisj (Some a)); [by apply Htk|by eapply matching_subseteq].
  - intros i Hi. rewrite lookup_app_r by (rewrite length_map; lia).
    rewrite length_map, lookup_drop. f_equal. lia.
Qed.

(** When the allocator never refuses, the two filtered cloning algorithms
    return. *)
Lemma CloneIf_returns first dst pred s :
  length first ≤ length dst →
  Forall (live s) first → Forall (live s) dst →
  (∀ h, is_Some (alloc h)) →
  ∃ d out s', CloneIf alloc (apart first) 0 dst pred s = Ret (d, out) s'.
Proof.
  intros Hlen Hsrc Hdst Htotal.
  set (m := matching pred s first) in *. set (k := length m).
  assert (k ≤ length dst) as Hk.
  { unfold k, m. pose proof (matching_length pred s first). lia. }
  assert (Hsplit : dst = take k dst ++ drop k dst) by (by rewrite take_drop).
  assert (Forall (fun p : ptr => p ≠ nullptr) dst) as Hnn.
  { eapply Forall_impl; [exact Hdst|]. intros p. apply live_nonnull. }
  assert (Forall (live s) m) as Hm.
  { apply Forall_forall. intros q Hq. rewrite Forall_forall in Hsrc.
    apply Hsrc. by eapply matching_subseteq. }
  destruct (Clone_run alloc alloc_fresh m [] (take k dst) (drop k dst) s)
    as (new & s1 & _ & _ & _ & _ & _ & Hend).
  { rewrite length_take. fold k. lia. }
  { done. }
  { rewrite Hsplit in Hnn. by apply Forall_app in Hnn as [? _]. }
  simpl in Hend. rewrite <- Hsplit in Hend.
  pose proof (CloneIf_as_Clone alloc alloc_fresh pred first [] dst [] s Hlen
                Hsrc Hnn) as Has.
  simpl in Has. rewrite app_nil_r in Has. fold m in Has.
  destruct Hend as [[_ Hrun]|(_ & Hnone & _)].
  - eexists _, _, _. rewrite Has. exact Hrun.
  - destruct (Htotal (heap s1)) as [a Ha]. congruence.
Qed.

Lemma ReplaceCloneIf_returns first dst pred s :
  length first ≤ length dst →
  Forall (live s) first → Forall (live s) dst →
  NoDup dst → (∀ p, p ∈ dst → p ∉ first) →
  (∀ h, is_Some (alloc h)) →
  ∃ d out s',
    ReplaceCloneIf alloc (apart first) 0 dst pred s = Ret (d, out) s'.
Proof.
  intros Hlen Hsrc Hdst Hndd Hdisj Htotal.
  set (m := matching pred s first) in *. set (k := length m).
  assert (k ≤ length dst) as Hk.
  { unfold k, m. pose proof (matching_length pred s first). lia. }
  assert (Hsplit : dst = take k dst ++ drop k dst) by (by rewrite take_drop).
  assert (Forall (live s) m) as Hm.
  { apply Forall_forall. intros q Hq. rewrite Forall_forall in Hsrc.
    apply Hsrc. by eapply matching_subseteq. }
  assert (∀ q, q ∈ take k dst → q ∈ dst) as Htk.
  { intros q Hq. rewrite Hsplit. apply elem_of_app. by left. }
  destruct (ReplaceClone_run alloc alloc_fresh m [] (take k dst) (drop k dst)
              s)
    as (new & s1 & _ & _ & _ & _ & Hend).
  { rewrite length_take. fold k. lia. }
  { done. }
  { rewrite Hsplit in Hdst. by apply Forall_app in Hdst as [? _]. }
  { rewrite Hsplit in Hndd. by apply NoDup_app in Hndd as (? & _ & _). }
  { intros q Hq Hin. apply (Hdisj q); [by apply Htk|].
    by eapply matching_subseteq. }
  simpl in Hend. rewrite <- Hsplit in Hend.
  pose proof (ReplaceCloneIf_as_ReplaceClone alloc alloc_fresh pred first []
                dst [] s Hlen Hsrc Hdst Hndd Hdisj) as Has.
  simpl in Has. rewrite app_nil_r in Has. fold m in Has.
  destruct Hend as [(_ & _ & Hrun)|(_ & Hnone & _)].
  - eexists _, _, _. rewrite Has. exact Hrun.
  - destruct (Htotal (heap s1)) as [a Ha]. congruence.
Qed.

Lemma CloneIf_never_faults first dst pred s f :
  length first ≤ length dst →
  Forall (live s) first → Forall (live s) dst →
  CloneIf alloc (apart first) 0 dst pred s ≠ Fault f.
Proof.
  intros Hlen Hsrc Hdst.
  set (m := matching pred s first) in *. set (k := length m).
  assert (k ≤ length dst) as Hk.
  { unfold k, m. pose proof (matching_length pred s first). lia. }
  assert (Hsplit : dst = take k dst ++ drop k dst) by (by rewrite take_drop).
  assert (Forall (fun p : ptr => p ≠ nullptr) dst) as Hnn.
  { eapply Forall_impl; [exact Hdst|]. intros p. apply live_nonnull. }
  assert (Forall (live s) m) as Hm.
  { apply Forall_forall. intros q Hq. rewrite Forall_forall in Hsrc.
    apply Hsrc. by eapply matching_subseteq. }
  destruct (Clone_run alloc alloc_fresh m [] (take k dst) (drop k dst) s)
    as (new & s1 & _ & _ & _ & _ & _ & Hend).
  { rewrite length_take. fold k. lia. }
  { done. }
  { rewrite Hsplit in Hnn. by apply Forall_app in Hnn as [? _]. }
  simpl in Hend. rewrite <- Hsplit in Hend.
  pose proof (CloneIf_as_Clone alloc alloc_fresh pred first [] dst [] s Hlen
                Hsrc Hnn) as Has.
  simpl in Has. rewrite app_nil_r in Has. fold m in Has.
  rewrite Has. destruct Hend as [[_ Hrun]|(_ & _ & Hrun)]; by rewrite Hrun.
Qed.

Lemma ReplaceCloneIf_never_faults first dst pred s f :
  length first ≤ length dst →
  Forall (live s) first → Forall (live s) dst →
  NoDup dst → (∀ p, p ∈ dst → p ∉ first) →
  ReplaceCloneIf alloc (apart first) 0 dst pred s ≠ Fault f.
Proof.
  intros Hlen Hsrc Hdst Hndd Hdisj.
  set (m := matching pred s first) in *. set (k := length m).
  assert (k ≤ length dst) as Hk.
  { unfold k, m. pose proof (matching_length pred s first). lia. }
  assert (Hsplit : dst = take k dst ++ drop k dst) by (by rewrite take_drop).
  assert (Forall (live s) m) as Hm.
  { apply Forall_forall. intros q Hq. rewrite Forall_forall in Hsrc.
    apply Hsrc. by eapply matching_subseteq. }
  assert (∀ q, q ∈ take k dst → q ∈ dst) as Htk.
  { intros q Hq. rewrite Hsplit. apply elem_of_app. by left. }
  destruct (ReplaceClone_run alloc alloc_fresh m [] (take k dst) (drop k dst)
              s)
    as (new & s1 & _ & _ & _ & _ & Hend).
  { rewrite length_take. fold k. lia. }
  { done. }
  { rewrite Hsplit in Hdst. by apply Forall_app in Hdst as [? _]. }
  { rewrite Hsplit in Hndd. by apply NoDup_app in Hndd as (? & _ & _). }
  { intros q Hq Hin. apply (Hdisj q); [by apply Htk|].
    by eapply matching_subseteq. }
  simpl in Hend. rewrite <- Hsplit in Hend.
  pose proof (ReplaceCloneIf_as_ReplaceClone alloc alloc_fresh pred first []
                dst [] s Hlen Hsrc Hdst Hndd Hdisj) as Has.
  simpl in Has. rewrite app_nil_r in Has. fold m in Has.
  rewrite Has.
  destruct Hend as [(_ & _ & Hrun)|(_ & _ & Hrun)]; by rewrite Hrun.
Qed.

(** [ReplaceCopyIf] moves its destination along with the source: the
    pointee of destination slot [i] is replaced if and only if source
    pointee [i] satisfies the predicate, and the value returned is the
    destination advanced by the length of the source. *)
Lemma ReplaceCopyIf_run pred first : ∀ pre dst post s,
  length dst = length first →
  Forall (live s) first → Forall (live s) dst →
  NoDup dst → (∀ p, p ∈ dst → p ∉ first) →
  ∃ s', ReplaceCopyIf first (length pre) (pre ++ dst ++ post) pred s =
          Ret (length pre + length first, pre ++ dst ++ post) s' ∧
    (∀ i pd pf, dst !! i = Some pd → first !! i = Some pf →
       pointee s' pd =
         if holds pred s pf then pointee s pf else pointee s pd) ∧
    (∀ p, p ∉ dst → pointee s' p = pointee s p).
Proof.
  induction first as [|pf first IH];
    intros pre dst post s Hlen Hsrc Hdst Hnd Hdisj.
  - destruct dst; [|done]. exists s. simpl. rewrite Nat.add_0_r.
    split_and!; done.
  - destruct dst as [|pd dst]; [done|]. simpl in Hlen.
    apply Forall_cons in Hsrc as [[v Hv] Hsrc].
    apply Forall_cons in Hdst as [[w Hw] Hdst].
    apply NoDup_cons in Hnd as [Hpd Hnd].
    destruct pf as [b|]; [simpl in Hv|done].
    destruct pd as [a|]; [simpl in Hw|done].
    set (s1 := if pred v then State (<[a:=v]> (heap s)) (freed s) else s).
    assert (∀ q, q ≠ Some a → pointee s1 q = pointee s q) as Hkeep.
    { intros q Hq. unfold s1. destruct (pred v); [|done].
      by apply pointee_store_ne. }
    assert (∀ q, live s q → live s1 q) as Hkeeplive.
    { intros q Hq. unfold s1. destruct (pred v); [|done].
      by apply live_store. }
    assert (ReplaceCopyIf (Some b :: first) (length pre)
              (pre ++ (Some a :: dst) ++ post) pred s =
            ReplaceCopyIf first (S (length pre))
              ((pre ++ [Some a]) ++ dst ++ post) pred s1) as Hstep.
    { simpl. unfold bind at 1. rewrite slot_get_middle.
      unfold bind, ret, load, store. simpl. rewrite Hv. unfold s1.
      rewrite <- app_assoc. simpl.
      destruct (pred v); [|done]. by rewrite Hw. }
    destruct (IH (pre ++ [Some a]) dst post s1)
      as (s' & Hrun & Hval & Hframe).
    { lia. }
    { eapply Forall_impl; [exact Hsrc|]. done. }
    { eapply Forall_impl; [exact Hdst|]. done. }
    { done. }
    { intros p Hp Hin. apply (Hdisj p); [by right|by right]. }
    exists s'. split.
    { rewrite Hstep.
      replace (S (length pre)) with (length (pre ++ [Some a]))
        by (rewrite length_app; simpl; lia).
      rewrite Hrun. rewrite length_app, <- app_assoc. simpl.
      do 2 f_equal. lia. }
    split.
    + intros [|i] qd qf Hqd Hqf; simpl in Hqd, Hqf.
      * injection Hqd as <-. injection Hqf as <-.
        rewrite (Hframe _ Hpd). rewrite (holds_true _ _ _ _ Hv).
        unfold s1. destruct (pred v); simpl; [|done].
        by rewrite lookup_insert_eq.
      * rewrite (Hval _ _ _ Hqd Hqf).
        assert (qf ≠ Some a) as Hqfa.
        { intros ->. apply (Hdisj (Some a)); [by left|].
          right. by eapply list_elem_of_lookup_2. }
        assert (qd ≠ Some a) as Hqda.
        { intros ->. apply Hpd. by eapply list_elem_of_lookup_2. }
        unfold holds. rewrite !Hkeep by done. done.
    + intros p Hp. apply not_elem_of_cons in Hp as [Hne Hp].
      rewrite (Hframe _ Hp). by apply Hkeep.
Qed.
End FilterFidelity.

(** C1 at the input of the specification's example: the sources 1, 2, 3, 4,
    four placeholders and the predicate "even", which two sources satisfy.
    [CopyIf], [CloneIf] and [ReplaceCloneIf] write 2 and 4 to the first two
    destination slots and return the destination advanced by two.
    [ReplaceCopyIf] writes 2 and 4 to the slots 1 and 3, leaves the slots 0
    and 2 as they were, and returns the destination advanced by four. *)
Theorem ReplaceCopyIf_advances_past_unmatched :
  length (matching Z.even eight_objects four_sources) = 2 ∧
  (∃ s', CopyIf four_sources 0 four_targets Z.even eight_objects =
           Ret (2, four_targets) s' ∧
     pointees s' four_targets = [Some 2; Some 4; Some 0; Some 0]%Z) ∧
  (∃ out s', CloneIf bump_alloc (apart four_sources) 0 four_targets Z.even
               eight_objects = Ret (2, out) s' ∧
     pointees s' out = [Some 2; Some 4; Some 0; Some 0]%Z) ∧
  (∃ out s', ReplaceCloneIf bump_alloc (apart four_sources) 0 four_targets Z.even
               eight_objects = Ret (2, out) s' ∧
     pointees s' out = [Some 2; Some 4; Some 0; Some 0]%Z) ∧
  (∃ s', ReplaceCopyIf four_sources 0 four_targets Z.even eight_objects =
           Ret (4, four_targets) s' ∧
     pointees s' four_targets = [Some 0; Some 2; Some 0; Some 4]%Z).
Proof.
  split; [by vm_compute|].
  split; [eexists; split; [vm_compute; reflexivity|by vm_compute]|].
  split; [eexists _, _; split; [vm_compute; reflexivity|by vm_compute]|].
  split; [eexists _, _; split; [vm_compute; reflexivity|by vm_compute]|].
  eexists; split; [vm_compute; reflexivity|by vm_compute].
Qed.

Section FilteredSummary.
Context {V : Type}.
Variable alloc : gmap addr V → option addr.
Hypothesis alloc_fresh : ∀ h a, alloc h = Some a → h !! a = None.
Implicit Types (s : state V) (first dst out : list ptr) (pred : V → bool).

(** X20. What the four filtered algorithms do on ranges of owned pointers,
    the destination being at least as long as the source.  [CopyIf], [CloneIf]
    and [ReplaceCloneIf] write the matching source pointees, in order, to
    the first destination slots and return the destination advanced by
    their number; [ReplaceCopyIf] (source and destination equally long)
    replaces in place and returns the destination advanced by the length of
    the source.  [CopyIf] and [ReplaceCopyIf] always return on such ranges;
    [CloneIf] and [ReplaceCloneIf] return whenever the allocator never
    refuses, and otherwise either return or pass on its exception. *)
Theorem filtered_algorithms first dst pred s :
  length first ≤ length dst →
  Forall (live s) first → Forall (live s) dst →
  NoDup dst → (∀ p, p ∈ dst → p ∉ first) →
  (∃ s', CopyIf first 0 dst pred s =
           Ret (length (matching pred s first), dst) s' ∧
     (∀ i pd pf, dst !! i = Some pd → matching pred s first !! i = Some pf →
        pointee s' pd = pointee s pf) ∧
     (∀ i pd, length (matching pred s first) ≤ i → dst !! i = Some pd →
        pointee s' pd = pointee s pd)) ∧
  (∀ d out s', CloneIf alloc (apart first) 0 dst pred s = Ret (d, out) s' →
     d = length (matching pred s first) ∧ length out = length dst ∧
     (∀ i q pf, out !! i = Some q → matching pred s first !! i = Some pf →
        pointee s' q = pointee s pf ∧ q ≠ pf) ∧
     (∀ i, d ≤ i → out !! i = dst !! i)) ∧
  (∀ d out s', ReplaceCloneIf alloc (apart first) 0 dst pred s = Ret (d, out) s' →
     d = length (matching pred s first) ∧ length out = length dst ∧
     (∀ i q pf, out !! i = Some q → matching pred s first !! i = Some pf →
        pointee s' q = pointee s pf ∧ q ≠ pf) ∧
     (∀ i, d ≤ i → out !! i = dst !! i)) ∧
  ((∀ h, is_Some (alloc h)) →
   (∃ d out s', CloneIf alloc (apart first) 0 dst pred s = Ret (d, out) s') ∧
   (∃ d out s',
      ReplaceCloneIf alloc (apart first) 0 dst pred s = Ret (d, out) s')) ∧
  (∀ f, CloneIf alloc (apart first) 0 dst pred s ≠ Fault f ∧
        ReplaceCloneIf alloc (apart first) 0 dst pred s ≠ Fault f) ∧
  (length dst = length first →
   ∃ s', ReplaceCopyIf first 0 dst pred s = Ret (length first, dst) s' ∧
     (∀ i pd pf, dst !! i = Some pd → first !! i = Some pf →
        pointee s' pd =
          if holds pred s pf then pointee s pf else pointee s pd)).
Proof.
  intros Hlen Hsrc Hdst Hnd Hdisj. split_and!.
  - by apply CopyIf_fidelity.
  - intros d out s'. by apply CloneIf_fidelity.
  - intros d out s'. by apply ReplaceCloneIf_fidelity.
  - intros Htotal. split.
    + by apply CloneIf_returns.
    + by apply ReplaceCloneIf_returns.
  - intros f. split.
    + by apply CloneIf_never_faults.
    + by apply ReplaceCloneIf_never_faults.
  - intros Heq.
    destruct (ReplaceCopyIf_run pred first [] dst [] s Heq Hsrc Hdst Hnd Hdisj)
      as (s' & Hrun & Hval & _).
    simpl in Hrun. rewrite app_nil_r in Hrun. by exists s'.
Qed.
End FilteredSummary.

(** ** Null pointers at the positions visited *)

Section NullVisited.
Context {V : Type} `{EqualityComparable V}.
Variable alloc : gmap addr V → option addr.
Implicit Types (s : state V) (l pre dst post rest c : list ptr).

Lemma CopyN_loop_null l : ∀ count sp rest pf pre dst pd post s,
  length dst = length l → length l < count →
  Forall (live s) l → Forall (live s) dst →
  pf = nullptr ∨ (live s pf ∧ pd = nullptr) →
  CopyN_loop count (sp ++ l ++ pf :: rest) (length sp) (length pre)
    (pre ++ dst ++ pd :: post) s = Fault NullDeref.
Proof.
  induction l as [|p l IH];
    intros count sp rest pf pre dst pd post s Hlen Hcount Hsrc Hdst Hnull.
  - destruct dst; [|done]. destruct count as [|count]; [simpl in Hcount; lia|].
    simpl. unfold bind at 1. rewrite slot_get_middle. simpl.
    unfold bind at 1. rewrite slot_get_middle. simpl.
    unfold bind, load, store.
    destruct Hnull as [->|[[v Hv] ->]]; [done|].
    destruct pf as [b|]; [simpl in Hv|done]. by rewrite Hv.
  - destruct dst as [|d dst]; [done|]. simpl in Hlen.
    apply Forall_cons in Hsrc as [[v Hv] Hsrc].
    apply Forall_cons in Hdst as [[w Hw] Hdst].
    destruct p as [b|]; [simpl in Hv|done].
    destruct d as [a|]; [simpl in Hw|done].
    destruct count as [|[|count]]; [simpl in Hcount; lia..|].
    simpl in Hcount.
    set (s1 := State (<[a:=v]> (heap s)) (freed s)).
    specialize (IH (S count) (sp ++ [Some b]) rest pf (pre ++ [Some a]) dst
                  pd post s1).
    rewrite !length_app, <- !app_assoc in IH. simpl in IH.
    rewrite !Nat.add_1_r in IH.
    cbn [CopyN_loop app]. unfold bind at 1. rewrite slot_get_middle. simpl.
    unfold bind at 1. rewrite slot_get_middle. simpl.
    unfold bind, load, store. rewrite Hv, Hw. fold s1.
    apply IH; [lia|lia| | |].
    + eapply Forall_impl; [exact Hsrc|]. intros q. apply live_store.
    + eapply Forall_impl; [exact Hdst|]. intros q. apply live_store.
    + destruct Hnull as [->|[Hpf ->]]; [by left|right].
      split; [by apply live_store|done].
Qed.

Lemma CopyBackward_loop_null l : ∀ rest pf pre pd dst post s,
  length dst = length l →
  Forall (live s) l → Forall (live s) dst →
  pf = nullptr ∨ (live s pf ∧ pd = nullptr) →
  CopyBackward_loop (rev l ++ pf :: rest) (length pre + S (length l))
    (pre ++ pd :: dst ++ post) s = Fault NullDeref.
Proof.
  induction l as [|p l IH] using rev_ind;
    intros rest pf pre pd dst post s Hlen Hsrc Hdst Hnull.
  - destruct dst; [|done]. simpl. rewrite Nat.add_1_r.
    unfold bind at 1. rewrite slot_get_middle. simpl.
    unfold bind, load, store.
    destruct Hnull as [->|[[v Hv] ->]]; [done|].
    destruct pf as [b|]; [simpl in Hv|done]. by rewrite Hv.
  - destruct dst as [|d dst _] using rev_ind.
    { rewrite length_app in Hlen. simpl in Hlen. lia. }
    rewrite !length_app in Hlen. simpl in Hlen.
    apply Forall_app in Hsrc as [Hsrc Hp].
    apply Forall_cons in Hp as [[v Hv] _].
    apply Forall_app in Hdst as [Hdst Hd].
    apply Forall_cons in Hd as [[w Hw] _].
    destruct p as [b|]; [simpl in Hv|done].
    destruct d as [a|]; [simpl in Hw|done].
    set (s1 := State (<[a:=v]> (heap s)) (freed s)).
    specialize (IH rest pf pre pd dst (Some a :: post) s1).
    rewrite rev_app_distr, length_app. simpl.
    replace (length pre + S (length l + 1))
      with (S (length (pre ++ pd :: dst)))
      by (rewrite length_app; simpl; lia).
    unfold bind at 1.
    replace (pre ++ pd :: (dst ++ [Some a]) ++ post)
      with ((pre ++ pd :: dst) ++ Some a :: post)
      by (by rewrite <- !app_assoc).
    rewrite slot_get_middle. simpl. unfold bind, load, store. simpl.
    rewrite Hv, Hw. fold s1.
    rewrite <- app_assoc, length_app. simpl.
    replace (length pre + S (length dst)) with (length pre + S (length l))
      by lia.
    apply IH; [lia| | |].
    + eapply Forall_impl; [exact Hsrc|]. intros q. apply live_store.
    + eapply Forall_impl; [exact Hdst|]. intros q. apply live_store.
    + destruct Hnull as [->|[Hpf ->]]; [by left|right].
      split; [by apply live_store|done].
Qed.

Lemma RemoveIf_null_visited {T} (value : T) pred pre post s :
  Forall (live s) pre → NoDup pre →
  RemoveIf (pre ++ nullptr :: post) value pred s = Fault NullDeref.
Proof.
  intros Hlive Hnd.
  destruct (RemoveIf_loop_run value pred pre [] [] (nullptr :: post) s
              Hlive Hnd) as (J & Hrun & Hlen & _).
  simpl in Hrun, Hlen.
  unfold RemoveIf. rewrite length_app. simpl.
  rewrite RemoveIf_loop_split, Hrun. simpl.
  replace (length pre)
    with (length (kept pred s pre ++ J)).
  - rewrite app_assoc. unfold bind at 1. by rewrite slot_get_middle.
  - rewrite length_app, Hlen. apply kept_removed_length.
Qed.

Lemma Remove_null_visited value v pre post s :
  Forall (live s) pre → NoDup pre →
  referent s value = Some v → apart_from value pre →
  Remove (pre ++ nullptr :: post) value s = Fault NullDeref.
Proof.
  intros Hlive Hnd Href Hapart.
  set (pred := fun x => equal_to x v).
  destruct (RemoveIf_loop_run v pred pre [] [] (nullptr :: post) s
              Hlive Hnd) as (J & Hrun & Hlen & _).
  simpl in Hrun, Hlen.
  assert (Remove_loop (length pre) 0 0 (pre ++ nullptr :: post) value s =
          RemoveIf_loop (length pre) 0 0 (pre ++ nullptr :: post) v pred s)
    as Hprefix.
  { destruct value as [v0|a]; simpl in Href, Hapart.
    - injection Href as ->. apply Remove_as_RemoveIf.
    - apply Remove_inside_as_RemoveIf; [done|lia|].
      intros i _ Hi Hc. simpl in Hi. rewrite lookup_app_l in Hc by done.
      apply Hapart. by eapply list_elem_of_lookup_2. }
  unfold Remove. rewrite length_app. simpl.
  rewrite Remove_loop_split, Hprefix, Hrun. simpl.
  replace (length pre)
    with (length (kept pred s pre ++ J)).
  - rewrite app_assoc. unfold bind at 1. by rewrite slot_get_middle.
  - rewrite length_app, Hlen. apply kept_removed_length.
Qed.
Lemma Unique_pred_null_visited rel p0 rest post s :
  Forall (live s) (p0 :: rest) → NoDup (p0 :: rest) →
  Unique_pred (p0 :: rest ++ nullptr :: post) rel s = Fault NullDeref.
Proof.
  intros Hlive Hnd. apply Forall_cons in Hlive as [Hp0 Hlive].
  destruct (Unique_pred_loop_run rel rest [] p0 [] (nullptr :: post) s Hp0
              Hlive Hnd) as (J & Hrun & Hlen & _).
  simpl in Hrun, Hlen.
  set (uk := unique_kept rel s p0 rest) in *.
  set (ud := unique_dropped rel s p0 rest) in *.
  set (ul := unique_last rel s p0 rest).
  assert (length (p0 :: uk ++ J) = S (length rest)) as HukJ.
  { simpl. rewrite length_app, Hlen. unfold uk, ud.
    by rewrite unique_lengths. }
  assert (ul ∈ p0 :: uk) as Hul.
  { eapply list_elem_of_lookup_2. apply unique_kept_last. }
  assert (ul ∉ ud) as Hulud.
  { apply elem_of_cons in Hul as [->|Hul].
    - intros Hin. apply NoDup_cons in Hnd as [Hp0' _]. apply Hp0'.
      by eapply unique_dropped_subseteq.
    - apply unique_disjoint; [|done]. by apply NoDup_cons in Hnd as [_ ?]. }
  assert (live s ul) as [xl Hxl].
  { apply elem_of_cons in Hul as [->|Hul]; [done|].
    rewrite Forall_forall in Hlive. apply Hlive.
    by eapply unique_kept_subseteq. }
  destruct ul as [b|] eqn:Hulb; [simpl in Hxl|done].
  set (arr := p0 :: uk ++ J ++ nullptr :: post) in *.
  assert (Hget1 : slot_get (V:=V) arr (length uk) = ret (Some b)).
  { unfold slot_get, arr.
    replace (p0 :: uk ++ J ++ nullptr :: post)
      with ((p0 :: uk) ++ J ++ nullptr :: post) by done.
    rewrite lookup_app_l by (simpl; lia).
    unfold uk. rewrite unique_kept_last. fold ul. by rewrite Hulb. }
  assert (Harr : arr = (p0 :: uk ++ J) ++ nullptr :: post).
  { unfold arr. simpl. by rewrite <- app_assoc. }
  assert (Hget2 : slot_get (V:=V) arr (S (length rest)) = ret nullptr).
  { rewrite Harr, <- HukJ. apply slot_get_middle. }
  assert (b ∉ addrs ud) as Hbud.
  { intros Hin. by apply elem_of_addrs in Hin. }
  unfold Unique_pred. simpl length.
  replace (S (length (rest ++ nullptr :: post)) - 1)
    with (length rest + S (length post))
    by (rewrite length_app; simpl; lia).
  rewrite Unique_pred_loop_split. rewrite Hrun.
  cbn [Unique_pred_loop]. rewrite Nat.add_0_l.
  replace (S (length uk) - 1) with (length uk) by lia.
  unfold bind at 1. rewrite Hget1.
  unfold ret at 1. unfold bind at 1. unfold load at 1. simpl heap.
  rewrite lookup_without, decide_False by done. rewrite Hxl.
  unfold bind at 1. by rewrite Hget2.
Qed.

Lemma Unique_pred_null_first rel p post s :
  Unique_pred (nullptr :: p :: post) rel s = Fault NullDeref.
Proof. done. Qed.

(** C8.  The eight algorithms of the copy, clone and replace families, the
    element constructor of [DeepCopyOfRange] and the functor adapters
    assert that a pointer is not null before they dereference it: on no
    input do they dereference a null pointer.  [CopyN], [CopyBackward],
    [Remove], [RemoveIf] and both [Unique] contain no assertion: on no input
    do they fail one, and where a position they visit holds a null pointer
    (the positions before it holding pointers to living objects) they
    dereference it. *)
Theorem null_dereferenced_where_not_asserted :
  ((∀ first dest out s, Copy first dest out s ≠ Fault NullDeref) ∧
   (∀ first dest out pred s,
      CopyIf first dest out pred s ≠ Fault NullDeref) ∧
   (∀ first dest out s, ReplaceCopy first dest out s ≠ Fault NullDeref) ∧
   (∀ first dest out pred s,
      ReplaceCopyIf first dest out pred s ≠ Fault NullDeref) ∧
   (∀ (src : list slot) dest out s,
      Clone alloc src dest out s ≠ Fault NullDeref) ∧
   (∀ (src : list slot) dest out pred s,
      CloneIf alloc src dest out pred s ≠ Fault NullDeref) ∧
   (∀ (src : list slot) dest out s,
      ReplaceClone alloc src dest out s ≠ Fault NullDeref) ∧
   (∀ (src : list slot) dest out pred s,
      ReplaceCloneIf alloc src dest out pred s ≠ Fault NullDeref) ∧
   (∀ first s, DeepCopyOfRange alloc first s ≠ Fault NullDeref) ∧
   (∀ func p s, UnaryFunctorDerefAdapter func p s ≠ Fault NullDeref) ∧
   (∀ T (func : V → T → bool) p rhs s,
      BinaryFunctorDerefAdapter func p rhs s ≠ Fault NullDeref) ∧
   (∀ func p q s,
      BinaryFunctorDerefPtrsAdapter func p q s ≠ Fault NullDeref)) ∧
  ((∀ src (first count dest : nat) out s,
      CopyN src first count dest out s ≠ Fault AssertFailed) ∧
   (∀ first dest out s, CopyBackward first dest out s ≠ Fault AssertFailed) ∧
   (∀ c value s, Remove c value s ≠ Fault AssertFailed) ∧
   (∀ T c (value : T) pred s,
      RemoveIf c value pred s ≠ Fault AssertFailed) ∧
   (∀ c s, Unique c s ≠ Fault AssertFailed) ∧
   (∀ c pred s, Unique_pred c pred s ≠ Fault AssertFailed)) ∧
  ((∀ l pf rest dst pd post count s,
      length dst = length l → length l < count →
      Forall (live s) l → Forall (live s) dst →
      pf = nullptr ∨ (live s pf ∧ pd = nullptr) →
      CopyN (l ++ pf :: rest) 0 count 0 (dst ++ pd :: post) s =
        Fault NullDeref) ∧
   (∀ l pf rest pre pd dst s,
      length dst = length l →
      Forall (live s) l → Forall (live s) dst →
      pf = nullptr ∨ (live s pf ∧ pd = nullptr) →
      CopyBackward (rest ++ pf :: l) (length (pre ++ pd :: dst))
        (pre ++ pd :: dst) s = Fault NullDeref) ∧
   (∀ pre post value v s,
      Forall (live s) pre → NoDup pre →
      referent s value = Some v → apart_from value pre →
      Remove (pre ++ nullptr :: post) value s = Fault NullDeref) ∧
   (∀ T pre post (value : T) pred s,
      Forall (live s) pre → NoDup pre →
      RemoveIf (pre ++ nullptr :: post) value pred s = Fault NullDeref) ∧
   (∀ p post s, Unique (nullptr :: p :: post) s = Fault NullDeref) ∧
   (∀ p0 rest post s,
      Forall (live s) (p0 :: rest) → NoDup (p0 :: rest) →
      Unique (p0 :: rest ++ nullptr :: post) s = Fault NullDeref) ∧
   (∀ p post pred s,
      Unique_pred (nullptr :: p :: post) pred s = Fault NullDeref) ∧
   (∀ p0 rest post pred s,
      Forall (live s) (p0 :: rest) → NoDup (p0 :: rest) →
      Unique_pred (p0 :: rest ++ nullptr :: post) pred s =
        Fault NullDeref)).
Proof.
  assert (∀ c s, Unique c s = Unique_pred c equal_to s) as Huni.
  { intros c s. unfold Unique, Unique_pred. destruct c; [done|].
    apply Unique_as_Unique_pred. }
  split_and!; intros.
  - apply Copy_checked.
  - apply CopyIf_checked.
  - apply ReplaceCopy_checked.
  - apply ReplaceCopyIf_checked.
  - apply Clone_checked.
  - apply CloneIf_checked.
  - apply ReplaceClone_checked.
  - apply ReplaceCloneIf_checked.
  - apply DeepCopyOfRange_checked.
  - apply UnaryFunctorDerefAdapter_checked.
  - apply BinaryFunctorDerefAdapter_checked.
  - apply BinaryFunctorDerefPtrsAdapter_checked.
  - unfold CopyN. case_decide; [apply CopyN_loop_unasserted|done].
  - apply CopyBackward_loop_unasserted.
  - apply Remove_loop_unasserted.
  - apply RemoveIf_loop_unasserted.
  - unfold Unique. destruct c; [done|]. apply Unique_loop_unasserted.
  - unfold Unique_pred. destruct c; [done|].
    apply Unique_pred_loop_unasserted.
  - unfold CopyN. rewrite decide_True by lia.
    by apply (CopyN_loop_null l count [] rest pf [] dst pd post s).
  - unfold CopyBackward. rewrite rev_app_distr. simpl.
    rewrite <- app_assoc. simpl. rewrite length_app. simpl.
    replace (length dst) with (length l) by done.
    pose proof (CopyBackward_loop_null l (rev rest) pf pre pd dst [] s)
      as Hnull.
    rewrite app_nil_r in Hnull. by apply Hnull.
  - by eapply Remove_null_visited.
  - by apply RemoveIf_null_visited.
  - done.
  - rewrite Huni. by apply Unique_pred_null_visited.
  - done.
  - by apply Unique_pred_null_visited.
Qed.
End NullVisited.

(** * Further properties of the code *)

(** ** What the copy family never does *)

Section CopyEffects.
Context {V : Type}.
Implicit Types (s : state V) (first out src : list ptr) (dest : nat).

Lemma same_objects_refl s : same_objects s s.
Proof. by split. Qed.

Lemma same_objects_trans s1 s2 s3 :
  same_objects s1 s2 → same_objects s2 s3 → same_objects s1 s3.
Proof. intros [? ?] [? ?]. split; congruence. Qed.

Lemma same_objects_store s a v w :
  heap s !! a = Some w →
  same_objects s (State (<[a:=v]> (heap s)) (freed s)).
Proof.
  intros Hw. split; [done|]. simpl. rewrite dom_insert_L.
  apply elem_of_dom_2 in Hw. apply subseteq_union_1_L.
  by apply singleton_subseteq_l.
Qed.

Lemma Copy_effects first : ∀ dest out s,
  match Copy first dest out s with
  | Ret (_, out') s' => out' = out ∧ same_objects s s'
  | Throw _ => False
  | Fault _ => True
  end.
Proof.
  induction first as [|pf first IH]; intros dest out s.
  - simpl. split; [done|apply same_objects_refl].
  - cbn [Copy]. unfold_prims. simpl.
    destruct (out !! dest) as [[a|]|]; simpl; try done.
    destruct pf as [b|]; simpl; try done.
    destruct (heap s !! b) as [v|]; simpl; try done.
    destruct (heap s !! a) as [w|] eqn:Hw; simpl; try done.
    specialize (IH (S dest) out (State (<[a:=v]> (heap s)) (freed s))).
    destruct (Copy first (S dest) out _) as [[r o] t|t|f]; try done.
    destruct IH as [-> IH]. split; [done|].
    eapply same_objects_trans; [by eapply same_objects_store|exact IH].
Qed.

Lemma CopyIf_effects pred first : ∀ dest out s,
  match CopyIf first dest out pred s with
  | Ret (_, out') s' => out' = out ∧ same_objects s s'
  | Throw _ => False
  | Fault _ => True
  end.
Proof.
  induction first as [|pf first IH]; intros dest out s.
  - simpl. split; [done|apply same_objects_refl].
  - cbn [CopyIf]. unfold_prims. simpl.
    destruct (out !! dest) as [[a|]|]; simpl; try done.
    destruct pf as [b|]; simpl; try done.
    destruct (heap s !! b) as [v|]; simpl; try done.
    destruct (pred v); simpl.
    + destruct (heap s !! a) as [w|] eqn:Hw; simpl; try done.
      specialize (IH (S dest) out (State (<[a:=v]> (heap s)) (freed s))).
      destruct (CopyIf first (S dest) out pred _) as [[r o] t|t|f]; try done.
      destruct IH as [-> IH]. split; [done|].
      eapply same_objects_trans; [by eapply same_objects_store|exact IH].
    + specialize (IH dest out s).
      by destruct (CopyIf first dest out pred s) as [[r o] t|t|f].
Qed.

Lemma ReplaceCopy_effects first : ∀ dest out s,
  match ReplaceCopy first dest out s with
  | Ret (_, out') s' => out' = out ∧ same_objects s s'
  | Throw _ => False
  | Fault _ => True
  end.
Proof.
  induction first as [|pf first IH]; intros dest out s.
  - simpl. split; [done|apply same_objects_refl].
  - cbn [ReplaceCopy]. unfold_prims. simpl.
    destruct (out !! dest) as [[a|]|]; simpl; try done.
    destruct pf as [b|]; simpl; try done.
    destruct (heap s !! b) as [v|]; simpl; try done.
    destruct (heap s !! a) as [w|] eqn:Hw; simpl; try done.
    specialize (IH (S dest) out (State (<[a:=v]> (heap s)) (freed s))).
    destruct (ReplaceCopy first (S dest) out _) as [[r o] t|t|f]; try done.
    destruct IH as [-> IH]. split; [done|].
    eapply same_objects_trans; [by eapply same_objects_store|exact IH].
Qed.

Lemma ReplaceCopyIf_effects pred first : ∀ dest out s,
  match ReplaceCopyIf first dest out pred s with
  | Ret (_, out') s' => out' = out ∧ same_objects s s'
  | Throw _ => False
  | Fault _ => True
  end.
Proof.
  induction first as [|pf first IH]; intros dest out s.
  - simpl. split; [done|apply same_objects_refl].
  - cbn [ReplaceCopyIf]. unfold_prims. simpl.
    destruct (out !! dest) as [[a|]|]; simpl; try done.
    destruct pf as [b|]; simpl; try done.
    destruct (heap s !! b) as [v|]; simpl; try done.
    destruct (pred v); simpl.
    + destruct (heap s !! a) as [w|] eqn:Hw; simpl; try done.
      specialize (IH (S dest) out (State (<[a:=v]> (heap s)) (freed s))).
      destruct (ReplaceCopyIf first (S dest) out pred _) as [[r o] t|t|f]; try done.
      destruct IH as [-> IH]. split; [done|].
      eapply same_objects_trans; [by eapply same_objects_store|exact IH].
    + specialize (IH (S dest) out s).
      by destruct (ReplaceCopyIf first (S dest) out pred s) as [[r o] t|t|f].
Qed.

Lemma CopyBackward_loop_effects rlast : ∀ dest out s,
  match CopyBackward_loop rlast dest out s with
  | Ret (_, out') s' => out' = out ∧ same_objects s s'
  | Throw _ => False
  | Fault _ => True
  end.
Proof.
  induction rlast as [|pl rlast IH]; intros dest out s.
  - simpl. split; [done|apply same_objects_refl].
  - cbn [CopyBackward_loop]. destruct dest as [|dest]; [done|].
    unfold_prims. simpl.
    destruct (out !! dest) as [[a|]|]; simpl; try done.
    + destruct pl as [b|]; simpl; try done.
      destruct (heap s !! b) as [v|]; simpl; try done.
      destruct (heap s !! a) as [w|] eqn:Hw; simpl; try done.
      specialize (IH dest out (State (<[a:=v]> (heap s)) (freed s))).
      destruct (CopyBackward_loop rlast dest out _) as [[r o] t|t|f];
        try done.
      destruct IH as [-> IH]. split; [done|].
      eapply same_objects_trans; [by eapply same_objects_store|exact IH].
    + destruct pl as [b|]; simpl; try done.
      destruct (heap s !! b) as [v|]; simpl; try done.
Qed.

Lemma CopyN_loop_effects src count : ∀ (n : nat) dest out s,
  match CopyN_loop count src n dest out s with
  | Ret (_, out') s' => out' = out ∧ same_objects s s'
  | Throw _ => False
  | Fault _ => True
  end.
Proof.
  induction count as [|count IH]; intros n dest out s.
  - simpl. split; [done|apply same_objects_refl].
  - cbn [CopyN_loop]. unfold_prims. simpl.
    destruct (out !! dest) as [[a|]|]; simpl; try done;
      (destruct (src !! n) as [[b|]|]; simpl; try done);
      (destruct (heap s !! b) as [v|]; simpl; try done).
    destruct (heap s !! a) as [w|] eqn:Hw; simpl; try done.
    destruct count as [|count].
    + split; [done|]. by eapply same_objects_store.
    + specialize (IH (S n) (S dest) out
                    (State (<[a:=v]> (heap s)) (freed s))).
      destruct (CopyN_loop (S count) src (S n) (S dest) out _)
        as [[r o] t|t|f]; try done.
      destruct IH as [-> IH]. split; [done|].
      eapply same_objects_trans; [by eapply same_objects_store|exact IH].
Qed.

(** X1. The copy family only assigns to objects that exist: whatever the
    input, when [Copy], [CopyN], [CopyBackward], [CopyIf], [ReplaceCopy] or
    [ReplaceCopyIf] returns, the destination slots hold the pointers they
    held, the same addresses are alive and nothing was deleted. *)
Theorem copy_family_keeps_the_objects (pred : V → bool) first src
    (n count : nat) dest out s :
  (∀ r out' s', Copy first dest out s = Ret (r, out') s' →
     out' = out ∧ same_objects s s') ∧
  (∀ r out' s', CopyN src n count dest out s = Ret (r, out') s' →
     out' = out ∧ same_objects s s') ∧
  (∀ r out' s', CopyBackward first dest out s = Ret (r, out') s' →
     out' = out ∧ same_objects s s') ∧
  (∀ r out' s', CopyIf first dest out pred s = Ret (r, out') s' →
     out' = out ∧ same_objects s s') ∧
  (∀ r out' s', ReplaceCopy first dest out s = Ret (r, out') s' →
     out' = out ∧ same_objects s s') ∧
  (∀ r out' s', ReplaceCopyIf first dest out pred s = Ret (r, out') s' →
     out' = out ∧ same_objects s s').
Proof.
  pose proof (Copy_effects first dest out s) as H1.
  pose proof (CopyN_loop_effects src count n dest out s) as H2.
  pose proof (CopyBackward_loop_effects (rev first) dest out s) as H3.
  pose proof (CopyIf_effects pred first dest out s) as H4.
  pose proof (ReplaceCopy_effects first dest out s) as H5.
  pose proof (ReplaceCopyIf_effects pred first dest out s) as H6.
  assert (match CopyN src n count dest out s with
          | Ret (_, out') s' => out' = out ∧ same_objects s s'
          | Throw _ => False
          | Fault _ => True
          end) as H2'.
  { unfold CopyN. case_decide; [done|]. simpl.
    split; [done|apply same_objects_refl]. }
  clear H2. unfold CopyBackward.
  split_and!.
  - intros r o t E. by rewrite E in H1.
  - intros r o t E. by rewrite E in H2'.
  - intros r o t E. by rewrite E in H3.
  - intros r o t E. by rewrite E in H4.
  - intros r o t E. by rewrite E in H5.
  - intros r o t E. by rewrite E in H6.
Qed.
End CopyEffects.

(** ** What removal and deduplication never do *)

Section RemovalEffects.
Context {V : Type} `{EqualityComparable V}.
Implicit Types (s : state V) (c out : list ptr).

Lemma only_deleted_refl s : only_deleted s s.
Proof. split; [done|]. exists []. by rewrite app_nil_r. Qed.

Lemma only_deleted_trans s1 s2 s3 :
  only_deleted s1 s2 → only_deleted s2 s3 → only_deleted s1 s3.
Proof.
  intros [Hh [k Hk]] [Hh' [k' Hk']]. split; [by etrans|].
  exists (k ++ k'). by rewrite Hk', Hk, app_assoc.
Qed.

Lemma only_deleted_delete s a :
  only_deleted s (State (delete a (heap s)) (freed s ++ [a])).
Proof. split; [apply delete_subseteq|]. by exists [a]. Qed.

Lemma RemoveIf_loop_effects {T} (value : T) pred n : ∀ first result c s,
  result ≤ first → first ≤ length c →
  match RemoveIf_loop n first result c value pred s with
  | Ret (r, out) s' =>
      r ≤ length c ∧ length out = length c ∧ only_deleted s s'
  | Throw _ => False
  | Fault _ => True
  end.
Proof.
  induction n as [|n IH]; intros first result c s Hr Hf.
  - simpl. split_and!; [lia|done|apply only_deleted_refl].
  - cbn [RemoveIf_loop]. unfold_prims. simpl.
    destruct (c !! first) as [[a|]|] eqn:Hc; simpl; try done.
    apply lookup_lt_Some in Hc.
    destruct (heap s !! a) as [x|] eqn:Hx; simpl; try done.
    destruct (pred x); simpl.
    + rewrite Hx. simpl. rewrite decide_True by done. simpl.
      specialize (IH (S first) result (<[first:=nullptr]> c)
                    (State (delete a (heap s)) (freed s ++ [a]))).
      rewrite length_insert in IH.
      destruct (RemoveIf_loop n (S first) result (<[first:=nullptr]> c) value
                  pred _) as [[r o] t|t|f]; try done; [|apply IH; lia].
      destruct IH as (? & ? & ?); [lia|lia|]. split_and!; [done|done|].
      eapply only_deleted_trans; [apply only_deleted_delete|done].
    + rewrite decide_True by lia. simpl.
      specialize (IH (S first) (S result) (<[result:=Some a]> c) s).
      rewrite length_insert in IH.
      destruct (RemoveIf_loop n (S first) (S result) (<[result:=Some a]> c)
                  value pred s) as [[r o] t|t|f]; try done; apply IH; lia.
Qed.

Lemma Unique_pred_loop_effects rel n : ∀ first result c s,
  result ≤ first → S first ≤ length c →
  match Unique_pred_loop n first result c rel s with
  | Ret (r, out) s' =>
      r ≤ length c ∧ length out = length c ∧ only_deleted s s'
  | Throw _ => False
  | Fault _ => True
  end.
Proof.
  induction n as [|n IH]; intros first result c s Hr Hf.
  - simpl. split_and!; [lia|done|apply only_deleted_refl].
  - cbn [Unique_pred_loop]. unfold_prims. simpl.
    destruct (c !! result) as [[b|]|]; simpl; try done.
    destruct (heap s !! b) as [xr|]; simpl; try done.
    destruct (c !! S first) as [[a|]|] eqn:Hc; simpl; try done.
    apply lookup_lt_Some in Hc.
    destruct (heap s !! a) as [x|] eqn:Hx; simpl; try done.
    destruct (rel xr x); simpl.
    + rewrite Hx. simpl. rewrite decide_True by done. simpl.
      specialize (IH (S first) result (<[S first:=nullptr]> c)
                    (State (delete a (heap s)) (freed s ++ [a]))).
      rewrite length_insert in IH.
      destruct (Unique_pred_loop n (S first) result (<[S first:=nullptr]> c)
                  rel _) as [[r o] t|t|f]; try done; [|apply IH; lia].
      destruct IH as (? & ? & ?); [lia|lia|]. split_and!; [done|done|].
      eapply only_deleted_trans; [apply only_deleted_delete|done].
    + rewrite decide_True by lia. simpl.
      specialize (IH (S first) (S result) (<[S result:=Some a]> c) s).
      rewrite length_insert in IH.
      destruct (Unique_pred_loop n (S first) (S result)
                  (<[S result:=Some a]> c) rel s) as [[r o] t|t|f];
        try done; apply IH; lia.
Qed.

Lemma RemoveIf_effects {T} c (value : T) pred s :
  match RemoveIf c value pred s with
  | Ret (r, out) s' =>
      r ≤ length c ∧ length out = length c ∧ only_deleted s s'
  | Throw _ => False
  | Fault _ => True
  end.
Proof. apply RemoveIf_loop_effects; lia. Qed.

Lemma Unique_pred_effects c rel s :
  match Unique_pred c rel s with
  | Ret (r, out) s' =>
      r ≤ length c ∧ length out = length c ∧ only_deleted s s'
  | Throw _ => False
  | Fault _ => True
  end.
Proof.
  destruct c as [|p0 rest].
  - simpl. split_and!; [done|done|apply only_deleted_refl].
  - unfold Unique_pred. apply Unique_pred_loop_effects; simpl; lia.
Qed.

Lemma Remove_loop_effects value n : ∀ first result c s,
  result ≤ first → first ≤ length c →
  match Remove_loop n first result c value s with
  | Ret (r, out) s' =>
      r ≤ length c ∧ length out = length c ∧ only_deleted s s'
  | Throw _ => False
  | Fault _ => True
  end.
Proof.
  induction n as [|n IH]; intros first result c s Hr Hf.
  - simpl. split_and!; [lia|done|apply only_deleted_refl].
  - cbn [Remove_loop]. unfold_prims. simpl.
    destruct (c !! first) as [[a|]|] eqn:Hc; simpl; try done.
    apply lookup_lt_Some in Hc.
    destruct (heap s !! a) as [x|] eqn:Hx; simpl; try done.
    assert (∀ v,
      match
        (if negb (equal_to x v)
         then fun s0 : state V =>
           match (if decide (result < length c)
                  then fun s1 => Ret (<[result:=Some a]> c) s1
                  else fun _ => Fault OutOfRange) s0 with
           | Ret c' s1 => Remove_loop n (S first) (S result) c' value s1
           | Throw s1 => Throw s1
           | Fault f => Fault f
           end
         else fun s0 : state V =>
           match
             match heap s0 !! a with
             | Some _ =>
                 Ret tt (State (delete a (heap s0)) (freed s0 ++ [a]))
             | None => Fault Dangling
             end
           with
           | Ret _ s1 =>
               match (if decide (first < length c)
                      then fun s2 => Ret (<[first:=nullptr]> c) s2
                      else fun _ => Fault OutOfRange) s1 with
               | Ret c' s2 => Remove_loop n (S first) result c' value s2
               | Throw s2 => Throw s2
               | Fault f => Fault f
               end
           | Throw s1 => Throw s1
           | Fault f => Fault f
           end) s
      with
      | Ret (r, out) s' =>
          r ≤ length c ∧ length out = length c ∧ only_deleted s s'
      | Throw _ => False
      | Fault _ => True
      end) as Hbody.
    { intros v. destruct (equal_to x v); simpl.
      - rewrite Hx. simpl. rewrite decide_True by done. simpl.
        specialize (IH (S first) result (<[first:=nullptr]> c)
                      (State (delete a (heap s)) (freed s ++ [a]))).
        rewrite length_insert in IH.
        destruct (Remove_loop n (S first) result (<[first:=nullptr]> c) value
                    _) as [[r o] t|t|f]; try done; [|apply IH; lia].
        destruct IH as (? & ? & ?); [lia|lia|]. split_and!; [done|done|].
        eapply only_deleted_trans; [apply only_deleted_delete|done].
      - rewrite decide_True by lia. simpl.
        specialize (IH (S first) (S result) (<[result:=Some a]> c) s).
        rewrite length_insert in IH.
        destruct (Remove_loop n (S first) (S result) (<[result:=Some a]> c)
                    value s) as [[r o] t|t|f]; try done; apply IH; lia. }
    destruct value as [v|b]; simpl; [apply Hbody|].
    destruct (heap s !! b) as [v|]; simpl; [apply Hbody|done].
Qed.

(** X2. [Remove], [RemoveIf] and both [Unique] work inside the range they
    are given: whatever the input (and whatever [value] refers to), when
    they return, the new end is inside the range, the range has the length
    it had, and objects were at most deleted: what is still alive has its
    value, and nothing was allocated. *)
Theorem removal_stays_in_range c (value : cref V) (value' : V) pred rel s :
  (∀ r out s', Remove c value s = Ret (r, out) s' →
     r ≤ length c ∧ length out = length c ∧ only_deleted s s') ∧
  (∀ r out s', RemoveIf c value' pred s = Ret (r, out) s' →
     r ≤ length c ∧ length out = length c ∧ only_deleted s s') ∧
  (∀ r out s', Unique c s = Ret (r, out) s' →
     r ≤ length c ∧ length out = length c ∧ only_deleted s s') ∧
  (∀ r out s', Unique_pred c rel s = Ret (r, out) s' →
     r ≤ length c ∧ length out = length c ∧ only_deleted s s').
Proof.
  assert (match Remove c value s with
          | Ret (r, out) s' =>
              r ≤ length c ∧ length out = length c ∧ only_deleted s s'
          | Throw _ => False
          | Fault _ => True
          end) as H1.
  { apply Remove_loop_effects; lia. }
  pose proof (RemoveIf_effects c value' pred s) as H2.
  pose proof (Unique_pred_effects c equal_to s) as H3.
  pose proof (Unique_pred_effects c rel s) as H4.
  assert (Unique c s = Unique_pred c equal_to s) as E3.
  { unfold Unique, Unique_pred. destruct c; [done|].
    apply Unique_as_Unique_pred. }
  rewrite E3. split_and!.
  - intros r o t E. by rewrite E in H1.
  - intros r o t E. by rewrite E in H2.
  - intros r o t E. by rewrite E in H3.
  - intros r o t E. by rewrite E in H4.
Qed.
End RemovalEffects.

(** ** Overloads and variants that agree *)

Section Agreement.
Context {V : Type} `{EqualityComparable V}.
Implicit Types (s : state V) (c out src : list ptr) (dest : nat).


Lemma CopyN_loop_as_Copy src out count : ∀ (n : nat) dest s,
  n + count ≤ length src →
  Forall (fun p : ptr => p ≠ nullptr) (take count (drop n src)) →
  Forall (fun p : ptr => p ≠ nullptr) out →
  CopyN_loop count src n dest out s =
  Copy (take count (drop n src)) dest out s.
Proof.
  induction count as [|count IH]; intros n dest s Hlen Hsrc Hout; [done|].
  destruct (lookup_lt_is_Some_2 src n) as [pf Hpf]; [lia|].
  rewrite (drop_S _ _ _ Hpf) in Hsrc |- *. simpl in Hsrc |- *.
  apply Forall_cons in Hsrc as [Hpfn Hsrc].
  destruct pf as [b|]; [|done].
  unfold bind at 1. unfold bind at 6. unfold slot_get at 1 3.
  destruct (out !! dest) as [pd|] eqn:Hpd; [simpl|done].
  assert (pd ≠ nullptr) as Hpdn.
  { rewrite Forall_forall in Hout. apply Hout.
    by eapply list_elem_of_lookup_2. }
  destruct pd as [a|]; [simpl|done].
  unfold bind at 1. unfold slot_get. rewrite Hpf. simpl.
  unfold bind, ret, load, store. simpl.
  destruct (heap s !! b) as [v|]; [|done].
  destruct (heap s !! a) as [w|]; [|done].
  destruct count as [|count]; [done|].
  rewrite IH; [done|lia|done|done].
Qed.

(** X4. [CopyN] is [Copy] of the [count] source slots from [first] on: with
    that many slots available and no null pointer among them or in the
    destination, both give the same outcome in every state.  A [count] of
    zero touches nothing, whatever the pointers are. *)
Theorem CopyN_is_Copy_of_count_slots src (first count : nat) dest out s :
  (first + count ≤ length src →
   Forall (fun p : ptr => p ≠ nullptr) (take count (drop first src)) →
   Forall (fun p : ptr => p ≠ nullptr) out →
   CopyN src first count dest out s =
   Copy (take count (drop first src)) dest out s) ∧
  CopyN src first 0 dest out s = Ret (dest, out) s.
Proof.
  split; [|done]. intros Hlen Hsrc Hout. unfold CopyN.
  case_decide; [by apply CopyN_loop_as_Copy|].
  by replace count with 0 by lia.
Qed.
End Agreement.

Lemma CopyN_is_Copy_of_count_slots_witness :
  CopyN four_sources 1 2 0 four_targets eight_objects =
  Copy [Some 2; Some 3] 0 four_targets eight_objects.
Proof.
  destruct (CopyN_is_Copy_of_count_slots four_sources 1 2 0 four_targets
              eight_objects) as [Hgen _].
  apply Hgen.
  - simpl. lia.
  - by_compute.
  - by_compute.
Defined.

(** ** When the guards return *)

Section GuardRuns.
Context {V : Type}.
Implicit Types (s : state V) (c cont : list ptr).

Lemma delete_each_returns cont : ∀ s s',
  delete_each cont s = Ret tt s' ↔
  NoDup (addrs cont) ∧
  Forall (fun a => is_Some (heap s !! a)) (addrs cont) ∧
  s' = State (without (addrs cont) (heap s)) (freed s ++ addrs cont).
Proof.
  induction cont as [|[a|] cont IH]; intros s s'.
  - simpl. rewrite app_nil_r. unfold ret. destruct s as [h f]. simpl.
    split.
    + intros [= <-]. split_and!; [constructor|constructor|done].
    + intros (_ & _ & ->). done.
  - rewrite addrs_cons_Some. simpl. unfold bind, delete_. simpl.
    destruct (heap s !! a) as [v|] eqn:Ha.
    + rewrite IH. simpl. rewrite NoDup_cons, Forall_cons, <- app_assoc.
      simpl. split.
      * intros (Hnd & Hlive & ->). split_and!; [| |by eauto| |done].
        -- intros Hin. rewrite Forall_forall in Hlive.
           destruct (Hlive _ Hin) as [w Hw].
           by rewrite lookup_delete_eq in Hw.
        -- done.
        -- eapply Forall_impl; [exact Hlive|]. intros b [w Hw]. simpl in Hw.
           apply lookup_delete_Some in Hw as [_ Hw]. by eauto.
      * intros ((Hnotin & Hnd) & (_ & Hlive) & ->). split_and!; [done| |done].
        apply Forall_forall. intros b Hb. rewrite Forall_forall in Hlive.
        rewrite lookup_delete_ne; [by apply Hlive|]. by intros ->.
    + split; [done|]. intros (_ & Hlive & _).
      apply Forall_cons in Hlive as [[w Hw] _]. congruence.
  - rewrite addrs_cons_None. simpl. unfold bind, delete_. simpl. apply IH.
Qed.

Lemma delete_each_never_throws cont : ∀ s s', delete_each cont s ≠ Throw s'.
Proof.
  induction cont as [|[a|] cont IH]; intros s s'; simpl; [done| |].
  - unfold bind, delete_. simpl. destruct (heap s !! a); [apply IH|done].
  - unfold bind, delete_. simpl. apply IH.
Qed.

(** X5. The container guard's destructor returns exactly when it is bound to
    no container, or no address occurs twice among the pointers of its
    container and each designates a living object; it then has deleted each
    of them once, in order.  In every other case it ends in a fault, and it
    never raises.  A guard that was released deletes nothing, and one that
    was given another container deletes that container's pointers. *)
Theorem container_wrapper_dtor_returns_iff g (conts : nat → list ptr) s s' :
  (container_wrapper_dtor g conts s = Ret tt s' ↔
   match pCont_ g with
   | None => s' = s
   | Some k =>
       NoDup (addrs (conts k)) ∧
       Forall (fun a => is_Some (heap s !! a)) (addrs (conts k)) ∧
       s' = State (without (addrs (conts k)) (heap s))
                  (freed s ++ addrs (conts k))
   end) ∧
  container_wrapper_dtor g conts s ≠ Throw s' ∧
  container_wrapper_dtor (container_release g) conts s = Ret tt s ∧
  (∀ k, container_wrapper_dtor (change_container g k) conts s =
        delete_each (conts k) s).
Proof.
  split_and!; [| |done|done].
  - unfold container_wrapper_dtor. destruct (pCont_ g) as [k|].
    + apply delete_each_returns.
    + unfold ret. split; [by intros [= <-]|by intros ->].
  - unfold container_wrapper_dtor. destruct (pCont_ g) as [k|]; [|done].
    apply delete_each_never_throws.
Qed.

Lemma range_wrapper_dtor_loop_as_delete_each fuel c : ∀ first last s,
  first ≤ last → last ≤ length c → last - first ≤ fuel →
  range_wrapper_dtor_loop fuel first last c s =
  delete_each (take (last - first) (drop first c)) s.
Proof.
  induction fuel as [|fuel IH]; intros first last s Hle Hlen Hfuel; simpl.
  - case_decide; [|lia]. by replace (last - first) with 0 by lia.
  - case_decide as Heq.
    + by replace (last - first) with 0 by lia.
    + destruct (lookup_lt_is_Some_2 c first) as [p Hp]; [lia|].
      rewrite (drop_S _ _ _ Hp).
      replace (last - first) with (S (last - S first)) by lia. simpl.
      unfold bind at 1. unfold slot_get. rewrite Hp. simpl.
      unfold bind. destruct (delete_ p s) as [[] s1|s1|f]; [|done|done].
      apply IH; lia.
Qed.

(** X6. A range guard whose iterators delimit a range of the container does
    what a container guard over those slots does: its destructor is the
    deletion of the slots from [first_] up to [last_], with the same outcome
    in every state; over the whole container the two guards agree. *)
Theorem range_guard_is_container_guard_of_its_slots g c s :
  first_ g ≤ last_ g → last_ g ≤ length c →
  range_wrapper_dtor g c s =
    container_wrapper_dtor (ContainerWrapper (Some 0))
      (fun _ => guarded g c) s ∧
  range_wrapper_dtor (update_range_cont g c) c s =
    container_wrapper_dtor (ContainerWrapper (Some 0)) (fun _ => c) s.
Proof.
  intros Hle Hlen. split.
  - unfold range_wrapper_dtor, container_wrapper_dtor, guarded. simpl.
    apply range_wrapper_dtor_loop_as_delete_each; [done|done|lia].
  - unfold range_wrapper_dtor, container_wrapper_dtor, update_range_cont.
    simpl. rewrite range_wrapper_dtor_loop_as_delete_each; [|lia|lia|lia].
    by rewrite drop_0, Nat.sub_0_r, firstn_all.
Qed.

Lemma range_wrapper_dtor_loop_astray fuel c last : ∀ first s,
  first ≠ last → last < first ∨ length c < last →
  ∃ f, range_wrapper_dtor_loop fuel first last c s = Fault f.
Proof.
  induction fuel as [|fuel IH]; intros first s Hne Hout; simpl.
  - case_decide; [done|]. by eexists.
  - case_decide; [done|]. unfold bind at 1. unfold slot_get.
    destruct (c !! first) as [p|] eqn:Hp; [simpl|by eexists].
    apply lookup_lt_Some in Hp.
    unfold bind. destruct p as [a|]; simpl.
    + unfold delete_. destruct (heap s !! a); [|by eexists].
      apply IH; lia.
    + apply IH; lia.
Qed.

(** X7. A range guard whose iterators do not delimit a range of the
    container (the first is past the last, or the last is past the end) and
    that is not empty never completes its destructor: the walk from
    [first_] leaves the container before it meets [last_]. *)
Theorem range_guard_astray_never_returns g c s :
  first_ g ≠ last_ g → last_ g < first_ g ∨ length c < last_ g →
  ∃ f, range_wrapper_dtor g c s = Fault f.
Proof.
  intros Hne Hout. unfold range_wrapper_dtor.
  by apply range_wrapper_dtor_loop_astray.
Qed.
End GuardRuns.

Lemma range_guard_is_container_guard_of_its_slots_witness :
  range_wrapper_dtor (RangeWrapper 1 3) four_sources eight_objects =
  container_wrapper_dtor (ContainerWrapper (Some 0))
    (fun _ => [Some 2; Some 3]) eight_objects.
Proof.
  destruct (range_guard_is_container_guard_of_its_slots (RangeWrapper 1 3)
              four_sources eight_objects) as [Hown _].
  - simpl. lia.
  - simpl. lia.
  - exact Hown.
Defined.

Lemma range_guard_astray_never_returns_witness :
  ∃ f, range_wrapper_dtor (RangeWrapper 3 1) four_sources eight_objects =
       Fault f.
Proof.
  apply (range_guard_astray_never_returns (RangeWrapper 3 1)).
  - simpl. lia.
  - left. simpl. lia.
Defined.

(** ** Deep copy and the demonstration program, end to end *)

Section RoundTrips.
Context {V : Type} `{EqualityComparable V}.
Variable alloc : gmap addr V → option addr.
Hypothesis alloc_fresh : ∀ h a, alloc h = Some a → h !! a = None.
Implicit Types (s : state V) (container result pVec : list ptr).

Lemma addrs_map_Some (k : list addr) : addrs (map Some k) = k.
Proof. induction k as [|a k IH]; [done|]. simpl. by rewrite <- IH at 2. Qed.

Lemma addrs_NoDup (l : list ptr) : NoDup l → NoDup (addrs l).
Proof.
  induction 1 as [|[a|] l Hnotin Hnd IH]; [constructor| |done].
  rewrite addrs_cons_Some. constructor; [|done].
  by rewrite elem_of_addrs.
Qed.

(** X8. Deep copy and deletion of the copy undo each other: when [DeepCopy]
    of living objects returns, a container guard bound to the result and
    leaving scope deletes exactly the new objects, and the free store holds
    again what it held before the copy. *)
Theorem DeepCopy_then_guard_restores_the_store container s result s1 :
  Forall (live s) container →
  DeepCopy alloc container s = Ret result s1 →
  container_wrapper_dtor (ContainerWrapper (Some 0)) (fun _ => result) s1 =
    Ret tt (State (heap s) (freed s ++ addrs result)) ∧
  length (addrs result) = length container.
Proof.
  intros Hlive Hret. unfold DeepCopy in Hret.
  destruct (DeepCopyOfRange_run alloc alloc_fresh container s Hlive)
    as (new & s1' & Hnd & Hfr & Hfreed & Hframe & Hval & Hend).
  destruct Hend as [(_ & Hlen & Hok)|(_ & _ & _ & Hthrow)]; [|congruence].
  rewrite Hok in Hret. injection Hret as <- <-.
  rewrite addrs_map_Some. split; [|done].
  unfold container_wrapper_dtor. simpl. rewrite delete_each_run; [|done|].
  - rewrite Hfreed. f_equal. f_equal. apply map_eq. intros a.
    rewrite lookup_without. case_decide as Hin.
    + symmetry. by apply Hfr.
    + by apply Hframe.
  - apply Forall_forall. intros a Ha.
    apply list_elem_of_lookup_1 in Ha as [i Hi].
    destruct (Hval _ _ Hi) as (p & Hp & ->).
    rewrite Forall_forall in Hlive. apply Hlive.
    by eapply list_elem_of_lookup_2.
Qed.

Lemma addrs_Permutation (l l' : list ptr) : l ≡ₚ l' → addrs l ≡ₚ addrs l'.
Proof. intros Hp. unfold addrs. by rewrite Hp. Qed.

Lemma unique_kept_dropped_Permutation rel s l : ∀ r,
  unique_kept rel s r l ++ unique_dropped rel s r l ≡ₚ l.
Proof.
  induction l as [|p l IH]; intros r; simpl; [done|].
  destruct (related rel s r p).
  - rewrite <- Permutation_middle. by rewrite IH.
  - simpl. by rewrite IH.
Qed.

(** X9. The scope of [main]: a vector of pairwise different pointers to
    living objects is deduplicated with erase and [Unique], and then the
    container guard bound to the vector leaves scope.  Every object of the
    vector has then been deleted exactly once (the duplicates by [Unique],
    the others by the guard), nothing else was touched, and no fault
    occurs. *)
Theorem main_scope_deletes_each_object_once pVec s :
  Forall (live s) pVec → NoDup pVec →
  ∃ s' k, dedup_then_leave_scope pVec s = Ret tt s' ∧
    heap s' = without (addrs pVec) (heap s) ∧
    freed s' = freed s ++ k ∧ k ≡ₚ addrs pVec ∧ NoDup k.
Proof.
  intros Hlive Hnd. destruct pVec as [|p0 rest].
  - exists s, []. unfold dedup_then_leave_scope, erase_unique, bind. simpl.
    unfold ret. rewrite app_nil_r. split_and!; [done|done|done|done|].
    constructor.
  - destruct (Unique_pred_run equal_to p0 rest s Hlive Hnd)
      as (J & Hrun & HJ & _).
    set (kp := unique_kept equal_to s p0 rest) in *.
    set (dr := unique_dropped equal_to s p0 rest) in *.
    assert (p0 :: kp ++ dr ≡ₚ p0 :: rest) as Hperm.
    { constructor. apply unique_kept_dropped_Permutation. }
    assert (NoDup (p0 :: kp ++ dr)) as Hnd2 by (by rewrite Hperm).
    assert (NoDup (addrs (p0 :: kp) ++ addrs dr)) as Hnd3.
    { rewrite <- addrs_app. apply addrs_NoDup.
      by rewrite <- app_comm_cons. }
    apply NoDup_app in Hnd3 as (Hndk & Hdisj & Hndd).
    assert (addrs (p0 :: kp) ++ addrs dr ≡ₚ addrs (p0 :: rest)) as Haddrs.
    { rewrite <- addrs_app. apply addrs_Permutation.
      by rewrite <- app_comm_cons. }
    set (s1 := State (without (addrs dr) (heap s)) (freed s ++ addrs dr))
      in *.
    assert (delete_each (p0 :: kp) s1 =
            Ret tt (State (without (addrs (p0 :: kp)) (heap s1))
                          (freed s1 ++ addrs (p0 :: kp)))) as Hdel.
    { apply delete_each_returns. split_and!; [done| |done].
      apply Forall_forall. intros a Ha. unfold s1. simpl.
      rewrite lookup_without.
      case_decide as Hin; [by destruct (Hdisj _ Ha)|].
      rewrite Forall_forall in Hlive.
      apply (Hlive (Some a)). apply elem_of_addrs in Ha.
      rewrite <- Hperm. rewrite app_comm_cons. apply elem_of_app. by left. }
    exists (State (without (addrs (p0 :: kp)) (heap s1))
                  (freed s1 ++ addrs (p0 :: kp))),
           (addrs dr ++ addrs (p0 :: kp)).
    split_and!.
    + unfold dedup_then_leave_scope, erase_unique, bind.
      rewrite Hrun. simpl. unfold ret, container_wrapper_dtor. simpl.
      rewrite take_app_length. exact Hdel.
    + simpl. apply map_eq. intros a. rewrite !lookup_without.
      assert (a ∈ addrs (p0 :: rest) ↔
              a ∈ addrs (p0 :: kp) ∨ a ∈ addrs dr) as Hiff.
      { rewrite <- Haddrs. apply elem_of_app. }
      repeat case_decide; tauto.
    + simpl. by rewrite <- app_assoc.
    + rewrite <- Haddrs. apply Permutation_app_comm.
    + apply NoDup_app. split_and!; [done| |done].
      intros a Ha Hb. by apply (Hdisj a).
Qed.
End RoundTrips.

Lemma DeepCopy_then_guard_restores_the_store_witness :
  ∃ result s1,
    DeepCopy bump_alloc four_sources eight_objects = Ret result s1 ∧
    container_wrapper_dtor (ContainerWrapper (Some 0)) (fun _ => result) s1 =
      Ret tt (State (heap eight_objects)
                    (freed eight_objects ++ addrs result)).
Proof.
  eexists _, _. split; [vm_compute; reflexivity|].
  refine (proj1 (DeepCopy_then_guard_restores_the_store bump_alloc
                   bump_alloc_fresh four_sources eight_objects _ _ _ _)).
  - by_compute.
  - vm_compute. reflexivity.
Defined.

Lemma main_scope_deletes_each_object_once_witness :
  ∃ s' k, dedup_then_leave_scope three_slots one_nine_nine = Ret tt s' ∧
    heap s' = without (addrs three_slots) (heap one_nine_nine) ∧
    freed s' = freed one_nine_nine ++ k ∧ k ≡ₚ addrs three_slots ∧ NoDup k.
Proof.
  apply (main_scope_deletes_each_object_once three_slots one_nine_nine).
  - by_compute.
  - by_compute.
Defined.

(** ** The destination is never measured *)

Section Capacity.
Context {V : Type}.
Implicit Types (s : state V) (first l rest dst out : list ptr)
  (pred : V → bool).

Lemma Copy_app l rest out : ∀ dest s,
  Copy (l ++ rest) dest out s =
    match Copy l dest out s with
    | Ret (d, o) s' => Copy rest d o s'
    | Throw s' => Throw s'
    | Fault f => Fault f
    end.
Proof.
  induction l as [|pf l IH]; intros dest s; [done|].
  simpl. unfold bind.
  destruct (slot_get out dest s) as [pd s0|s0|f]; [|done|done].
  destruct (assert_nonnull pd s0) as [[] s1|s1|f]; [|done|done].
  destruct (assert_nonnull pf s1) as [[] s2|s2|f]; [|done|done].
  destruct (load pf s2) as [v s3|s3|f]; [|done|done].
  destruct (store pd v s3) as [[] s4|s4|f]; [|done|done].
  apply IH.
Qed.

Lemma CopyIf_app pred l rest out : ∀ dest s,
  CopyIf (l ++ rest) dest out pred s =
    match CopyIf l dest out pred s with
    | Ret (d, o) s' => CopyIf rest d o pred s'
    | Throw s' => Throw s'
    | Fault f => Fault f
    end.
Proof.
  induction l as [|pf l IH]; intros dest s; [done|].
  simpl. unfold bind.
  destruct (slot_get out dest s) as [pd s0|s0|f]; [|done|done].
  destruct (assert_nonnull pd s0) as [[] s1|s1|f]; [|done|done].
  destruct (assert_nonnull pf s1) as [[] s2|s2|f]; [|done|done].
  destruct (load pf s2) as [v s3|s3|f]; [|done|done].
  destruct (pred v); [|apply IH].
  destruct (store pd v s3) as [[] s4|s4|f]; [|done|done].
  apply IH.
Qed.

Lemma matching_all pred s l :
  Forall (fun q => holds pred s q) l → matching pred s l = l.
Proof.
  induction 1 as [|q l Hq _ IH]; [done|].
  unfold matching in *. rewrite filter_cons, decide_True by done.
  by rewrite IH.
Qed.

(** X10. [Copy] and [CopyIf] do not measure their destination.  When the
    destination has exactly as many slots as [l] has elements, [Copy] of a
    source that goes on after [l] fills the destination and then leaves it;
    and [CopyIf], once the matching elements have filled the destination,
    leaves it on the next source element whatever that element is, since it
    inspects the destination slot before it looks at the element. *)
Theorem copy_leaves_a_full_destination pred l p rest dst s :
  length dst = length l →
  Forall (live s) l → Forall (live s) dst →
  NoDup dst → (∀ q, q ∈ dst → q ∉ l) →
  Copy (l ++ p :: rest) 0 dst s = Fault OutOfRange ∧
  (Forall (fun q => holds pred s q) l →
   CopyIf (l ++ p :: rest) 0 dst pred s = Fault OutOfRange).
Proof.
  intros Hlen Hsrc Hdst Hnd Hdisj.
  destruct (Copy_run l [] dst [] s Hlen Hsrc Hdst Hnd Hdisj)
    as (s' & Hrun & _).
  simpl in Hrun. rewrite app_nil_r in Hrun.
  assert (dst !! length l = None) as Hend.
  { apply lookup_ge_None. lia. }
  split.
  - rewrite Copy_app, Hrun. simpl. unfold bind, slot_get.
    by rewrite Hend.
  - intros Hall. rewrite CopyIf_app.
    pose proof (CopyIf_as_Copy pred l [] dst [] s) as Heq.
    simpl in Heq. rewrite app_nil_r in Heq.
    rewrite Heq; [|lia|done|done|done].
    rewrite (matching_all _ _ _ Hall), Hrun. simpl. unfold bind, slot_get.
    by rewrite Hend.
Qed.
End Capacity.

Ltac by_disjoint :=
  let p := fresh "p" in let Hp := fresh "Hp" in let Hin := fresh "Hin" in
  intros p Hp Hin; revert Hp; apply (bool_decide_unpack _);
  revert p Hin; apply Forall_forall; by_compute.

Lemma copy_leaves_a_full_destination_witness :
  Copy (take 3 four_sources ++ [Some 4]) 0 (take 3 four_targets)
    eight_objects = Fault OutOfRange ∧
  CopyIf (take 3 four_sources ++ [nullptr]) 0 (take 3 four_targets)
    (fun _ => true) eight_objects = Fault OutOfRange.
Proof.
  split.
  - refine (proj1 (copy_leaves_a_full_destination (fun _ => true)
              (take 3 four_sources) (Some 4) [] (take 3 four_targets)
              eight_objects _ _ _ _ _));
      [reflexivity|by_compute|by_compute|by_compute|by_disjoint].
  - refine (proj2 (copy_leaves_a_full_destination (fun _ => true)
              (take 3 four_sources) nullptr [] (take 3 four_targets)
              eight_objects _ _ _ _ _) _);
      [reflexivity|by_compute|by_compute|by_compute|by_disjoint|by_compute].
Defined.

(** ** What becomes of the objects the destination held *)

Section OldDestination.
Context {V : Type}.
Variable alloc : gmap addr V → option addr.
Hypothesis alloc_fresh : ∀ h a, alloc h = Some a → h !! a = None.
Implicit Types (s : state V) (first pre dst post out : list ptr).

Lemma Clone_keeps_old first dst s new s1 p :
  Forall (live s) dst →
  (∀ a, a ∈ new → heap s !! a = None) →
  (∀ a, a ∉ new → heap s1 !! a = heap s !! a) →
  p ∈ dst →
  (p ∉ map Some new) ∧ live s1 p ∧ pointee s1 p = pointee s p.
Proof.
  intros Hdst Hfr Hframe Hp. rewrite Forall_forall in Hdst.
  destruct (Hdst _ Hp) as [v Hv]. destruct p as [a|]; [simpl in Hv|done].
  assert (a ∉ new) as Hnew.
  { intros Hin. apply Hfr in Hin. congruence. }
  split_and!.
  - intros Hin. apply list_elem_of_fmap in Hin as (a' & [= <-] & Hin). done.
  - unfold live. simpl. rewrite (Hframe _ Hnew). by eauto.
  - simpl. by apply Hframe.
Qed.

(** X11. [Clone] overwrites the destination pointers without deleting what
    they designated: when it returns, nothing has been deleted, every
    object the destination held is still alive with its value, and no slot
    of the destination designates it any more.  [ReplaceClone] over the same
    ranges has deleted each of those objects once, in the order of the
    slots. *)
Theorem Clone_abandons_what_ReplaceClone_deletes first dst s :
  length dst = length first →
  Forall (live s) first → Forall (live s) dst →
  NoDup dst → (∀ p, p ∈ dst → p ∉ first) →
  (∀ d out s', Clone alloc (apart first) 0 dst s = Ret (d, out) s' →
     freed s' = freed s ∧
     ∀ p, p ∈ dst → (p ∉ out) ∧ live s' p ∧ pointee s' p = pointee s p) ∧
  (∀ d out s', ReplaceClone alloc (apart first) 0 dst s = Ret (d, out) s' →
     freed s' = freed s ++ addrs dst ∧ NoDup (addrs dst)).
Proof.
  intros Hlen Hsrc Hdst Hnd Hdisj. split.
  - intros d out s' Hret.
    destruct (Clone_run alloc alloc_fresh first [] dst [] s Hlen Hsrc)
      as (new & s1 & _ & Hfr & Hfreed & Hframe & _ & Hend).
    { eapply Forall_impl; [exact Hdst|]. intros p. apply live_nonnull. }
    simpl in Hend. rewrite !app_nil_r in Hend.
    destruct Hend as [[_ Hrun]|(_ & _ & Hrun)]; [|congruence].
    rewrite Hrun in Hret. injection Hret as <- <- <-.
    split; [done|]. intros p Hp. by eapply Clone_keeps_old.
  - intros d out s' Hret.
    destruct (ReplaceClone_run alloc alloc_fresh first [] dst [] s Hlen Hsrc
                Hdst Hnd Hdisj)
      as (new & s1 & _ & _ & _ & _ & Hend).
    simpl in Hend. rewrite !app_nil_r in Hend.
    destruct Hend as [(_ & Hfreed & Hrun)|(_ & _ & Hrun)]; [|congruence].
    rewrite Hrun in Hret. injection Hret as <- <- <-.
    split; [done|].
    clear -Hnd. induction Hnd as [|[a|] l Hnotin Hnd IH]; [constructor| |done].
    rewrite addrs_cons_Some. constructor; [|done]. by rewrite elem_of_addrs.
Qed.

Lemma ReplaceClone_throw first : ∀ pre dst post s s1,
  length dst = length first →
  Forall (live s) first → Forall (live s) dst →
  NoDup dst → (∀ p, p ∈ dst → p ∉ first) →
  ReplaceClone alloc (apart first) (length pre) (pre ++ dst ++ post) s = Throw s1 →
  ∃ k pd, dst !! k = Some pd ∧ ¬ live s1 pd ∧ alloc (heap s1) = None ∧
    freed s1 = freed s ++ addrs (take (S k) dst).
Proof.
  induction first as [|pf first IH];
    intros pre dst post s s1 Hlen Hsrc Hdst Hnd Hdisj Hthrow.
  - destruct dst; done.
  - destruct dst as [|pd dst]; [done|]. simpl in Hlen.
    apply Forall_cons in Hsrc as [[v Hv] Hsrc].
    apply Forall_cons in Hdst as [[w Hw] Hdst].
    apply NoDup_cons in Hnd as [Hpd Hnd].
    destruct pf as [b|]; [simpl in Hv|done].
    destruct pd as [c|]; [simpl in Hw|done].
    assert (b ≠ c) as Hbc.
    { intros ->. apply (Hdisj (Some c)); by left. }
    assert (ReplaceClone alloc (apart (Some b :: first)) (length pre)
              (pre ++ Some c :: dst ++ post) s =
            match alloc (delete c (heap s)) with
            | Some a =>
                ReplaceClone alloc (apart first) (S (length pre))
                  (pre ++ Some a :: dst ++ post)
                  (State (<[a:=v]> (delete c (heap s))) (freed s ++ [c]))
            | None => Throw (State (delete c (heap s)) (freed s ++ [c]))
            end) as Hstep.
    { simpl. unfold bind at 1. rewrite slot_get_middle.
      unfold Clone_, bind, ret, delete_, load, new_. simpl.
      rewrite Hw. simpl. rewrite lookup_delete_ne by done. rewrite Hv.
      simpl. destruct (alloc (delete c (heap s))); [|done].
      by rewrite slot_set_middle. }
    simpl app in Hthrow. rewrite Hstep in Hthrow.
    destruct (alloc (delete c (heap s))) as [a|] eqn:Ha.
    + pose proof (alloc_fresh _ _ Ha) as Hfresh.
      set (s0 := State (<[a:=v]> (delete c (heap s))) (freed s ++ [c])) in *.
      assert (∀ q, live s q → q ≠ Some c → live s0 q) as Hkeeplive.
      { intros [d|] [x Hx] Hqc; [simpl in *|done].
        assert (d ≠ c) by congruence.
        exists x. simpl. rewrite lookup_insert_ne.
        - by rewrite lookup_delete_ne.
        - intros ->. rewrite lookup_delete_ne in Hfresh by done. congruence. }
      specialize (IH (pre ++ [Some a]) dst post s0 s1).
      rewrite length_app, <- app_assoc in IH. simpl in IH.
      rewrite Nat.add_1_r in IH.
      destruct IH as (k & pd & Hk & Hdead & Hnone & Hfreed).
      { lia. }
      { apply Forall_forall. intros q Hq. rewrite Forall_forall in Hsrc.
        apply Hkeeplive; [by apply Hsrc|].
        intros ->. apply (Hdisj (Some c)); [by left|by right]. }
      { apply Forall_forall. intros q Hq. rewrite Forall_forall in Hdst.
        apply Hkeeplive; [by apply Hdst|]. by intros ->. }
      { done. }
      { intros q Hq Hin. apply (Hdisj q); [by right|by right]. }
      { done. }
      exists (S k), pd. split_and!; [done|done|done|].
      rewrite Hfreed. simpl. by rewrite <- app_assoc.
    + injection Hthrow as <-. exists 0, (Some c). simpl.
      split_and!; [done| |done|done].
      intros [x Hx]. simpl in Hx. by rewrite lookup_delete_eq in Hx.
Qed.

(** X12. A failed allocation finds the two cloning algorithms in different
    states.  [Clone] has deleted nothing and every object the destination
    held is alive.  [ReplaceClone] deletes the destination object before it
    asks for the copy, so when the copy for slot [k] cannot be had the
    objects of the slots up to and including [k] are deleted, and the object
    of slot [k] is dead without a replacement. *)
Theorem allocation_failure_after_delete first dst s s1 :
  length dst = length first →
  Forall (live s) first → Forall (live s) dst →
  NoDup dst → (∀ p, p ∈ dst → p ∉ first) →
  (Clone alloc (apart first) 0 dst s = Throw s1 →
   freed s1 = freed s ∧
   ∀ p, p ∈ dst → live s1 p ∧ pointee s1 p = pointee s p) ∧
  (ReplaceClone alloc (apart first) 0 dst s = Throw s1 →
   ∃ k pd, dst !! k = Some pd ∧ ¬ live s1 pd ∧
     freed s1 = freed s ++ addrs (take (S k) dst)).
Proof.
  intros Hlen Hsrc Hdst Hnd Hdisj. split.
  - intros Hthrow.
    destruct (Clone_run alloc alloc_fresh first [] dst [] s Hlen Hsrc)
      as (new & s1' & _ & Hfr & Hfreed & Hframe & _ & Hend).
    { eapply Forall_impl; [exact Hdst|]. intros p. apply live_nonnull. }
    simpl in Hend. rewrite !app_nil_r in Hend.
    destruct Hend as [[_ Hrun]|(_ & _ & Hrun)]; [congruence|].
    rewrite Hrun in Hthrow. injection Hthrow as <-.
    split; [done|]. intros p Hp.
    by destruct (Clone_keeps_old first dst s new s1' p) as (_ & ? & ?).
  - intros Hthrow.
    pose proof (ReplaceClone_throw first [] dst [] s s1) as Hgen.
    simpl in Hgen. rewrite app_nil_r in Hgen.
    destruct (Hgen Hlen Hsrc Hdst Hnd Hdisj Hthrow)
      as (k & pd & Hk & Hdead & _ & Hfreed).
    by exists k, pd.
Qed.
End OldDestination.

Lemma Clone_abandons_what_ReplaceClone_deletes_witness :
  (∀ d out s',
     Clone bump_alloc (apart four_sources) 0 four_targets eight_objects =
       Ret (d, out) s' →
     freed s' = freed eight_objects ∧
     ∀ p, p ∈ four_targets →
       (p ∉ out) ∧ live s' p ∧ pointee s' p = pointee eight_objects p) ∧
  (∀ d out s',
     ReplaceClone bump_alloc (apart four_sources) 0 four_targets eight_objects =
       Ret (d, out) s' →
     freed s' = freed eight_objects ++ addrs four_targets ∧
     NoDup (addrs four_targets)).
Proof.
  apply (Clone_abandons_what_ReplaceClone_deletes bump_alloc bump_alloc_fresh
           four_sources four_targets eight_objects);
    [reflexivity|by_compute|by_compute|by_compute|by_disjoint].
Defined.

Lemma allocation_failure_after_delete_witness :
  ∃ s1,
    ReplaceClone (bounded_alloc 7) (apart four_sources) 0 four_targets eight_objects =
      Throw s1 ∧
    ∃ k pd, four_targets !! k = Some pd ∧ ¬ live s1 pd ∧
      freed s1 = freed eight_objects ++ addrs (take (S k) four_targets).
Proof.
  eexists. split; [vm_compute; reflexivity|].
  refine (proj2 (allocation_failure_after_delete (bounded_alloc 7)
                   (bounded_alloc_fresh 7) four_sources four_targets
                   eight_objects _ _ _ _ _ _) _);
    [reflexivity|by_compute|by_compute|by_compute|by_disjoint|].
  vm_compute. reflexivity.
Defined.

(** ** Copying from the other end *)

Section Backward.
Context {V : Type}.
Implicit Types (s : state V) (first pre dst post l : list ptr).

Lemma state_eq_pointee s1 s2 :
  freed s1 = freed s2 → (∀ p, pointee s1 p = pointee s2 p) → s1 = s2.
Proof.
  destruct s1 as [h1 f1], s2 as [h2 f2]. simpl. intros -> Hp. f_equal.
  apply map_eq. intros a. apply (Hp (Some a)).
Qed.

Lemma CopyBackward_loop_run first : ∀ pre dst post s,
  length dst = length first →
  Forall (live s) first → Forall (live s) dst →
  NoDup dst → (∀ p, p ∈ dst → p ∉ first) →
  ∃ s', CopyBackward_loop (rev first) (length pre + length first)
          (pre ++ dst ++ post) s =
          Ret (length pre, pre ++ dst ++ post) s' ∧
    freed s' = freed s ∧
    (∀ i pd pf, dst !! i = Some pd → first !! i = Some pf →
       pointee s' pd = pointee s pf) ∧
    (∀ p, p ∉ dst → pointee s' p = pointee s p).
Proof.
  induction first as [|pf first IH] using rev_ind;
    intros pre dst post s Hlen Hsrc Hdst Hnd Hdisj.
  - destruct dst; [|done]. exists s. simpl. rewrite Nat.add_0_r.
    split_and!; done.
  - destruct dst as [|pd dst _] using rev_ind.
    { rewrite length_app in Hlen. simpl in Hlen. lia. }
    rewrite !length_app in Hlen. simpl in Hlen.
    apply Forall_app in Hsrc as [Hsrc Hpf].
    apply Forall_cons in Hpf as [[v Hv] _].
    apply Forall_app in Hdst as [Hdst Hpd].
    apply Forall_cons in Hpd as [[w Hw] _].
    apply NoDup_app in Hnd as (Hnd & Hnotin & _).
    destruct pf as [b|]; [simpl in Hv|done].
    destruct pd as [a|]; [simpl in Hw|done].
    assert (Some a ∉ dst) as Hpd.
    { intros Hin. apply (Hnotin _ Hin). by left. }
    set (s1 := State (<[a:=v]> (heap s)) (freed s)).
    destruct (IH pre dst (Some a :: post) s1)
      as (s' & Hrun & Hfreed & Hval & Hframe).
    { lia. }
    { eapply Forall_impl; [exact Hsrc|]. intros p. apply live_store. }
    { eapply Forall_impl; [exact Hdst|]. intros p. apply live_store. }
    { done. }
    { intros p Hp Hin. apply (Hdisj p); apply elem_of_app; by left. }
    exists s'. split.
    { rewrite rev_app_distr, length_app. simpl.
      replace (length pre + (length first + 1))
        with (S (length (pre ++ dst))) by (rewrite length_app; lia).
      unfold bind at 1.
      replace (pre ++ (dst ++ [Some a]) ++ post)
        with ((pre ++ dst) ++ Some a :: post)
        by (by rewrite <- !app_assoc).
      rewrite slot_get_middle. simpl. unfold bind, load, store. simpl.
      rewrite Hv, Hw. fold s1.
      rewrite <- app_assoc, length_app.
      replace (length pre + length dst) with (length pre + length first)
        by lia.
      exact Hrun. }
    split; [done|]. split.
    + intros i qd qf Hqd Hqf.
      apply lookup_app_Some in Hqd as [Hqd|[Hi Hqd]];
        apply lookup_app_Some in Hqf as [Hqf|[Hj Hqf]].
      * rewrite (Hval _ _ _ Hqd Hqf). apply pointee_store_ne.
        intros ->. apply (Hdisj (Some a)); apply elem_of_app; [by right; left|].
        left. by eapply list_elem_of_lookup_2.
      * apply lookup_lt_Some in Hqd. lia.
      * apply lookup_lt_Some in Hqf. lia.
      * replace (i - length dst) with 0 in Hqd
          by (apply lookup_lt_Some in Hqd; simpl in Hqd; lia).
        replace (i - length first) with 0 in Hqf
          by (apply lookup_lt_Some in Hqf; simpl in Hqf; lia).
        injection Hqd as <-. injection Hqf as <-.
        rewrite (Hframe _ Hpd). simpl. by rewrite lookup_insert_eq.
    + intros p Hp. apply not_elem_of_app in Hp as [Hp Hne].
      rewrite (Hframe _ Hp). apply pointee_store_ne.
      intros ->. apply Hne. by left.
Qed.

(** X13. Over separate ranges the direction does not matter: [CopyBackward],
    handed the end of the destination, leaves the very state [Copy] leaves
    when handed its beginning, and returns the beginning of the destination
    where [Copy] returns its end. *)
Theorem CopyBackward_is_Copy_from_the_other_end first dst s :
  length dst = length first →
  Forall (live s) first → Forall (live s) dst →
  NoDup dst → (∀ p, p ∈ dst → p ∉ first) →
  ∃ s', Copy first 0 dst s = Ret (length first, dst) s' ∧
        CopyBackward first (length first) dst s = Ret (0, dst) s'.
Proof.
  intros Hlen Hsrc Hdst Hnd Hdisj.
  destruct (Copy_run first [] dst [] s Hlen Hsrc Hdst Hnd Hdisj)
    as (s1 & Hrun1 & Hfreed1 & Hval1 & Hframe1).
  destruct (CopyBackward_loop_run first [] dst [] s Hlen Hsrc Hdst Hnd Hdisj)
    as (s2 & Hrun2 & Hfreed2 & Hval2 & Hframe2).
  simpl in Hrun1, Hrun2. rewrite app_nil_r in Hrun1, Hrun2.
  assert (s2 = s1) as ->.
  { apply state_eq_pointee; [congruence|]. intros p.
    destruct (decide (p ∈ dst)) as [Hin|Hout].
    - apply list_elem_of_lookup_1 in Hin as [i Hi].
      destruct (lookup_lt_is_Some_2 first i) as [pf Hpf].
      { apply lookup_lt_Some in Hi. lia. }
      by rewrite (Hval1 _ _ _ Hi Hpf), (Hval2 _ _ _ Hi Hpf).
    - by rewrite (Hframe1 _ Hout), (Hframe2 _ Hout). }
  exists s1. split; [exact Hrun1|exact Hrun2].
Qed.
End Backward.

Lemma CopyBackward_is_Copy_from_the_other_end_witness :
  ∃ s', Copy four_sources 0 four_targets eight_objects =
          Ret (4, four_targets) s' ∧
        CopyBackward four_sources 4 four_targets eight_objects =
          Ret (0, four_targets) s'.
Proof.
  apply (CopyBackward_is_Copy_from_the_other_end four_sources four_targets
           eight_objects);
    [reflexivity|by_compute|by_compute|by_compute|by_disjoint].
Defined.

(** ** Overlapping ranges *)

Section Overlap.
Context {V : Type}.
Implicit Types (s : state V) (pre post l c : list ptr).

Lemma CopyBackward_shift l : ∀ p pre post s,
  NoDup (l ++ [p]) → Forall (live s) (l ++ [p]) →
  ∃ s', CopyBackward_loop (rev l) (length pre + S (length l))
          (pre ++ l ++ p :: post) s =
          Ret (S (length pre), pre ++ l ++ p :: post) s' ∧
    freed s' = freed s ∧
    (∀ i x y, l !! i = Some x → (l ++ [p]) !! S i = Some y →
       pointee s' y = pointee s x) ∧
    (∀ z, z ∉ tail (l ++ [p]) → pointee s' z = pointee s z).
Proof.
  induction l as [|q l IH] using rev_ind; intros p pre post s Hnd Hlive.
  - exists s. simpl. rewrite Nat.add_1_r. split_and!; done.
  - apply NoDup_app in Hnd as (Hnd & Hnotin & _).
    apply Forall_app in Hlive as [Hlive Hp].
    apply Forall_cons in Hp as [[w Hw] _].
    pose proof Hlive as Hlive'.
    apply Forall_app in Hlive' as [_ Hq].
    apply Forall_cons in Hq as [[v Hv] _].
    destruct q as [b|]; [simpl in Hv|done].
    destruct p as [a|]; [simpl in Hw|done].
    assert (Some a ∉ l ++ [Some b]) as Hpl.
    { intros Hin. apply (Hnotin _ Hin). by left. }
    set (s1 := State (<[a:=v]> (heap s)) (freed s)).
    destruct (IH (Some b) pre (Some a :: post) s1)
      as (s' & Hrun & Hfreed & Hval & Hframe).
    { done. }
    { eapply Forall_impl; [exact Hlive|]. intros p. apply live_store. }
    exists s'. split.
    { rewrite rev_app_distr, length_app. simpl.
      replace (length pre + S (length l + 1))
        with (S (length (pre ++ l ++ [Some b])))
        by (rewrite !length_app; simpl; lia).
      unfold bind at 1.
      replace (pre ++ (l ++ [Some b]) ++ Some a :: post)
        with ((pre ++ l ++ [Some b]) ++ Some a :: post)
        by (by rewrite <- !app_assoc).
      rewrite slot_get_middle. simpl. unfold bind, load, store. simpl.
      rewrite Hv, Hw. fold s1.
      rewrite <- !app_assoc, !length_app. simpl.
      replace (length pre + (length l + 1)) with (length pre + S (length l))
        by lia.
      exact Hrun. }
    split; [done|]. split.
    + intros i x y Hx Hy.
      apply lookup_app_Some in Hx as [Hx|[Hi Hx]].
      * rewrite lookup_app_l in Hy.
        2:{ apply lookup_lt_Some in Hx. rewrite length_app. simpl. lia. }
        rewrite (Hval _ _ _ Hx Hy). apply pointee_store_ne.
        intros ->. apply Hpl. apply elem_of_app. left.
        by eapply list_elem_of_lookup_2.
      * assert (i = length l) as ->.
        { apply lookup_lt_Some in Hx. simpl in Hx. lia. }
        rewrite Nat.sub_diag in Hx. injection Hx as <-.
        rewrite lookup_app_r in Hy by (rewrite length_app; simpl; lia).
        rewrite length_app in Hy. simpl in Hy.
        replace (S (length l) - (length l + 1)) with 0 in Hy by lia.
        injection Hy as <-.
        rewrite Hframe.
        -- simpl. by rewrite lookup_insert_eq.
        -- intros Hin. apply Hpl. destruct (l ++ [Some b]); [done|].
           by right.
    + intros z Hz.
      assert (z ≠ Some a ∧ z ∉ tail (l ++ [Some b])) as [Hza Hzt].
      { split.
        - intros ->. apply Hz. destruct l; simpl; [by left|].
          apply elem_of_app. right. by left.
        - intros Hin. apply Hz. destruct l; simpl in *.
          + by apply elem_of_nil in Hin.
          + apply elem_of_app. by left. }
      rewrite (Hframe _ Hzt). by apply pointee_store_ne.
Qed.

Lemma Copy_smear l : ∀ p pre post s,
  NoDup (p :: l) → Forall (live s) (p :: l) →
  ∃ s', Copy (take (length l) (p :: l)) (S (length pre))
          (pre ++ p :: l ++ post) s =
          Ret (S (length pre) + length l, pre ++ p :: l ++ post) s' ∧
    freed s' = freed s ∧
    (∀ z, z ∈ l → pointee s' z = pointee s p) ∧
    (∀ z, z ∉ l → pointee s' z = pointee s z).
Proof.
  induction l as [|q l IH]; intros p pre post s Hnd Hlive.
  - exists s. simpl. rewrite Nat.add_0_r. split_and!; [done|done| |done].
    intros z Hz. by apply elem_of_nil in Hz.
  - apply NoDup_cons in Hnd as [Hp Hnd].
    apply Forall_cons in Hlive as [[v Hv] Hlive].
    pose proof Hlive as Hlive'.
    apply Forall_cons in Hlive' as [[w Hw] _].
    destruct p as [b|]; [simpl in Hv|done].
    destruct q as [a|]; [simpl in Hw|done].
    assert (a ≠ b) as Hab.
    { intros ->. apply Hp. by left. }
    set (s1 := State (<[a:=v]> (heap s)) (freed s)).
    destruct (IH (Some a) (pre ++ [Some b]) post s1)
      as (s' & Hrun & Hfreed & Hval & Hframe).
    { done. }
    { eapply Forall_impl; [exact Hlive|]. intros p. apply live_store. }
    assert (Some a ∉ l) as Hal.
    { by apply NoDup_cons in Hnd as [? _]. }
    exists s'. split.
    { change (take (length (Some a :: l)) (Some b :: Some a :: l))
        with (Some b :: take (length l) (Some a :: l)).
      simpl. unfold bind at 1.
      replace (pre ++ Some b :: Some a :: l ++ post)
        with ((pre ++ [Some b]) ++ Some a :: l ++ post)
        by (by rewrite <- app_assoc).
      replace (S (length pre)) with (length (pre ++ [Some b]))
        by (rewrite length_app; simpl; lia).
      rewrite slot_get_middle. simpl. unfold bind, load, store. simpl.
      rewrite Hv, Hw. fold s1.
      etrans; [exact Hrun|]. f_equal. f_equal. rewrite length_app. simpl. lia. }
    split; [done|]. split.
    + intros z [->|Hz]%elem_of_cons.
      * rewrite (Hframe _ Hal). simpl. by rewrite lookup_insert_eq.
      * rewrite (Hval _ Hz). simpl. by rewrite lookup_insert_eq.
    + intros z Hz. apply not_elem_of_cons in Hz as [Hza Hz].
      rewrite (Hframe _ Hz). by apply pointee_store_ne.
Qed.

(** X14. Moving the values of one container one slot to the right, the
    source and the destination overlapping: [CopyBackward] gives every
    object but the first the value its left neighbour had, while [Copy]
    over the same ranges gives every object the value of the first. *)
Theorem shift_right_needs_CopyBackward p l s :
  NoDup (p :: l) → Forall (live s) (p :: l) →
  (∃ s', CopyBackward (take (length l) (p :: l)) (S (length l)) (p :: l) s =
           Ret (1, p :: l) s' ∧
     pointee s' p = pointee s p ∧
     ∀ i x y, (p :: l) !! i = Some x → l !! i = Some y →
       pointee s' y = pointee s x) ∧
  (∃ s', Copy (take (length l) (p :: l)) 1 (p :: l) s =
           Ret (S (length l), p :: l) s' ∧
     ∀ y, y ∈ p :: l → pointee s' y = pointee s p).
Proof.
  intros Hnd Hlive. split.
  - assert (∃ l' q, p :: l = l' ++ [q]) as (l' & q & Heq).
    { destruct l as [|x l _] using rev_ind; [by exists [], p|].
      by exists (p :: l), x. }
    assert (length l = length l') as Hlen.
    { apply (f_equal length) in Heq. rewrite length_app in Heq.
      simpl in Heq. lia. }
    assert (p ∉ l) as Hpl by (by apply NoDup_cons in Hnd as [? _]).
    rewrite Heq in Hnd, Hlive.
    destruct (CopyBackward_shift l' q [] [] s Hnd Hlive)
      as (s' & Hrun & _ & Hval & Hframe).
    exists s'. unfold CopyBackward. rewrite Heq, Hlen, take_app_length.
    simpl in Hrun. split; [exact Hrun|]. split.
    + apply Hframe. by rewrite <- Heq.
    + intros i x y Hx Hy. rewrite <- Heq in Hval.
      apply (Hval i); [|done].
      assert (i < length l') as Hi.
      { apply lookup_lt_Some in Hy. lia. }
      by rewrite lookup_app_l in Hx.
  - destruct (Copy_smear l p [] [] s Hnd Hlive)
      as (s' & Hrun & _ & Hval & Hframe).
    simpl in Hrun. rewrite app_nil_r in Hrun.
    exists s'. split; [exact Hrun|].
    intros y [->|Hy]%elem_of_cons; [|by apply Hval].
    apply Hframe. by apply NoDup_cons in Hnd as [? _].
Qed.
End Overlap.

Lemma shift_right_needs_CopyBackward_witness :
  (∃ s', CopyBackward [Some 1; Some 2; Some 3] 4 four_sources eight_objects =
           Ret (1, four_sources) s' ∧
     pointee s' (Some 1) = pointee eight_objects (Some 1) ∧
     ∀ i x y, four_sources !! i = Some x →
       [Some 2; Some 3; Some 4] !! i = Some y →
       pointee s' y = pointee eight_objects x) ∧
  (∃ s', Copy [Some 1; Some 2; Some 3] 1 four_sources eight_objects =
           Ret (4, four_sources) s' ∧
     ∀ y, y ∈ four_sources → pointee s' y = pointee eight_objects (Some 1)).
Proof.
  apply (shift_right_needs_CopyBackward (Some 1) [Some 2; Some 3; Some 4]
           eight_objects); by_compute.
Defined.

(** ** Running a removal a second time *)

Section SecondRun.
Context {V : Type} `{EqualityComparable V}.
Implicit Types (s : state V) (c l rest out : list ptr)
  (pred : V → bool) (rel : V → V → bool).

Lemma filter_all {A} (P : A → Prop) `{∀ x, Decision (P x)} (l : list A) :
  Forall P l → filter P l = l.
Proof.
  induction 1 as [|x l Hx _ IH]; [done|].
  by rewrite filter_cons_True, IH.
Qed.

Lemma filter_none {A} (P : A → Prop) `{∀ x, Decision (P x)} (l : list A) :
  Forall (fun x => ¬ P x) l → filter P l = [].
Proof.
  induction 1 as [|x l Hx _ IH]; [done|].
  by rewrite filter_cons_False.
Qed.

Lemma unique_kept_idem rel s l : ∀ r,
  unique_kept rel s r (unique_kept rel s r l) = unique_kept rel s r l ∧
  unique_dropped rel s r (unique_kept rel s r l) = [].
Proof.
  induction l as [|p l IH]; intros r; [done|]. simpl.
  destruct (related rel s r p) eqn:E; [apply IH|].
  simpl. rewrite E. destruct (IH p) as [-> ->]. done.
Qed.

Lemma RemoveIf_second_run {T} c (value : T) pred s r out s' :
  Forall (live s) c → NoDup c →
  RemoveIf c value pred s = Ret (r, out) s' →
  RemoveIf (take r out) value pred s' = Ret (r, take r out) s'.
Proof.
  intros Hlive Hnd Hret.
  destruct (RemoveIf_run c value pred s Hlive Hnd) as (J & Hrun & _ & _).
  rewrite Hrun in Hret. injection Hret as <- <- <-.
  rewrite take_app_length.
  set (s' := State (without (addrs (removed pred s c)) (heap s))
                   (freed s ++ addrs (removed pred s c))).
  assert (∀ q, q ∈ kept pred s c →
            live s q ∧ pointee s' q = pointee s q ∧ ¬ holds pred s' q)
    as Hkept.
  { intros q Hq. apply list_elem_of_filter in Hq as [Hnot Hq].
    rewrite Forall_forall in Hlive. pose proof (Hlive _ Hq) as Hql.
    assert (pointee s' q = pointee s q) as Hsame.
    { destruct q as [a|]; [simpl|done]. rewrite lookup_without.
      case_decide as Hin; [|done]. exfalso. apply Hnot.
      apply elem_of_addrs in Hin.
      by apply list_elem_of_filter in Hin as [? _]. }
    split_and!; [done|done|]. unfold holds in *. by rewrite Hsame. }
  destruct (RemoveIf_run (kept pred s c) value pred s')
    as (J' & Hrun' & HJ' & _).
  { apply Forall_forall. intros q Hq.
    destruct (Hkept _ Hq) as (Hql & Hsame & _). unfold live.
    by rewrite Hsame. }
  { by apply NoDup_filter. }
  assert (kept pred s' (kept pred s c) = kept pred s c) as Hk.
  { apply filter_all. apply Forall_forall. intros q Hq.
    by destruct (Hkept _ Hq) as (_ & _ & ?). }
  assert (removed pred s' (kept pred s c) = []) as Hr.
  { apply filter_none. apply Forall_forall. intros q Hq.
    by destruct (Hkept _ Hq) as (_ & _ & ?). }
  rewrite Hk, Hr in Hrun'. rewrite Hr in HJ'.
  destruct J'; [|done]. simpl in Hrun'.
  by rewrite !app_nil_r in Hrun'.
Qed.

Lemma Unique_pred_second_run c rel s r out s' :
  Forall (live s) c → NoDup c →
  Unique_pred c rel s = Ret (r, out) s' →
  Unique_pred (take r out) rel s' = Ret (r, take r out) s'.
Proof.
  intros Hlive Hnd Hret. destruct c as [|p0 rest].
  { injection Hret as <- <- <-. done. }
  destruct (Unique_pred_run rel p0 rest s Hlive Hnd) as (J & Hrun & _ & _).
  rewrite Hrun in Hret. injection Hret as <- <- <-.
  change (take (S ?n) (p0 :: ?l)) with (p0 :: take n l).
  rewrite take_app_length.
  set (kp := unique_kept rel s p0 rest).
  set (dr := unique_dropped rel s p0 rest).
  set (s' := State (without (addrs dr) (heap s)) (freed s ++ addrs dr)).
  assert (NoDup (p0 :: kp)) as Hndk.
  { eapply sublist_NoDup; [exact Hnd|].
    apply sublist_skip. apply unique_kept_sublist. }
  assert (∀ q, q ∈ p0 :: kp → pointee s' q = pointee s q) as Hsame.
  { intros q Hq. destruct q as [a|]; [simpl|done]. rewrite lookup_without.
    case_decide as Hin; [|done]. exfalso.
    apply elem_of_addrs in Hin.
    apply NoDup_cons in Hnd as [Hp0 Hnd].
    apply elem_of_cons in Hq as [Heq|Hq].
    - apply Hp0. rewrite <- Heq. by eapply unique_dropped_subseteq.
    - exact (unique_disjoint rel s rest p0 _ Hnd Hq Hin). }
  destruct (Unique_pred_run rel p0 kp s') as (J' & Hrun' & HJ' & _).
  { apply Forall_forall. intros q Hq. unfold live. rewrite (Hsame _ Hq).
    rewrite Forall_forall in Hlive. apply Hlive.
    apply elem_of_cons in Hq as [->|Hq]; [by left|right].
    by eapply unique_kept_subseteq. }
  { done. }
  destruct (unique_ext rel s s' kp p0 Hsame) as (Hk & Hd & _).
  destruct (unique_kept_idem rel s rest p0) as [Hk' Hd'].
  fold kp in Hk', Hd'.
  rewrite Hk, Hk', Hd, Hd' in Hrun'. rewrite Hd, Hd' in HJ'.
  destruct J'; [|done]. simpl in Hrun'.
  by rewrite !app_nil_r in Hrun'.
Qed.

(** X15. Removal and deduplication are idempotent on what they keep: run
    again over the slots before the iterator returned, in the state the
    first run left, each of [Remove], [RemoveIf] and both [Unique] returns
    the same end, moves no pointer and deletes nothing. *)
Theorem second_run_changes_nothing {T} c value (value' : T) pred rel s
    r out s' :
  Forall (live s) c → NoDup c →
  (Remove c (outside value) s = Ret (r, out) s' →
   Remove (take r out) (outside value) s' = Ret (r, take r out) s') ∧
  (RemoveIf c value' pred s = Ret (r, out) s' →
   RemoveIf (take r out) value' pred s' = Ret (r, take r out) s') ∧
  (Unique c s = Ret (r, out) s' →
   Unique (take r out) s' = Ret (r, take r out) s') ∧
  (Unique_pred c rel s = Ret (r, out) s' →
   Unique_pred (take r out) rel s' = Ret (r, take r out) s').
Proof.
  intros Hlive Hnd.
  assert (∀ l st, Remove l (outside value) st =
                  RemoveIf l value (fun x => equal_to x value) st) as Hrem.
  { intros l st. unfold Remove, RemoveIf. apply Remove_as_RemoveIf. }
  assert (∀ l st, Unique l st = Unique_pred l equal_to st) as Huni.
  { intros l st. unfold Unique, Unique_pred. destruct l; [done|].
    apply Unique_as_Unique_pred. }
  split_and!.
  - rewrite !Hrem. by apply RemoveIf_second_run.
  - by apply RemoveIf_second_run.
  - rewrite !Huni. by apply Unique_pred_second_run.
  - by apply Unique_pred_second_run.
Qed.
End SecondRun.

Lemma second_run_changes_nothing_witness :
  ∃ r out s',
    Unique three_slots one_nine_nine = Ret (r, out) s' ∧
    Unique (take r out) s' = Ret (r, take r out) s'.
Proof.
  eexists _, _, _. split; [vm_compute; reflexivity|].
  refine (proj1 (proj2 (proj2 (second_run_changes_nothing three_slots 0%Z tt
            (fun _ => true) (fun _ _ => true) one_nine_nine _ _ _ _ _)))
            _); [by_compute|by_compute|].
  vm_compute. reflexivity.
Defined.

(** ** A guard over a range that was not erased *)

Section GuardAfterRemoval.
Context {V : Type} `{EqualityComparable V}.
Implicit Types (s : state V) (c l out : list ptr).

Lemma addrs_NoDup_lookup l : ∀ i j a,
  NoDup (addrs l) → l !! i = Some (Some a) → l !! j = Some (Some a) → i = j.
Proof.
  induction l as [|[b|] l IH]; intros i j a Hnd Hi Hj.
  - by rewrite lookup_nil in Hi.
  - rewrite addrs_cons_Some in Hnd. apply NoDup_cons in Hnd as [Hb Hnd].
    destruct i as [|i], j as [|j]; simpl in Hi, Hj.
    + done.
    + injection Hi as ->. exfalso. apply Hb. apply elem_of_addrs.
      by eapply list_elem_of_lookup_2.
    + injection Hj as ->. exfalso. apply Hb. apply elem_of_addrs.
      by eapply list_elem_of_lookup_2.
    + f_equal. by eapply IH.
  - rewrite addrs_cons_None in Hnd.
    destruct i as [|i], j as [|j]; simpl in Hi, Hj; [done|done|done|].
    f_equal. by eapply IH.
Qed.

Lemma tail_spent_guard_faults s' c r out i a :
  tail_spent s' c r out → r ≤ i → out !! i = Some (Some a) →
  ∃ f, container_wrapper_dtor (ContainerWrapper (Some 0)) (fun _ => out) s' =
       Fault f.
Proof.
  intros [Htail _] Hi Hout. unfold container_wrapper_dtor. simpl.
  destruct (delete_each out s') as [[] s''|s''|f] eqn:Hrun.
  - exfalso. apply delete_each_returns in Hrun as (Hnd & _ & _).
    destruct (Htail _ _ Hi Hout) as [|Hin]; [done|].
    apply list_elem_of_lookup_1 in Hin as [j Hj].
    apply lookup_take_Some in Hj as [Hj Hlt].
    pose proof (addrs_NoDup_lookup _ _ _ _ Hnd Hout Hj). lia.
  - exfalso. by eapply delete_each_never_throws.
  - by eexists.
Qed.

(** X16. After [Remove], [RemoveIf] or [Unique] over pairwise different
    pointers to living objects, a container guard bound to the container as
    the algorithm left it (nothing erased) cannot complete as soon as one
    slot at or past the returned iterator is not null: that slot repeats a
    pointer of the kept part, and the guard deletes it twice. *)
Theorem guard_over_unerased_range_faults {T} c value (value' : T) pred rel s
    r out s' i a :
  Forall (live s) c → NoDup c →
  r ≤ i → out !! i = Some (Some a) →
  Remove c (outside value) s = Ret (r, out) s' ∨
  RemoveIf c value' pred s = Ret (r, out) s' ∨
  Unique c s = Ret (r, out) s' ∨
  Unique_pred c rel s = Ret (r, out) s' →
  ∃ f, container_wrapper_dtor (ContainerWrapper (Some 0)) (fun _ => out) s' =
       Fault f.
Proof.
  intros Hlive Hnd Hi Hout Hret.
  apply (tail_spent_guard_faults s' c r out i a); [|done|done].
  destruct Hret as [Hret|[Hret|[Hret|Hret]]].
  - destruct (Remove_tail c value s Hlive Hnd) as (r0 & out0 & s0 & Hrun & Ht).
    rewrite Hrun in Hret. by injection Hret as <- <- <-.
  - destruct (RemoveIf_tail c value' pred s Hlive Hnd)
      as (r0 & out0 & s0 & Hrun & Ht).
    rewrite Hrun in Hret. by injection Hret as <- <- <-.
  - destruct (Unique_tail c s Hlive Hnd) as (r0 & out0 & s0 & Hrun & Ht).
    rewrite Hrun in Hret. by injection Hret as <- <- <-.
  - destruct (Unique_pred_tail c rel s Hlive Hnd)
      as (r0 & out0 & s0 & Hrun & Ht).
    rewrite Hrun in Hret. by injection Hret as <- <- <-.
Qed.
End GuardAfterRemoval.

Lemma guard_over_unerased_range_faults_witness :
  match Remove four_sources (outside 2%Z) eight_objects with
  | Ret (r, out) s' =>
      ∃ f, container_wrapper_dtor (ContainerWrapper (Some 0))
             (fun _ => out) s' = Fault f
  | _ => False
  end.
Proof.
  destruct (Remove four_sources (outside 2%Z) eight_objects) as [[r out] s'|s'|f]
    eqn:Hrun.
  - pose proof Hrun as Hval. vm_compute in Hval.
    injection Hval as <- <- <-.
    eapply (guard_over_unerased_range_faults four_sources 2%Z tt
             (fun _ => true) (fun _ _ => true) eight_objects _ _ _ 3 4).
    5:{ left. exact Hrun. }
    + by_compute.
    + by_compute.
    + lia.
    + reflexivity.
  - vm_compute in Hrun. discriminate Hrun.
  - vm_compute in Hrun. discriminate Hrun.
Defined.

(** ** The predicate that accepts everything *)

Section AcceptAll.
Context {V : Type}.
Variable alloc : gmap addr V → option addr.
Implicit Types (s : state V) (first out : list ptr).

Lemma CopyIf_accept_all first out : ∀ dest s,
  CopyIf first dest out (fun _ => true) s = Copy first dest out s.
Proof.
  induction first as [|pf first IH]; intros dest s; [done|].
  simpl. unfold bind.
  destruct (slot_get out dest s) as [pd s0|s0|f]; [|done|done].
  destruct (assert_nonnull pd s0) as [[] s1|s1|f]; [|done|done].
  destruct (assert_nonnull pf s1) as [[] s2|s2|f]; [|done|done].
  destruct (load pf s2) as [v s3|s3|f]; [|done|done].
  destruct (store pd v s3) as [[] s4|s4|f]; [|done|done].
  apply IH.
Qed.

Lemma ReplaceCopyIf_accept_all first out : ∀ dest s,
  ReplaceCopyIf first dest out (fun _ => true) s =
  ReplaceCopy first dest out s.
Proof.
  induction first as [|pf first IH]; intros dest s; [done|].
  simpl. unfold bind.
  destruct (slot_get out dest s) as [pd s0|s0|f]; [|done|done].
  destruct (assert_nonnull pd s0) as [[] s1|s1|f]; [|done|done].
  destruct (assert_nonnull pf s1) as [[] s2|s2|f]; [|done|done].
  destruct (load pf s2) as [v s3|s3|f]; [|done|done].
  destruct (store pd v s3) as [[] s4|s4|f]; [|done|done].
  apply IH.
Qed.

Lemma CloneIf_accept_all (src : list slot) : ∀ out dest s,
  CloneIf alloc src dest out (fun _ => true) s =
  Clone alloc src dest out s.
Proof.
  induction src as [|x src IH]; intros out dest s; [done|].
  simpl. unfold bind, Clone_, bind.
  destruct (slot_get out dest s) as [pd s0|s0|f] eqn:Hget; [|done|done].
  assert (s0 = s) as ->.
  { unfold slot_get in Hget. destruct (out !! dest); [|done].
    by injection Hget as _ ->. }
  destruct pd as [a|]; [simpl|done].
  destruct (slot_read_cases out x s) as [[pf ->]| ->]; [|done].
  destruct pf as [b|]; [simpl|done].
  unfold load. destruct (heap s !! b) as [v|] eqn:Hv; [|done].
  simpl. rewrite Hv.
  destruct (new_ alloc v s) as [q s1|s1|f]; [|done|done].
  destruct (slot_set out dest q s1) as [out' s2|s2|f]; [|done|done].
  apply IH.
Qed.

Lemma ReplaceCloneIf_accept_all (src : list slot) : ∀ out dest s,
  ReplaceCloneIf alloc src dest out (fun _ => true) s =
  ReplaceClone alloc src dest out s.
Proof.
  induction src as [|x src IH]; intros out dest s; [done|].
  simpl. unfold bind, Clone_, bind.
  destruct (slot_get out dest s) as [pd s0|s0|f] eqn:Hget; [|done|done].
  assert (s0 = s) as ->.
  { unfold slot_get in Hget. destruct (out !! dest); [|done].
    by injection Hget as _ ->. }
  destruct pd as [a|]; [simpl|done].
  destruct (slot_read_cases out x s) as [[pf ->]| ->]; [|done].
  destruct pf as [b|]; [simpl|done].
  unfold load, delete_. simpl.
  destruct (heap s !! b) as [v|] eqn:Hv.
  - destruct (heap s !! a) as [w|]; [simpl|done].
    destruct (delete a (heap s) !! b) as [v'|]; [simpl|done].
    destruct (new_ alloc v' _) as [q s1|s1|f]; [|done|done].
    destruct (slot_set out dest q s1) as [out' s2|s2|f]; [|done|done].
    apply IH.
  - destruct (heap s !! a) as [w|]; [simpl|done].
    destruct (decide (b = a)) as [->|Hne].
    + by rewrite lookup_delete_eq.
    + by rewrite lookup_delete_ne, Hv.
Qed.

(** X18. With a predicate that accepts every object each filtered algorithm
    is its unfiltered sibling: on every input, well-formed or not, [CopyIf],
    [ReplaceCopyIf], [CloneIf] and [ReplaceCloneIf] have the outcome of
    [Copy], [ReplaceCopy], [Clone] and [ReplaceClone]. *)
Theorem accepting_everything_is_not_filtering first (src : list slot)
    dest out s :
  CopyIf first dest out (fun _ => true) s = Copy first dest out s ∧
  ReplaceCopyIf first dest out (fun _ => true) s =
    ReplaceCopy first dest out s ∧
  CloneIf alloc src dest out (fun _ => true) s =
    Clone alloc src dest out s ∧
  ReplaceCloneIf alloc src dest out (fun _ => true) s =
    ReplaceClone alloc src dest out s.
Proof.
  split_and!.
  - apply CopyIf_accept_all.
  - apply ReplaceCopyIf_accept_all.
  - apply CloneIf_accept_all.
  - apply ReplaceCloneIf_accept_all.
Qed.
End AcceptAll.

(** ** What cloning never does *)

Section CloneEffects.
Context {V : Type}.
Variable alloc : gmap addr V → option addr.
Hypothesis alloc_fresh : ∀ h a, alloc h = Some a → h !! a = None.
Implicit Types (s : state V) (first : list slot) (out : list ptr)
  (pred : V → bool).

Lemma only_created_refl s : only_created s s.
Proof. by split. Qed.

Lemma only_created_trans s1 s2 s3 :
  only_created s1 s2 → only_created s2 s3 → only_created s1 s3.
Proof.
  intros [Hh1 Hf1] [Hh2 Hf2]. split; [by etrans|congruence].
Qed.

Lemma Clone__effects p s :
  match Clone_ alloc p s with
  | Ret q s' => only_created s s' ∧ ¬ live s q ∧ live s' q
  | Throw s' => s' = s
  | Fault _ => True
  end.
Proof.
  unfold Clone_, bind, load, new_. destruct p as [b|]; [|done].
  destruct (heap s !! b) as [v|]; [simpl|done].
  destruct (alloc (heap s)) as [a|] eqn:Ha; [|done].
  apply alloc_fresh in Ha. split_and!.
  - split; [by apply insert_subseteq|done].
  - unfold live. simpl. rewrite Ha. by intros [? ?].
  - unfold live. simpl. rewrite lookup_insert_eq. by eauto.
Qed.

Lemma Clone_effects first : ∀ dest out s,
  match Clone alloc first dest out s with
  | Ret (r, out') s' => length out' = length out ∧ only_created s s'
  | Throw s' => only_created s s'
  | Fault _ => True
  end.
Proof.
  induction first as [|x first IH]; intros dest out s.
  - simpl. split; [done|apply only_created_refl].
  - simpl. unfold bind at 1. unfold slot_get.
    destruct (out !! dest) as [pd|] eqn:Hpd; [simpl|done].
    unfold bind at 1. destruct pd as [a|]; [simpl|done].
    unfold bind at 1.
    destruct (slot_read_cases out x s) as [[pf ->]| ->]; [|done].
    unfold bind at 1. destruct pf as [b|]; [simpl|done].
    unfold bind at 1. pose proof (Clone__effects (Some b) s) as Hc.
    destruct (Clone_ alloc (Some b) s) as [q s1|s1|f];
      [|by subst; apply only_created_refl|done].
    destruct Hc as (Hc & _ & _).
    unfold bind, slot_set. apply lookup_lt_Some in Hpd.
    rewrite decide_True by done. simpl.
    specialize (IH (S dest) (<[dest:=q]> out) s1).
    destruct (Clone alloc first (S dest) (<[dest:=q]> out) s1)
      as [[r out'] s2|s2|f]; [| |done].
    + destruct IH as [Hl Hg]. rewrite length_insert in Hl.
      split; [done|by eapply only_created_trans].
    + by eapply only_created_trans.
Qed.

Lemma CloneIf_effects pred first : ∀ dest out s,
  match CloneIf alloc first dest out pred s with
  | Ret (r, out') s' => length out' = length out ∧ only_created s s'
  | Throw s' => only_created s s'
  | Fault _ => True
  end.
Proof.
  induction first as [|x first IH]; intros dest out s.
  - simpl. split; [done|apply only_created_refl].
  - simpl. unfold bind at 1. unfold slot_get.
    destruct (out !! dest) as [pd|] eqn:Hpd; [simpl|done].
    unfold bind at 1. destruct pd as [a|]; [simpl|done].
    unfold bind at 1.
    destruct (slot_read_cases out x s) as [[pf ->]| ->]; [|done].
    unfold bind at 1. destruct pf as [b|]; [simpl|done].
    unfold bind at 1. unfold load at 1.
    destruct (heap s !! b) as [v|] eqn:Hv; [|done].
    destruct (pred v); [|apply IH].
    unfold bind at 1. pose proof (Clone__effects (Some b) s) as Hc.
    destruct (Clone_ alloc (Some b) s) as [q s1|s1|f];
      [|by subst; apply only_created_refl|done].
    destruct Hc as (Hc & _ & _).
    unfold bind, slot_set. apply lookup_lt_Some in Hpd.
    rewrite decide_True by done. simpl.
    specialize (IH (S dest) (<[dest:=q]> out) s1).
    destruct (CloneIf alloc first (S dest) (<[dest:=q]> out) pred s1)
      as [[r out'] s2|s2|f]; [| |done].
    + destruct IH as [Hl Hg]. rewrite length_insert in Hl.
      split; [done|by eapply only_created_trans].
    + by eapply only_created_trans.
Qed.

(** X19. [Clone] and [CloneIf] only create objects: on every input, when
    they return or when an allocation fails, nothing has been deleted, every
    object that was alive is alive with its value, and the destination
    container has the length it had.  The copies already made stay behind
    when an allocation fails. *)
Theorem cloning_only_creates pred first dest out s :
  (∀ r out' s', Clone alloc first dest out s = Ret (r, out') s' →
     length out' = length out ∧ only_created s s') ∧
  (∀ s', Clone alloc first dest out s = Throw s' → only_created s s') ∧
  (∀ r out' s', CloneIf alloc first dest out pred s = Ret (r, out') s' →
     length out' = length out ∧ only_created s s') ∧
  (∀ s', CloneIf alloc first dest out pred s = Throw s' → only_created s s').
Proof.
  pose proof (Clone_effects first dest out s) as Hc.
  pose proof (CloneIf_effects pred first dest out s) as Hi.
  split_and!.
  - intros r out' s' Heq. by rewrite Heq in Hc.
  - intros s' Heq. by rewrite Heq in Hc.
  - intros r out' s' Heq. by rewrite Heq in Hi.
  - intros s' Heq. by rewrite Heq in Hi.
Qed.
End CloneEffects.

Lemma cloning_only_creates_witness :
  ∃ s', Clone (bounded_alloc 10) (apart four_sources) 0 four_targets
          eight_objects = Throw s' ∧
        only_created eight_objects s'.
Proof.
  eexists. split; [vm_compute; reflexivity|].
  refine (proj1 (proj2 (cloning_only_creates (bounded_alloc 10)
            (bounded_alloc_fresh 10) (fun _ => true) (apart four_sources) 0
            four_targets eight_objects)) _ _).
  vm_compute. reflexivity.
Defined.

Lemma filtered_algorithms_witness :
  (∃ s', CopyIf four_sources 0 four_targets Z.even eight_objects =
           Ret (2, four_targets) s') ∧
  (∃ d out s', CloneIf bump_alloc (apart four_sources) 0 four_targets Z.even
                 eight_objects = Ret (d, out) s' ∧ d = 2) ∧
  (∃ d out s', ReplaceCloneIf bump_alloc (apart four_sources) 0 four_targets
                 Z.even eight_objects = Ret (d, out) s' ∧ d = 2) ∧
  (∃ s', ReplaceCopyIf four_sources 0 four_targets Z.even eight_objects =
           Ret (4, four_targets) s').
Proof.
  destruct (filtered_algorithms bump_alloc bump_alloc_fresh four_sources
              four_targets Z.even eight_objects)
    as ((s0 & Hcopy & _) & Hclone & Hreplace & Hret & _ & Hinplace);
    [simpl; lia|by_compute|by_compute|by_compute|by_disjoint|].
  destruct Hret as ((d1 & out1 & s1 & Hrun1) & (d2 & out2 & s2 & Hrun2)).
  { intros h. eexists. reflexivity. }
  destruct (Hinplace eq_refl) as (s3 & Hrun3 & _).
  split; [exists s0; exact Hcopy|].
  split; [exists d1, out1, s1; split;
            [exact Hrun1|exact (proj1 (Hclone _ _ _ Hrun1))]|].
  split; [exists d2, out2, s2; split;
            [exact Hrun2|exact (proj1 (Hreplace _ _ _ Hrun2))]|].
  exists s3. exact Hrun3.
Defined.
